(** * abbrevIso: ISO-4 title abbreviation

    A shallow embedding of the JavaScript library (PrefixTree.js,
    collation.js, AbbrevIso.js) and the properties proved about it.

    Conventions of the embedding.
    - A JavaScript string is the list of its UTF-16 code units ([jsstring]);
      [length], [substr], [charAt] count code units, while [for .. of] and
      [Array.from] iterate code points ([codePoints]).
    - A function that may throw returns an [outcome]; [Throw] carries the
      kind of the exception.
    - Built-ins of the host whose tables are not part of the repository
      (Unicode normalisation, case mapping, the parser of the RegExp
      constructor) are the fields of the class [Host]. *)

From Stdlib Require Import NArith ZArith Lia.
From stdpp Require Import base option list gmap strings sorting.

Set Warnings "-register-all".
Set Default Proof Using "Type".

(** ** Strings and exceptions *)

Module JS.

Abbreviation jsstring := (list N).

(** A Basic Latin literal as a JavaScript string. *)
Fixpoint str (s : string) : jsstring :=
  match s with
  | EmptyString => []
  | String a s' => Ascii.N_of_ascii a :: str s'
  end.

Inductive error :=
| TypeError
| SyntaxError
| Error (message : jsstring).

Inductive outcome (A : Type) :=
| Ok (a : A)
| Throw (e : error).
Arguments Ok {A} a.
Arguments Throw {A} e.

Definition bind {A B} (c : outcome A) (k : A -> outcome B) : outcome B :=
  match c with
  | Ok a => k a
  | Throw e => Throw e
  end.

Definition isHighSurrogate (c : N) : bool := ((0xD800 <=? c) && (c <=? 0xDBFF))%N.
Definition isLowSurrogate (c : N) : bool := ((0xDC00 <=? c) && (c <=? 0xDFFF))%N.
Definition isSurrogate (c : N) : bool := isHighSurrogate c || isLowSurrogate c.

(** The string iterator ([for (const c of s)], [Array.from(s)]): one string
    per code point; a high surrogate followed by a low one is one element. *)
Fixpoint codePoints (s : jsstring) : list jsstring :=
  match s with
  | [] => []
  | a :: s' =>
    match s' with
    | b :: s'' =>
      if isHighSurrogate a && isLowSurrogate b
      then [a; b] :: codePoints s''
      else [a] :: codePoints s'
    | [] => [[a]]
    end
  end.

(** [s.substr(i)] for [0 <= i], and [s.substring(i, j)] for [0 <= i]. *)
Definition substr (s : jsstring) (i : nat) : jsstring := drop i s.
Definition substring (s : jsstring) (i j : nat) : jsstring :=
  take (Nat.max i j - Nat.min i j) (drop (Nat.min i j) s).
(** [s.charAt(i)]: the empty string out of range. *)
Definition charAt (s : jsstring) (i : nat) : jsstring := take 1 (drop i s).

End JS.
Export JS.

Notation "x <- c ;; k" := (JS.bind c (fun x => k))
  (at level 20, c at level 99, k at level 200, only parsing).
Notation "' p <- c ;; k" := (JS.bind c (fun x => match x with p => k end))
  (at level 20, p pattern, c at level 99, k at level 200, only parsing).

(** ** Regular expressions

    The subset of the pattern language the library uses, with the
    backtracking semantics of the language specification: the first
    successful path in priority order, greedy quantifiers, the captures of
    a quantified term reset at each iteration, an iteration of a quantifier
    with minimum 0 that consumes nothing rejected.  With the flag [u] a
    surrogate pair is one character. *)

Module RegExp.

Inductive regex :=
| Empty
| Char (c : N)
| Class (negated : bool) (ranges : list (N * N))
| Any
| Bol
| Eol
| Seq (r1 r2 : regex)
| Alt (r1 r2 : regex)
| Group (n : nat) (r : regex)
| Repeat (min : nat) (max : option nat) (r : regex).

(** The code of a Basic Latin character, for writing patterns. *)
Definition chr (s : string) : N :=
  match s with
  | String a _ => Ascii.N_of_ascii a
  | EmptyString => 0%N
  end.
Definition one (s : string) : N * N := (chr s, chr s).
Definition range (a b : string) : N * N := (chr a, chr b).

(** A sequence of terms, a disjunction of alternatives, a literal word. *)
Fixpoint seq (rs : list regex) : regex :=
  match rs with
  | [] => Empty
  | [r] => r
  | r :: rs' => Seq r (seq rs')
  end.
Fixpoint alt (rs : list regex) : regex :=
  match rs with
  | [] => Empty
  | [r] => r
  | r :: rs' => Alt r (alt rs')
  end.
Definition codePointValue (c : jsstring) : N :=
  match c with
  | [a; b] => (0x10000 + (a - 0xD800) * 0x400 + (b - 0xDC00))%N
  | a :: _ => a
  | [] => 0%N
  end.
Definition literal (w : jsstring) : regex := seq (Char ∘ codePointValue <$> codePoints w).

(** [\s], and what [trim] strips: white space and line terminators. *)
Definition whiteSpace : list (N * N) :=
  [(0x09, 0x0D); (0x20, 0x20); (0xA0, 0xA0); (0x1680, 0x1680); (0x2000, 0x200A);
   (0x2028, 0x2029); (0x202F, 0x202F); (0x205F, 0x205F); (0x3000, 0x3000);
   (0xFEFF, 0xFEFF)]%N.
Definition lineTerminators : list (N * N) :=
  [(0x0A, 0x0A); (0x0D, 0x0D); (0x2028, 0x2029)]%N.

Definition inRanges (rs : list (N * N)) (c : N) : bool :=
  existsb (λ r, (r.1 <=? c) && (c <=? r.2))%N rs.

(** The state of a match: the index reached, the input from there on, and
    the captures so far. *)
Record state := { pos : nat; rest : jsstring; caps : gmap nat jsstring }.

(** The character at the head of the input and the code units it takes. *)
Definition headChar (u : bool) (s : jsstring) : option (N * nat) :=
  match s with
  | [] => None
  | a :: s' =>
    match s' with
    | b :: _ =>
      if u && isHighSurrogate a && isLowSurrogate b
      then Some (codePointValue [a; b], 2)
      else Some (a, 1)
    | [] => Some (a, 1)
    end
  end.

Definition step (u : bool) (p : N → bool) (st : state) (k : state → option state)
  : option state :=
  match headChar u (rest st) with
  | Some (c, w) =>
    if p c
    then k {| pos := pos st + w; rest := drop w (rest st); caps := caps st |}
    else None
  | None => None
  end.

Fixpoint groups (r : regex) : list nat :=
  match r with
  | Seq r1 r2 | Alt r1 r2 => groups r1 ++ groups r2
  | Group n r => n :: groups r
  | Repeat _ _ r => groups r
  | _ => []
  end.

Definition resetCaptures (ns : list nat) (st : state) : state :=
  {| pos := pos st; rest := rest st; caps := foldr delete (caps st) ns |}.

Definition setCapture (n : nat) (s : jsstring) (st : state) : state :=
  {| pos := pos st; rest := rest st; caps := <[n := s]> (caps st) |}.

(** The quantifier [{min,max}] over a term with matcher [body]; [fuel]
    bounds the iterations and is at least [min] plus the length of the
    input left, which no run exceeds. *)
Fixpoint repeatMatcher (body : state → (state → option state) → option state)
    (ns : list nat) (fuel : nat) (min : nat) (max : option nat)
    (st : state) (k : state → option state) : option state :=
  match max with
  | Some 0 => k st
  | _ =>
    match fuel with
    | 0 => k st
    | S fuel' =>
      let iteration :=
        body (resetCaptures ns st)
          (λ st1,
            if (min =? 0) && (pos st1 =? pos st) then None
            else repeatMatcher body ns fuel' (Nat.pred min) (Nat.pred <$> max) st1 k) in
      if min =? 0 then
        match iteration with
        | Some res => Some res
        | None => k st
        end
      else iteration
    end
  end.

(** The matcher of a pattern, from a state, with the continuation [k]. *)
Fixpoint matcher (u : bool) (r : regex) (st : state) (k : state → option state)
  : option state :=
  match r with
  | Empty => k st
  | Char c => step u (λ x, x =? c)%N st k
  | Class negated ranges => step u (λ x, xorb negated (inRanges ranges x)) st k
  | Any => step u (λ x, negb (inRanges lineTerminators x)) st k
  | Bol => if pos st =? 0 then k st else None
  | Eol => match rest st with [] => k st | _ => None end
  | Seq r1 r2 => matcher u r1 st (λ st1, matcher u r2 st1 k)
  | Alt r1 r2 =>
    match matcher u r1 st k with
    | Some res => Some res
    | None => matcher u r2 st k
    end
  | Group n r1 =>
    matcher u r1 st (λ st1, k (setCapture n (take (pos st1 - pos st) (rest st)) st1))
  | Repeat min max r1 =>
    repeatMatcher (matcher u r1) (groups r1) (S (min + length (rest st))) min max st k
  end.

(** A match attempt at index [p], where [rest] is the input from [p] on. *)
Definition matchAt (u : bool) (r : regex) (p : nat) (rest : jsstring) : option state :=
  matcher u r {| pos := p; rest := rest; caps := ∅ |} Some.

(** The code units to step over after a failed attempt or an empty match. *)
Definition advance (u : bool) (rest : jsstring) : nat :=
  match headChar u rest with
  | Some (_, w) => w
  | None => 1
  end.

(** The first match at or after index [p]: its index and final state. *)
Fixpoint search (u : bool) (r : regex) (p : nat) (rest : jsstring) {struct rest}
  : option (nat * state) :=
  match matchAt u r p rest with
  | Some st => Some (p, st)
  | None =>
    match rest with
    | [] => None
    | a :: rest' =>
      match rest' with
      | b :: rest'' =>
        if u && isHighSurrogate a && isLowSurrogate b
        then search u r (p + 2) rest''
        else search u r (p + 1) rest'
      | [] => search u r (p + 1) rest'
      end
    end
  end.

(** [r.test(s)] for a pattern without the flag [g]. *)
Definition test (u : bool) (r : regex) (s : jsstring) : bool :=
  bool_decide (is_Some (search u r 0 s)).

(** Replacement templates: literal text and [$n]. *)
Inductive titem :=
| TLit (s : jsstring)
| TGroup (n : nat).

Definition expand (tmpl : list titem) (st : state) : jsstring :=
  concat ((λ i, match i with
                | TLit s => s
                | TGroup n => default [] (caps st !! n)
                end) <$> tmpl).

(** [s.replace(r, tmpl)] for a pattern with the flag [g]: the loop over
    the input from index [p] on; [fuel] exceeds the length of the input
    left. *)
Fixpoint replaceAll_loop (u : bool) (r : regex) (tmpl : list titem)
    (fuel : nat) (p : nat) (rest : jsstring) : jsstring :=
  match fuel with
  | 0 => rest
  | S fuel' =>
    let skip :=
      match rest with
      | [] => []
      | _ => let w := advance u rest in
             take w rest ++ replaceAll_loop u r tmpl fuel' (p + w) (drop w rest)
      end in
    match matchAt u r p rest with
    | Some st =>
      let n := pos st - p in
      expand tmpl st ++
      (if n =? 0 then skip else replaceAll_loop u r tmpl fuel' (pos st) (drop n rest))
    | None => skip
    end
  end.

Definition replaceAll (u : bool) (r : regex) (tmpl : list titem) (s : jsstring) : jsstring :=
  replaceAll_loop u r tmpl (S (length s)) 0 s.

(** [s.replace(r, tmpl)] for a pattern without the flag [g]. *)
Definition replaceFirst (u : bool) (r : regex) (tmpl : list titem) (s : jsstring) : jsstring :=
  match search u r 0 s with
  | Some (p, st) => take p s ++ expand tmpl st ++ drop (pos st) s
  | None => s
  end.

(** [s.split(r)] for a pattern without groups: the loop with the start [p]
    of the piece being read and the index [q] tried next, [rest] the input
    from [q] on. *)
Fixpoint split_loop (u : bool) (r : regex) (s : jsstring)
    (fuel : nat) (p q : nat) (rest : jsstring) : list jsstring :=
  match fuel with
  | 0 => [drop p s]
  | S fuel' =>
    match rest with
    | [] => [drop p s]
    | _ =>
      let w := advance u rest in
      match matchAt u r q rest with
      | Some st =>
        let e := Nat.min (pos st) (length s) in
        if e =? p then split_loop u r s fuel' p (q + w) (drop w rest)
        else take (q - p) (drop p s) :: split_loop u r s fuel' e e (drop e s)
      | None => split_loop u r s fuel' p (q + w) (drop w rest)
      end
    end
  end.

Definition split (u : bool) (r : regex) (s : jsstring) : list jsstring :=
  match s with
  | [] => match matchAt u r 0 [] with Some _ => [] | None => [[]] end
  | _ => split_loop u r s (S (2 * length s)) 0 0 s
  end.

(** [s.split(sep)] for a separator of one code unit. *)
Fixpoint splitChar (sep : N) (s : jsstring) : list jsstring :=
  match s with
  | [] => [[]]
  | a :: s' =>
    if (a =? sep)%N then [] :: splitChar sep s'
    else match splitChar sep s' with
         | piece :: pieces => (a :: piece) :: pieces
         | [] => [[a]]
         end
  end.

(** [s.trim()] *)
Definition isWhiteSpace (c : N) : bool := inRanges whiteSpace c.
Fixpoint trimStart (s : jsstring) : jsstring :=
  match s with
  | a :: s' => if isWhiteSpace a then trimStart s' else s
  | [] => []
  end.
Definition trimEnd (s : jsstring) : jsstring := reverse (trimStart (reverse s)).
Definition trim (s : jsstring) : jsstring := trimEnd (trimStart s).

End RegExp.
Export RegExp.

(** ** Built-ins of the host

    [String.prototype.normalize] for the forms NFC and NFKD,
    [toLowerCase], [toUpperCase], and the RegExp constructor with the flags
    ['gu'] on a source text put together at run time (a SyntaxError where
    the text is no pattern). *)

Class Host := {
  normalize_NFC : jsstring → jsstring;
  normalize_NFKD : jsstring → jsstring;
  toLowerCase : jsstring → jsstring;
  toUpperCase : jsstring → jsstring;
  RegExp_gu : jsstring → outcome regex;
}.

(** ** collation.js *)

Module Collation.

(** [boundariesRegex]: the class of [-], [\s], the en and em dashes and
    [_ . , : ; ! | = + * \ /], the double quote, [( ) & # % @ $ ?]. *)
Definition boundaries : list (N * N) :=
  one "-" :: whiteSpace ++
  [(0x2013, 0x2013); (0x2014, 0x2014); one "_"; one "."; one ","; one ":"; one ";";
   one "!"; one "|"; one "="; one "+"; one "*"; one "\"; one "/"; (34, 34); one "(";
   one ")"; one "&"; one "#"; one "%"; one "@"; one "$"; one "?"]%N.
Definition boundariesRegex : regex := Class false boundaries.

(** [newlineRegex]: CR LF, or one of LF, VT, FF, CR, NEL, LS, PS. *)
Definition newlineRegex : regex :=
  Alt (Seq (Char 13) (Char 10))
      (Class false [(10, 10); (11, 11); (12, 12); (13, 13); (0x85, 0x85);
                    (0x2028, 0x2028); (0x2029, 0x2029)]%N).

(** The letters [normalize] rewrites before the decomposition, in the order
    of its [replace] calls. *)
Definition foreignLetters : list (N * jsstring) :=
  [(0xDF, str "ss"); (0x1E9E, str "SS");
   (0x111, str "d"); (0x110, str "D");
   (0xF0, str "d"); (0xD0, str "D");
   (0xFE, str "th"); (0xDE, str "TH");
   (0x127, str "h"); (0x126, str "H");
   (0x142, str "l"); (0x141, str "L");
   (0x153, str "oe"); (0x152, str "Oe");
   (0xE6, str "ae"); (0xC6, str "Ae");
   (0x131, str "i");
   (0xF8, str "o"); (0xD8, str "O")]%N.

(** [s.codePointAt(i)] for an index [i] within [s], on [s] from that index
    on: the code point of a surrogate pair that starts there, or else the
    code unit. *)
Definition codePointAt (rest : jsstring) : N :=
  match rest with
  | a :: b :: _ => if isHighSurrogate a && isLowSurrogate b then codePointValue [a; b] else a
  | a :: _ => a
  | [] => 0%N
  end.

(** [n.toString(16)]: the digits of [n] in base 16, the last one first
    into [digits]; the digits of [n] are no more than its bits. *)
Definition hexDigit (d : N) : N := if (d <? 10)%N then (48 + d)%N else (87 + d)%N.
Fixpoint toString16_loop (fuel : nat) (n : N) (digits : jsstring) : jsstring :=
  match fuel with
  | 0 => digits
  | S fuel' =>
    let digits := hexDigit (n mod 16) :: digits in
    if (n / 16 =? 0)%N then digits else toString16_loop fuel' (n / 16) digits
  end.
Definition toString16 (n : N) : jsstring :=
  toString16_loop (S (N.to_nat (N.log2 n))) n [].

(** [debugUTF(s)]: one entry for every index of [s]. *)
Fixpoint debugUTF (s : jsstring) : list jsstring :=
  match s with
  | [] => []
  | _ :: s' => toString16 (codePointAt s) :: debugUTF s'
  end.

Section Collation.
Context `{Host}.

(** [normalize(s)] *)
Definition normalize (s : jsstring) : jsstring :=
  let s := foldl (λ s e, replaceAll false (Char e.1) [TLit e.2] s) s foreignLetters in
  let s := replaceAll false
             (Class false [(0xB7, 0xB7); (0x2BA, 0x2BA); (0xFFFD, 0xFFFD)]%N) [] s in
  replaceAll true (Class false [(0x300, 0x36F)]%N) [] (normalize_NFKD s).

(** [promiscuouslyNormalize(s)] *)
Definition promiscuouslyNormalize (s : jsstring) : jsstring :=
  let s := toLowerCase (normalize s) in
  let s := replaceAll false boundariesRegex [TLit (str " ")] s in
  let s := replaceAll true (Repeat 1 None (Class false whiteSpace)) [TLit (str " ")] s in
  let s := replaceAll true (Seq Bol (Class false whiteSpace)) [] s in
  let s := replaceAll true (Seq (Class false whiteSpace) Eol) [] s in
  let s := replaceAll false (Class true [range "a" "z"; one " "]) [TLit (str " ")] s in
  let s := replaceAll false (Seq (Char (chr "k")) (Char (chr "h"))) [] s in
  replaceAll false (Char (chr "h")) [] s.

(** [cEquiv(s, t)] *)
Definition cEquiv (s t : jsstring) : bool :=
  bool_decide (toLowerCase (normalize s) = toLowerCase (normalize t)).

(** The loop of [getCollatingMatch(s, t)].  The arguments are [ss] from
    index [i] on and [tt] from index [j] on, so that [i + 1 < ss.length]
    reads "two elements are left"; [result] holds the two Arrays built so
    far.  Every step moves [j] forward, or [i] with [j] in place.  (The two
    matches on an empty tail under [oneToTwo] and [twoToOne] are dead:
    the tests have seen a second element.) *)
Fixpoint getCollatingMatch_loop (tt : list jsstring)
  : list jsstring → list jsstring * list jsstring → option (list jsstring * list jsstring) :=
  fix at_i (ss : list jsstring) (result : list jsstring * list jsstring)
    : option (list jsstring * list jsstring) :=
    let push a b := (result.1 ++ [a], result.2 ++ [b]) in
    match tt with
    | [] => Some result
    | tj :: tt' =>
      match ss with
      | [] =>
        if cEquiv [] tj then getCollatingMatch_loop tt' [] (push [] tj)
        else None
      | si :: ss' =>
        let twoToTwo :=
          match ss', tt' with
          | si1 :: _, tj1 :: _ => cEquiv (si ++ si1) (tj ++ tj1)
          | _, _ => false
          end in
        let oneToTwo :=
          match tt' with
          | tj1 :: _ => cEquiv si (tj ++ tj1) && negb (cEquiv tj1 [])
          | [] => false
          end in
        let twoToOne :=
          match ss' with
          | si1 :: _ => cEquiv (si ++ si1) tj && negb (cEquiv si1 [])
          | [] => false
          end in
        if twoToTwo then getCollatingMatch_loop tt' ss' (push si tj)
        else if oneToTwo then
          if cEquiv [] tj then getCollatingMatch_loop tt' ss (push [] tj)
          else
            match tt' with
            | tj1 :: tt'' => getCollatingMatch_loop tt'' ss' (push si (tj ++ tj1))
            | [] => None
            end
        else if twoToOne then
          if cEquiv si [] then at_i ss' (push si [])
          else
            match ss' with
            | si1 :: ss'' => getCollatingMatch_loop tt' ss'' (push (si ++ si1) tj)
            | [] => None
            end
        else if cEquiv si tj then getCollatingMatch_loop tt' ss' (push si tj)
        else if cEquiv si [] then at_i ss' (push si [])
        else None
      end
    end.

(** [getCollatingMatch(s, t)]; [None] is the result [false]. *)
Definition getCollatingMatch (s t : jsstring)
  : option (list jsstring * list jsstring) :=
  getCollatingMatch_loop (codePoints t) (codePoints s) ([], []).

End Collation.
End Collation.

(** ** PrefixTree.js *)

Module PrefixTree.

(** What a Map of the tree holds under a key: the bucket Array under ['-'],
    [true] under ['?'], a child Map under a character. *)
Inductive value (V : Type) : Type :=
| VArray (a : list (jsstring * V))
| VTrue
| VMap (m : gmap jsstring (value V)).
Arguments VArray {V} a.
Arguments VTrue {V}.
Arguments VMap {V} m.

Record PrefixTree (V : Type) := { root_ : value V }.
Arguments root_ {V} p.

Definition maxNodeSize : nat := 5.

Definition dash : jsstring := str "-".
Definition qmark : jsstring := str "?".

Section Methods.
Context {V : Type}.

(** [new Map()] followed by [set('-', [])]. *)
Definition newNode : value V := VMap {[ dash := VArray [] ]}.

(** [constructor()] *)
Definition new : PrefixTree V := {| root_ := newNode |}.

(** The receiver of [has], [get], [set] must be a Map, the receiver of
    [push] and the argument destructured by [get] an Array: anything else
    is a TypeError. *)
Definition asMap (v : value V) : outcome (gmap jsstring (value V)) :=
  match v with
  | VMap m => Ok m
  | _ => Throw TypeError
  end.

Definition asArray (v : option (value V)) : outcome (list (jsstring * V)) :=
  match v with
  | Some (VArray a) => Ok a
  | _ => Throw TypeError
  end.

Definition getMap (v : option (value V)) : outcome (gmap jsstring (value V)) :=
  match v with
  | Some w => asMap w
  | None => Throw TypeError
  end.

(** The loop of [splitNode(node)] over the entries of the bucket; [m] is
    the Map [node] as updated so far. *)
Fixpoint splitNode_loop (entries : list (jsstring * V))
    (m : gmap jsstring (value V)) (objectsEndingAtNode : list (jsstring * V))
  : outcome (gmap jsstring (value V) * list (jsstring * V)) :=
  match entries with
  | [] => Ok (m, objectsEndingAtNode)
  | (position, object) :: entries' =>
    match position with
    | [] => splitNode_loop entries' m (objectsEndingAtNode ++ [(position, object)])
    | c0 :: rest =>
      let c := [c0] in
      let m1 := if decide (is_Some (m !! c)) then m else <[c := newNode]> m in
      child <- getMap (m1 !! c) ;;
      bucket <- asArray (child !! dash) ;;
      splitNode_loop entries'
        (<[c := VMap (<[dash := VArray (bucket ++ [(rest, object)])]> child)]> m1)
        objectsEndingAtNode
    end
  end.

(** [splitNode(node)] *)
Definition splitNode (node : value V) : outcome (value V) :=
  m <- asMap node ;;
  entries <- asArray (m !! dash) ;;
  ' (m', objectsEndingAtNode) <- splitNode_loop entries m [] ;;
  Ok (VMap (<[qmark := VTrue]> (<[dash := VArray objectsEndingAtNode]> m'))).

(** The two statements of [add] after its loop, at the node reached. *)
Definition add_here (m : gmap jsstring (value V)) (residual : jsstring) (object : V)
  : outcome (value V) :=
  bucket <- asArray (m !! dash) ;;
  let bucket' := bucket ++ [(residual, object)] in
  let node := VMap (<[dash := VArray bucket']> m) in
  if (maxNodeSize <? length bucket')%nat then splitNode node else Ok node.

(** The loop of [add(position, object)]: [cs] are the code points of
    [position] still to read, [i] the counter, [node] the node reached.  The
    tree is mutated in place along one path; the embedding returns the node
    with that path rebuilt. *)
Fixpoint add_walk (cs : list jsstring) (i : nat) (position : jsstring) (object : V)
    (node : value V) : outcome (value V) :=
  m <- asMap node ;;
  match cs with
  | [] => add_here m (substr position i) object
  | c :: cs' =>
    match m !! c with
    | Some child =>
      child' <- add_walk cs' (S i) position object child ;;
      Ok (VMap (<[c := child']> m))
    | None =>
      match m !! qmark with
      | Some _ =>
        child' <- add_walk cs' (S i) position object newNode ;;
        Ok (VMap (<[c := child']> m))
      | None => add_here m (substr position i) object
      end
    end
  end.

(** [add(position, object)] *)
Definition add (t : PrefixTree V) (position : jsstring) (object : V)
  : outcome (PrefixTree V) :=
  root <- add_walk (codePoints position) 0 position object (root_ t) ;;
  Ok {| root_ := root |}.

(** The loop of [get(value)]. *)
Fixpoint get_walk (cs : list jsstring) (node : value V) (result : list (jsstring * V))
  : outcome (list (jsstring * V)) :=
  match cs with
  | [] => Ok result
  | c :: cs' =>
    m <- asMap node ;;
    match m !! c with
    | Some child =>
      cm <- asMap child ;;
      bucket <- asArray (cm !! dash) ;;
      get_walk cs' child (result ++ bucket)
    | None => Ok result
    end
  end.

(** [get(value)] *)
Definition get (t : PrefixTree V) (value : jsstring) : outcome (list V) :=
  m <- asMap (root_ t) ;;
  result <- asArray (m !! dash) ;;
  r <- get_walk (codePoints value) (root_ t) result ;;
  Ok (map snd r).

(** A sequence of insertions, from the left. *)
Fixpoint add_all (ops : list (jsstring * V)) (t : PrefixTree V) : outcome (PrefixTree V) :=
  match ops with
  | [] => Ok t
  | (position, object) :: ops' => t' <- add t position object ;; add_all ops' t'
  end.

End Methods.
End PrefixTree.

(** ** AbbrevIso.js *)

Module AbbrevIso.
Import Collation PrefixTree.

(** [Array.prototype.sort(comparefn)]: a stable sort; an element goes
    before the elements it does not compare greater than. *)
Section Sort.
Context {A : Type} (comparefn : A → A → Z).

Fixpoint insertSorted (x : A) (l : list A) : list A :=
  match l with
  | [] => [x]
  | y :: l' => if (comparefn x y <=? 0)%Z then x :: l else y :: insertSorted x l'
  end.

Definition sort (l : list A) : list A := foldr insertSorted [] l.
End Sort.

(** The comparison of [sort()] without an argument: by the code units of
    the string forms. *)
Fixpoint compareStrings (s t : jsstring) : Z :=
  match s, t with
  | [], [] => 0
  | [], _ :: _ => -1
  | _ :: _, [] => 1
  | a :: s', b :: t' =>
    if (a <? b)%N then -1 else if (b <? a)%N then 1 else compareStrings s' t'
  end.

(** An object of the class LTWAPattern; [self] stands for the identity of
    the object, which [!==] compares. *)
Record LTWAPattern := {
  self : nat;
  pattern : jsstring;
  replacement : jsstring;
  languages : list jsstring;
  startDash : bool;
  endDash : bool;
  line : jsstring;
}.

(** [toString()] *)
Definition toString (x : LTWAPattern) : jsstring :=
  str "[object LTWAPattern: " ++ line x ++ str "]".

(** A match reported by [getPatternMatches]: the Array
    [[i, iend, abbr, pattern, appendix]]. *)
Record Match := {
  m_i : nat;
  m_iend : nat;
  m_abbr : jsstring;
  m_pattern : LTWAPattern;
  m_appendix : jsstring;
}.

(** The Arrays of patterns that are shared and updated in place live in a
    store; a reference is an index into it. *)
Abbreviation heap := (list (list LTWAPattern)).
Definition M (A : Type) : Type := heap → outcome (A * heap).

Definition ret {A} (a : A) : M A := λ h, Ok (a, h).
Definition mbind {A B} (c : M A) (k : A → M B) : M B :=
  λ h, match c h with
       | Ok (a, h') => k a h'
       | Throw e => Throw e
       end.
Definition lift {A} (c : outcome A) : M A :=
  λ h, match c with
       | Ok a => Ok (a, h)
       | Throw e => Throw e
       end.
(** A new Array with the given elements. *)
Definition alloc (l : list LTWAPattern) : M nat := λ h, Ok (length h, h ++ [l]).
Definition read (r : nat) : M (list LTWAPattern) :=
  λ h, match h !! r with
       | Some l => Ok (l, h)
       | None => Throw TypeError
       end.
Definition write (r : nat) (l : list LTWAPattern) : M unit :=
  λ h, Ok ((), <[r := l]> h).

Notation "x <~ c ;; k" := (mbind c (fun x => k))
  (at level 20, c at level 99, k at level 200, only parsing).

(** The engine: [badPatterns_] is a reference to its Array. *)
Record AbbrevIso := {
  badPatterns_ : nat;
  nonprefixPatterns_ : PrefixTree LTWAPattern;
  dictPatterns_ : PrefixTree LTWAPattern;
  size_ : nat;
  shortWords_ : list jsstring;
}.

(** The argument [ltwa] or [shortWords] of the constructor: a string or an
    Array of strings. *)
Inductive lines :=
| Text (s : jsstring)
| Lines (l : list jsstring).

Definition letters : list (N * N) := [range "A" "Z"; range "a" "z"].
Definition capitals : list (N * N) := [range "A" "Z"].
Definition digits : list (N * N) := [range "0" "9"].
Definition space : regex := Class false whiteSpace.

(** The [boundariesRegex] local to [makeAbbreviation]: that of collation.js
    without [+ & ?]. *)
Definition titleBoundaries : list (N * N) :=
  one "-" :: whiteSpace ++
  [(0x2013, 0x2013); (0x2014, 0x2014); one "_"; one "."; one ","; one ":"; one ";";
   one "!"; one "|"; one "="; one "*"; one "\"; one "/"; (34, 34); one "(";
   one ")"; one "#"; one "%"; one "@"; one "$"]%N.
(** Its source text, and the two values of the argument [before] of
    [removeShortWords]. *)
Definition titleBoundaries_source : jsstring :=
  str "[-\s\u2013\u2014_.,:;!|=*\\/" ++ [34%N] ++ str "()#%@$]".
Definition beforeOrStart : jsstring := str "(^|" ++ titleBoundaries_source ++ str ")".
Definition beforeOnly : jsstring := str "(" ++ titleBoundaries_source ++ str ")".

Definition articles : list jsstring :=
  str <$> ["a"; "an"; "the"; "der"; "die"; "das"; "den"; "dem"; "des"; "le"; "la";
           "les"; "el"; "il"; "lo"; "los"; "de"; "het"; "els"; "ses"; "es"; "gli";
           "een"; "'t"; "'n"]%string.

(** The pattern [ending] of [getPatternMatches]:
    [^([iaesn'’]{0,3})($|B)] with [B] the boundaries of collation.js. *)
Definition ending : regex :=
  seq [Bol;
       Group 1 (Repeat 0 (Some 3)
                  (Class false [one "i"; one "a"; one "e"; one "s"; one "n"; one "'";
                                (0x2019, 0x2019)%N]));
       Group 2 (Alt Eol boundariesRegex)].

(** The patterns of the punctuation rules of [makeAbbreviation], in order. *)
Definition acronymPeriod : regex :=
  Seq (Group 1 (seq [Group 2 (Alt Bol (Class false
                        (capitals ++ [one ","; one "."; one "&"; one "-"; one "\"; one "/"])));
                     Repeat 0 (Some 1) space;
                     Class false capitals]))
      (Char (chr ",")).
Definition initialPeriod : regex :=
  Seq (Group 1 (Seq space (Class false capitals))) (Char (chr ",")).
Definition innerPeriod : regex :=
  seq [Group 1 (Class false letters); Char (chr ","); Group 2 (Class false letters)].
Definition ordinalPeriod : regex :=
  Seq (Group 1 (Seq (Class false (whiteSpace ++
                       [one "-"; one ":"; one ","; one "&"; one "#"; one "("; one ")";
                        one "\"; one "/"]))
                    (Repeat 1 (Some 3) (Class false digits))))
      (Char (chr ",")).
Definition honorificPeriod : regex :=
  Seq (Group 1 (Seq (Group 2 (Alt Bol space))
                    (Group 3 (alt (literal ∘ str <$>
                       ["St"; "Mr"; "Ms"; "Mrs"; "Mx"; "Dr"; "Prof"; "vs"]%string)))))
      (Char (chr ",")).
Definition ampersand : regex :=
  seq [Group 1 (Class true (capitals ++ digits));
       Class false [one "&"; one "+"];
       Group 2 (Class true (capitals ++ digits))].

(** The pattern of the generic terms that separate dependent titles.  The
    source spells the last one with a combining acute accent: S, e, U+0301,
    r, i, e. *)
Definition separator : regex :=
  seq [Group 1 (alt (literal <$>
         [str "Series"; str "Serie"; str "Ser"; str "Part"; str "Section"; str "Sect";
          str "Sec"; str "Se" ++ [0x301%N] ++ str "rie"]));
       Repeat 0 (Some 1) (Class false [one ","; one "."]);
       Repeat 0 None space;
       Group 2 (Alt (Class false capitals)
                    (Repeat 1 None (Class false
                       (digits ++ [one "I"; one "V"; one "X"; one "i"; one "v"; one "x"]))));
       Group 3 (Alt boundariesRegex Eol)].

(** The pattern of the French articles. *)
Definition elidedArticle : regex :=
  seq [Group 1 (Group 2 (Alt Bol boundariesRegex));
       Group 3 (alt (literal ∘ str <$> ["l"; "L"; "d"; "D"; "dell"; "nell"]%string));
       Group 4 (Alt (Char (chr "'")) (Char 0x2019))].

(** The pattern of the single word test: [.B.] *)
Definition twoWords : regex := seq [Any; boundariesRegex; Any].

Section Methods.
Context `{Host}.

(** The pattern of a record, from its first field: the form NFC,
    trimmed, without the comment in parentheses ([/\(.*\)/]), trimmed. *)
Definition patternOf (field : jsstring) : jsstring :=
  let p := trim (normalize_NFC field) in
  trim (replaceFirst false (seq [Char (chr "("); Repeat 0 None Any; Char (chr ")")]) [] p).

(** [new LTWAPattern(line)] *)
Definition LTWAPattern_new (self : nat) (line : jsstring) : outcome LTWAPattern :=
  let a := splitChar 9 line in
  if negb (length a =? 3) then
    Throw (Error (str "Number of fields in LTWA line is not 3: " ++ [34%N] ++ line ++ [34%N]))
  else
    let p := patternOf (a !!! 0) in
    if length p <? 3 then
      Throw (Error (str "LTWA line has too short pattern: " ++ [34%N] ++ line ++ [34%N]))
    else
      let replacement := trim (normalize_NFC (a !!! 1)) in
      let replacement :=
        if bool_decide (replacement ∈ [str "n.a."; str "n. a."; str "n.a"])
        then [0x2013%N] else replacement in
      Ok {| self := self;
            pattern := p;
            replacement := replacement;
            languages := trim <$> splitChar (chr ",") (a !!! 2);
            startDash := bool_decide (charAt p 0 = str "-");
            endDash := bool_decide (charAt p (length p - 1) = str "-");
            line := line |}.

(** The removal of one leading and one trailing dash: [/^-/], [/-$/]. *)
Definition leadingDash : regex := Seq Bol (Char (chr "-")).
Definition trailingDash : regex := Seq (Char (chr "-")) Eol.

(** [addPattern(pattern)] *)
Definition addPattern (e : AbbrevIso) (pattern : LTWAPattern) : M AbbrevIso :=
  let p := AbbrevIso.pattern pattern in
  let p := replaceFirst false leadingDash [] p in
  let p := replaceFirst false trailingDash [] p in
  let p := normalize p in
  _ <~ (if negb (test true (Seq Bol (Class false letters)) p)
        then bad <~ read (badPatterns_ e) ;; write (badPatterns_ e) (bad ++ [pattern])
        else ret ()) ;;
  let p := promiscuouslyNormalize p in
  if startDash pattern then
    t <~ lift (add (nonprefixPatterns_ e) p pattern) ;;
    ret {| badPatterns_ := badPatterns_ e; nonprefixPatterns_ := t;
           dictPatterns_ := dictPatterns_ e; size_ := S (size_ e);
           shortWords_ := shortWords_ e |}
  else
    t <~ lift (add (dictPatterns_ e) p pattern) ;;
    ret {| badPatterns_ := badPatterns_ e; nonprefixPatterns_ := nonprefixPatterns_ e;
           dictPatterns_ := t; size_ := S (size_ e);
           shortWords_ := shortWords_ e |}.

Definition toArray (x : lines) : list jsstring :=
  match x with
  | Text s => split false newlineRegex s
  | Lines l => l
  end.

(** The loop of the constructor over the lines after the header. *)
Fixpoint addLines (e : AbbrevIso) (ltwa : list jsstring) : M AbbrevIso :=
  match ltwa with
  | [] => ret e
  | line :: ltwa' =>
    if length (trim line) =? 0 then addLines e ltwa'
    else
      pattern <~ lift (LTWAPattern_new (size_ e) line) ;;
      e' <~ addPattern e pattern ;;
      addLines e' ltwa'
  end.

(** [new AbbrevIso(ltwa, shortWords)] *)
Definition new (ltwa shortWords : lines) : M AbbrevIso :=
  bad <~ alloc [] ;;
  let e := {| badPatterns_ := bad; nonprefixPatterns_ := PrefixTree.new;
              dictPatterns_ := PrefixTree.new; size_ := 0; shortWords_ := [] |} in
  e <~ addLines e (tail (toArray ltwa)) ;;
  let shortWords := trim <$> toArray shortWords in
  ret {| badPatterns_ := badPatterns_ e; nonprefixPatterns_ := nonprefixPatterns_ e;
         dictPatterns_ := dictPatterns_ e; size_ := size_ e;
         shortWords_ := List.filter (λ s, 0 <? length s) shortWords |}.

(** [get size()] *)
Definition size (e : AbbrevIso) : nat := size_ e.

(** The loop of [getPotentialPatterns] over [s] from index [i] on;
    [result] is a reference. *)
Fixpoint getPotentialPatterns_loop (e : AbbrevIso) (pretendDash : bool)
    (s : jsstring) (isNewWord : bool) (result : nat) : M nat :=
  match s with
  | [] => ret result
  | c :: s' =>
    if negb (test false (Class false letters) [c])
    then getPotentialPatterns_loop e pretendDash s' true result
    else
      result <~ (if isNewWord || pretendDash then
                   found <~ lift (get (dictPatterns_ e) s) ;;
                   old <~ read result ;;
                   alloc (old ++ found)
                 else ret result) ;;
      found <~ lift (get (nonprefixPatterns_ e) s) ;;
      old <~ read result ;;
      result <~ alloc (old ++ found) ;;
      getPotentialPatterns_loop e pretendDash s' false result
  end.

(** [result.filter((x, i, res) => !i || x !== res[i-1])] *)
Fixpoint dropRepeated (previous : option LTWAPattern) (l : list LTWAPattern)
  : list LTWAPattern :=
  match l with
  | [] => []
  | x :: l' =>
    match previous with
    | Some y => if self x =? self y then dropRepeated (Some x) l'
                else x :: dropRepeated (Some x) l'
    | None => x :: dropRepeated (Some x) l'
    end
  end.

(** [getPotentialPatterns(s, pretendDash)] *)
Definition getPotentialPatterns (e : AbbrevIso) (s : jsstring) (pretendDash : bool)
  : M (list LTWAPattern) :=
  let result := badPatterns_ e in
  let s := promiscuouslyNormalize s in
  result <~ getPotentialPatterns_loop e pretendDash s true result ;;
  elements <~ read result ;;
  _ <~ write result (sort (λ x y, compareStrings (toString x) (toString y)) elements) ;;
  elements <~ read result ;;
  ret (dropRepeated None elements).

Definition isBoundary (c : N) : bool := test false boundariesRegex [c].

(** The inner [while] of [getPatternMatches]: [r1] is [r[1]] from index
    [ii] on.  Reading past the end of [r] is a TypeError. *)
Fixpoint skipUnmatched (r0 : list jsstring) (rj : jsstring) (rj1 : option jsstring)
    (r1 : list jsstring) (ii iend : nat) : outcome (nat * nat) :=
  match r1 with
  | [] => Throw TypeError
  | x :: r1' =>
    if negb (cEquiv x rj) &&
       match rj1 with
       | Some y => negb (cEquiv x (rj ++ y))
       | None => true
       end
    then
      match r0 !! S ii with
      | Some x0 => skipUnmatched r0 rj rj1 r1' (S ii) (iend + length x0)
      | None => Throw TypeError
      end
    else Ok (ii, iend)
  end.

(** The [for] loop over [replacement] from index [j] on. *)
Fixpoint walkReplacement (r0 r1 : list jsstring) (replacement : list jsstring)
    (ii iend : nat) (abbr : jsstring) : outcome (nat * nat * jsstring) :=
  match replacement with
  | [] => Ok (ii, iend, abbr)
  | rj :: replacement' =>
    if bool_decide (rj = str ".") then
      walkReplacement r0 r1 replacement' ii iend (abbr ++ str ".")
    else
      ' (ii, iend) <- skipUnmatched r0 rj (head replacement') (drop ii r1) ii iend ;;
      let abbr := abbr ++ default (str "undefined") (r0 !! ii) in
      let iend := match r0 !! S ii with
                  | Some x0 => iend + length x0
                  | None => iend
                  end in
      if cEquiv (default [] (r1 !! ii)) rj then
        walkReplacement r0 r1 replacement' (S ii) iend abbr
      else
        match replacement' with
        | _ :: replacement'' => walkReplacement r0 r1 replacement'' (S ii) iend abbr
        | [] => Ok (S ii, iend, abbr)
        end
  end.

(** The code units up to the next boundary. *)
Fixpoint untilBoundary (s : jsstring) : nat :=
  match s with
  | [] => 0
  | c :: s' => if isBoundary c then 0 else S (untilBoundary s')
  end.

(** The loop of [getPatternMatches] over [value] from index [i] on. *)
Fixpoint getPatternMatches_loop (value : jsstring) (pattern : LTWAPattern)
    (pretendDash : bool) (p : jsstring) (replacement : list jsstring)
    (rest : jsstring) (i : nat) (isPreviousCharBoundary : bool)
  : outcome (list Match) :=
  match rest with
  | [] => Ok []
  | c :: rest' =>
    let continue :=
      getPatternMatches_loop value pattern pretendDash p replacement rest' (S i)
        (isBoundary c) in
    if negb (startDash pattern) && negb pretendDash && negb isPreviousCharBoundary
    then continue
    else
      match getCollatingMatch rest p with
      | None => continue
      | Some (r0, r1) =>
        match r0 !! 0 with
        | None => Throw TypeError
        | Some x0 =>
          ' (ii, iend, abbr) <- walkReplacement r0 r1 replacement 0 (i + length x0) [] ;;
          let iend := iend + sum_list (length <$> drop (S ii) r0) in
          let report iend appendix :=
            let abbr := if bool_decide (replacement = [])
                        then substring value i iend else abbr in
            found <- continue ;;
            Ok ({| m_i := i; m_iend := iend; m_abbr := abbr; m_pattern := pattern;
                   m_appendix := appendix |} :: found) in
          if endDash pattern || pretendDash then
            report (iend + untilBoundary (substr value iend)) []
          else
            match search true ending 0 (substr value iend) with
            | Some (_, st) =>
              let appendix := default [] (caps st !! 1) in
              report (iend + length appendix) appendix
            | None => continue
            end
        end
      end
  end.

(** [getPatternMatches(value, pattern, languages, pretendDash)];
    [languages] is [None] for [undefined]. *)
Definition getPatternMatches (value : jsstring) (pattern : LTWAPattern)
    (languages : option (list jsstring)) (pretendDash : bool) : outcome (list Match) :=
  let languages := default [str "*"] languages in
  if negb (bool_decide (str "*" ∈ languages)) &&
     negb (existsb (λ x, bool_decide (x ∈ languages)) (AbbrevIso.languages pattern))
  then Ok []
  else
    let replacement := AbbrevIso.replacement pattern in
    let replacement := if bool_decide (replacement = [0x2013%N]) then [] else replacement in
    let p := AbbrevIso.pattern pattern in
    let dashed := startDash pattern || pretendDash in
    let p := if dashed then replaceFirst false leadingDash [] p else p in
    let replacement :=
      if dashed then replaceFirst false leadingDash [] replacement else replacement in
    let p := if endDash pattern || pretendDash
             then replaceFirst false trailingDash [] p else p in
    getPatternMatches_loop value pattern pretendDash p (codePoints replacement)
      value 0 true.

(** The matches of all the patterns, one after the other. *)
Fixpoint allMatches (value : jsstring) (patterns : list LTWAPattern)
    (languages : option (list jsstring)) (pretendDash : bool) : outcome (list Match) :=
  match patterns with
  | [] => Ok []
  | pattern :: patterns' =>
    found <- getPatternMatches value pattern languages pretendDash ;;
    more <- allMatches value patterns' languages pretendDash ;;
    Ok (found ++ more)
  end.

(** [getMatchingPatterns(value, languages, pretendDash, patterns)] *)
Definition getMatchingPatterns (e : AbbrevIso) (value : jsstring)
    (languages : option (list jsstring)) (pretendDash : bool)
    (patterns : option (list LTWAPattern)) : M (list LTWAPattern) :=
  patterns <~ match patterns with
              | Some given => ret given
              | None => getPotentialPatterns e value pretendDash
              end ;;
  let value := trim (normalize_NFC value) in
  matches <~ lift (allMatches value patterns languages pretendDash) ;;
  ret (m_pattern <$> sort (λ a b, Z.of_nat (m_i a) - Z.of_nat (m_i b))%Z matches).

(** [removeShortWords(s, shortWords, before)]: the loop over [wordList]. *)
Fixpoint removeWords (s : jsstring) (wordList : list jsstring) (before : jsstring)
  : outcome jsstring :=
  match wordList with
  | [] => Ok s
  | word :: wordList' =>
    r <- RegExp_gu (before ++ word ++ str "\s") ;;
    removeWords (replaceAll true r [TGroup 1] s) wordList' before
  end.

Definition removeShortWords (s : jsstring) (shortWords : list jsstring) (before : jsstring)
  : outcome jsstring :=
  let wordList :=
    shortWords ++ ((λ s, toUpperCase (charAt s 0) ++ substr s 1) <$> shortWords) in
  removeWords s wordList before.

(** [makeAbbreviation], the punctuation rules: from the NFC form to the
    removal of [&] and [+]. *)
Definition normalizePunctuation (value : jsstring) : jsstring :=
  let result := trim (normalize_NFC value) in
  let result := replaceAll true (literal (str "...")) [] result in
  let result := replaceAll true (Char 0x2026) [] result in
  let result := replaceAll true (Char (chr ",")) [] result in
  let result := replaceAll true (Char (chr ".")) [TLit (str ",")] result in
  let result := replaceAll true acronymPeriod [TGroup 1; TLit (str ".")] result in
  let result := replaceAll true acronymPeriod [TGroup 1; TLit (str ".")] result in
  let result := replaceAll true initialPeriod [TGroup 1; TLit (str ".")] result in
  let result := replaceAll true innerPeriod [TGroup 1; TLit (str "."); TGroup 2] result in
  let result := replaceAll true ordinalPeriod [TGroup 1; TLit (str ".")] result in
  let result := replaceAll true honorificPeriod [TGroup 1; TLit (str ".")] result in
  let result := replaceAll true (seq [Bol; Char (chr "J"); Char (chr ",")])
                  [TLit (str "J.")] result in
  replaceAll true ampersand [TGroup 1; TGroup 2] result.

(** The generic terms separating dependent titles are left out. *)
Definition omitSeparators (result : jsstring) : jsstring :=
  replaceAll true separator [TGroup 2; TGroup 3] result.

(** The articles are left out. *)
Definition omitArticles (result : jsstring) : outcome jsstring :=
  result <- removeShortWords result articles beforeOrStart ;;
  Ok (replaceAll true elidedArticle [TGroup 1] result).

(** [s.replace(/\s+/gu, ' ').trim()] *)
Definition collapseSpaces (s : jsstring) : jsstring :=
  trim (replaceAll true (Repeat 1 None space) [TLit (str " ")] s).

(** [getPriority] *)
Definition getPriority (m : Match) : Z :=
  ((if startDash (m_pattern m) then 100 else 0)
   + (if endDash (m_pattern m) then 3 else 0)
   + Z.of_nat (length (m_appendix m))
   - (Z.of_nat (m_iend m) - Z.of_nat (m_i m) - Z.of_nat (length (m_appendix m)))
   - Z.of_nat (length (pattern (m_pattern m))))%Z.

(** [matches[j][1] > matches[k][0] && matches[k][1] > matches[j][0]] *)
Definition overlaps (mj mk : Match) : bool :=
  (m_i mk <? m_iend mj) && (m_i mj <? m_iend mk).

(** The inner loop over [k]: the later matches that overlap [matches[j]]
    are spliced out. *)
Fixpoint dropOverlapping (mj : Match) (later : list Match) : list Match :=
  match later with
  | [] => []
  | mk :: later' =>
    if overlaps mj mk then dropOverlapping mj later'
    else mk :: dropOverlapping mj later'
  end.

(** The outer loop over [j], on the matches from index [j] on; [fuel] is
    their number, which no run exceeds. *)
Fixpoint resolveOverlaps_loop (fuel : nat) (matches : list Match) : list Match :=
  match fuel, matches with
  | S fuel', mj :: later => mj :: resolveOverlaps_loop fuel' (dropOverlapping mj later)
  | _, _ => matches
  end.

Definition resolveOverlaps (matches : list Match) : list Match :=
  resolveOverlaps_loop (length matches) matches.

(** One step of the loop that applies the matches. *)
Definition applyMatch (result : jsstring) (m : Match) : jsstring :=
  if length (m_abbr m) <? m_iend m - m_i m
  then substring result 0 (m_i m) ++ m_abbr m ++ substr result (m_iend m)
  else result.

(** The matches that survive, in the order they are applied. *)
Definition selectMatches (matches : list Match) : list Match :=
  let matches := sort (λ a b, getPriority a - getPriority b)%Z matches in
  let matches := resolveOverlaps matches in
  sort (λ a b, Z.of_nat (m_i b) - Z.of_nat (m_i a))%Z matches.

(** [makeAbbreviation] once [patterns] is known. *)
Definition abbreviate (e : AbbrevIso) (value : jsstring)
    (languages : option (list jsstring)) (patterns : list LTWAPattern) : outcome jsstring :=
  let result := normalizePunctuation value in
  let result := omitSeparators result in
  result <- omitArticles result ;;
  preResult <- removeShortWords result (shortWords_ e) beforeOrStart ;;
  if negb (test true twoWords preResult) then Ok (collapseSpaces result)
  else
    matches <- allMatches result patterns languages false ;;
    let result := foldl applyMatch result (selectMatches matches) in
    result <- removeShortWords result (shortWords_ e) beforeOnly ;;
    Ok (collapseSpaces result).

(** [makeAbbreviation(value, languages, patterns)] *)
Definition makeAbbreviation (e : AbbrevIso) (value : jsstring)
    (languages : option (list jsstring)) (patterns : option (list LTWAPattern))
  : M jsstring :=
  patterns <~ match patterns with
              | Some given => ret given
              | None => getPotentialPatterns e value false
              end ;;
  lift (abbreviate e value languages patterns).

End Methods.
End AbbrevIso.

(** ** The host on Basic Latin

    An instance of [Host] to run the library on titles and word lists in
    Basic Latin: there the normal forms are the string itself and the case
    mappings move between [a-z] and [A-Z].  Its RegExp constructor reads the
    sources [removeShortWords] builds from a word without syntax characters;
    for any other source it answers SyntaxError, which need not be what a
    host does. *)

Module BasicLatin.
Import AbbrevIso.

Definition lower (c : N) : N := if ((65 <=? c) && (c <=? 90))%N then (c + 32)%N else c.
Definition upper (c : N) : N := if ((97 <=? c) && (c <=? 122))%N then (c - 32)%N else c.

Definition syntaxCharacters : list N :=
  chr <$> ["\"; "^"; "$"; "."; "*"; "+"; "?"; "("; ")"; "["; "]"; "{"; "}"; "|"; "/"]%string.
Definition plainWord (w : jsstring) : bool :=
  forallb (λ c, negb (bool_decide (c ∈ syntaxCharacters))) w.

Definition stripPrefix (p s : jsstring) : option jsstring :=
  if bool_decide (take (length p) s = p) then Some (drop (length p) s) else None.
Definition stripSuffix (p s : jsstring) : option jsstring :=
  reverse <$> stripPrefix (reverse p) (reverse s).

Definition wordPattern (source : jsstring) : outcome regex :=
  match stripSuffix (str "\s") source with
  | None => Throw SyntaxError
  | Some body =>
    match stripPrefix beforeOrStart body with
    | Some w =>
      if plainWord w
      then Ok (seq [Group 1 (Alt Bol (Class false titleBoundaries)); literal w; space])
      else Throw SyntaxError
    | None =>
      match stripPrefix beforeOnly body with
      | Some w =>
        if plainWord w
        then Ok (seq [Group 1 (Class false titleBoundaries); literal w; space])
        else Throw SyntaxError
      | None => Throw SyntaxError
      end
    end
  end.

Definition host : Host := {|
  normalize_NFC := id;
  normalize_NFKD := id;
  toLowerCase := fmap lower;
  toUpperCase := fmap upper;
  RegExp_gu := wordPattern;
|}.

End BasicLatin.

(** * Properties of the prefix tree *)

Module PrefixTreeFacts.
Import PrefixTree.

(** Code units the class documentation allows in a position ("the string
    should not contain characters '-' nor '?'") and that are a code point
    of their own. *)
Definition cleanChar (c : N) : bool :=
  negb (c =? 45)%N && negb (c =? 63)%N && negb (isSurrogate c).

Definition clean (s : jsstring) : bool := forallb cleanChar s.

Lemma cleanChar_dash c : cleanChar c = true → [c] ≠ dash.
Proof.
  unfold cleanChar, dash. cbn. intros H [= ->]. discriminate H.
Qed.

Lemma cleanChar_qmark c : cleanChar c = true → [c] ≠ qmark.
Proof.
  unfold cleanChar, qmark. cbn. intros H [= ->]. discriminate H.
Qed.

Lemma cleanChar_high c : cleanChar c = true → isHighSurrogate c = false.
Proof.
  unfold cleanChar, isSurrogate. intros H.
  destruct (isHighSurrogate c); [|done].
  rewrite !andb_true_iff in H. destruct H as [_ H]. discriminate H.
Qed.

Lemma dash_qmark : dash ≠ qmark.
Proof. discriminate. Qed.

(** On such strings the iterator yields the code units one by one. *)
Lemma codePoints_clean s : clean s = true → codePoints s = (λ c, [c]) <$> s.
Proof.
  induction s as [|a s IH]; [done|].
  cbn [clean forallb]. rewrite andb_true_iff. intros [Ha Hs].
  cbn [codePoints fmap list_fmap]. destruct s as [|b s'].
  - done.
  - rewrite (cleanChar_high a Ha). cbn [andb]. f_equal. by apply IH.
Qed.

Section Correctness.
Context {V : Type}.
Implicit Types (m cm : gmap jsstring (value V)) (n child : value V).
Implicit Types (b : list (jsstring * V)) (k s : jsstring) (v : V).

(** The shape of a node built by [add] from clean positions. *)
Inductive wf : value V → Prop :=
| wf_node m b :
    m !! dash = Some (VArray b) →
    (m !! qmark = None ∨ m !! qmark = Some VTrue) →
    Forall (λ e, clean e.1 = true) b →
    (∀ key child, m !! key = Some child → key ≠ dash → key ≠ qmark → wf child) →
    wf (VMap m).

(** [stored n k v]: the object [v] sits in a bucket of the subtree [n], at
    the end of a path that spells a prefix of [k], next to what is left
    of [k]. *)
Inductive stored : value V → jsstring → V → Prop :=
| stored_here m b k v :
    m !! dash = Some (VArray b) → (k, v) ∈ b → stored (VMap m) k v
| stored_child m c child k v :
    m !! [c] = Some child → stored child k v → stored (VMap m) (c :: k) v.

Lemma wf_newNode : wf (@newNode V).
Proof.
  unfold newNode. eapply wf_node.
  - apply lookup_singleton_eq.
  - left. apply lookup_singleton_ne. apply dash_qmark.
  - constructor.
  - intros key child H Hd _. apply lookup_singleton_Some in H as [? _]. congruence.
Qed.

Lemma wf_child m c child :
  wf (VMap m) → cleanChar c = true → m !! [c] = Some child → wf child.
Proof.
  intros Hwf Hc Hl. inversion Hwf as [? b Hb Hq Hcl Hch]; subst.
  eapply Hch; eauto using cleanChar_dash, cleanChar_qmark.
Qed.

Lemma wf_inv n : wf n → ∃ m b, n = VMap m ∧ m !! dash = Some (VArray b).
Proof. destruct 1; eauto. Qed.

(** Replacing the child under a character keeps the node well formed. *)
Lemma wf_set_child m c child :
  wf (VMap m) → cleanChar c = true → wf child → wf (VMap (<[ [c] := child ]> m)).
Proof.
  intros Hwf Hc Hchild. inversion Hwf as [? b Hb Hq Hcl Hch]; subst.
  eapply wf_node with (b := b).
  - rewrite lookup_insert_ne; [done|]. by apply cleanChar_dash.
  - rewrite lookup_insert_ne; [done|]. by apply cleanChar_qmark.
  - done.
  - intros key child' Hl Hd Hqm. destruct (decide (key = [c])) as [->|Hne].
    + rewrite lookup_insert_eq in Hl. by inversion Hl; subst.
    + rewrite lookup_insert_ne in Hl; [|done]. eauto.
Qed.

(** Appending to the bucket keeps the node well formed. *)
Lemma wf_push m b k v :
  wf (VMap m) → m !! dash = Some (VArray b) → clean k = true →
  wf (VMap (<[ dash := VArray (b ++ [(k, v)]) ]> m)).
Proof.
  intros Hwf Hb Hk. inversion Hwf as [? b' Hb' Hq Hcl Hch]; subst.
  assert (b' = b) as -> by congruence.
  eapply wf_node.
  - apply lookup_insert_eq.
  - rewrite lookup_insert_ne; [done|]. apply dash_qmark.
  - apply Forall_app. split; [done|]. by repeat constructor.
  - intros key child Hl Hd Hqm. rewrite lookup_insert_ne in Hl; [|done]. eauto.
Qed.

Lemma stored_push m b k0 v0 k v :
  m !! dash = Some (VArray b) → stored (VMap m) k v →
  stored (VMap (<[ dash := VArray (b ++ [(k0, v0)]) ]> m)) k v.
Proof.
  intros Hb Hs. inversion Hs as [? b' ? ? Hb' Hin|? c child ? ? Hl Hc]; subst.
  - assert (b' = b) as -> by congruence.
    eapply stored_here; [apply lookup_insert_eq|]. set_solver.
  - eapply stored_child; [|done].
    rewrite lookup_insert_ne; [done|].
    intros Heq. assert (child = VArray b) as ->.
    { rewrite <- Heq in Hl. congruence. }
    inversion Hc.
Qed.

Lemma stored_pushed m b k v :
  stored (VMap (<[ dash := VArray (b ++ [(k, v)]) ]> m)) k v.
Proof. eapply stored_here; [apply lookup_insert_eq|]. set_solver. Qed.

Lemma stored_set_child m c child child' k v :
  m !! [c] = Some child ∨ m !! [c] = None →
  [c] ≠ dash →
  (∀ k' v', stored child k' v' → stored child' k' v') →
  stored (VMap m) k v → stored (VMap (<[ [c] := child' ]> m)) k v.
Proof.
  intros Hc Hd Hmono Hs.
  inversion Hs as [? b ? ? Hb Hin|? c' child0 ? ? Hl Hc']; subst.
  - eapply stored_here; [|done]. by rewrite lookup_insert_ne.
  - destruct (decide (c' = c)) as [->|Hne].
    + eapply stored_child; [apply lookup_insert_eq|].
      apply Hmono. destruct Hc as [Hc|Hc]; congruence.
    + eapply stored_child; [|done]. rewrite lookup_insert_ne; [done|congruence].
Qed.

(** What the subtrees below the characters of a Map hold. *)
Definition stored_below m k v : Prop :=
  ∃ c child k', k = c :: k' ∧ m !! [c] = Some child ∧ stored child k' v.

Lemma stored_cases m b k v :
  m !! dash = Some (VArray b) →
  stored (VMap m) k v ↔ (k, v) ∈ b ∨ stored_below m k v.
Proof.
  intros Hb. split.
  - intros Hs. inversion Hs as [? b' ? ? Hb' Hin|? c child ? ? Hl Hc]; subst.
    + left. congruence.
    + right. by exists c, child, k0.
  - intros [Hin|(c & child & k' & -> & Hl & Hs)].
    + by eapply stored_here.
    + by eapply stored_child.
Qed.

(** The loop of [splitNode] moves every entry with a character left into
    the bucket of the child under its first character, and loses none. *)
Lemma splitNode_loop_spec entries : ∀ m acc,
  wf (VMap m) →
  Forall (λ e, clean e.1 = true) entries →
  Forall (λ e, clean e.1 = true) acc →
  ∃ m' acc',
    splitNode_loop entries m acc = Ok (m', acc') ∧
    wf (VMap m') ∧
    Forall (λ e, clean e.1 = true) acc' ∧
    (∀ k v, (k, v) ∈ acc ∨ (k, v) ∈ entries ∨ stored_below m k v →
            (k, v) ∈ acc' ∨ stored_below m' k v).
Proof.
  induction entries as [|[position object] entries IH]; intros m acc Hwf He Hacc.
  - exists m, acc. cbn. split_and!; [done..|]. intros k v [?|[H|?]]; [by left| |by right].
    by apply elem_of_nil in H.
  - apply Forall_cons in He as [Hpos He]. cbn in Hpos.
    destruct position as [|c0 rest].
    + cbn [splitNode_loop].
      destruct (IH m (acc ++ [([], object)])) as (m' & acc' & Heq & Hwf' & Hacc' & Hkeep);
        [done|done| |].
      { apply Forall_app. split; [done|]. by repeat constructor. }
      exists m', acc'. split_and!; [done..|].
      intros k v [H|[H|H]]; apply Hkeep.
      * left. apply elem_of_app. by left.
      * apply elem_of_cons in H as [[= -> ->]|H]; [|by right; left].
        left. apply elem_of_app. right. by apply list_elem_of_singleton.
      * by right; right.
    + cbn [clean forallb] in Hpos. apply andb_true_iff in Hpos as [Hc0 Hrest].
      cbn [splitNode_loop].
      pose proof (cleanChar_dash c0 Hc0) as Hd.
      pose proof (cleanChar_qmark c0 Hc0) as Hq.
      set (m1 := if decide (is_Some (m !! [c0])) then m else <[ [c0] := newNode ]> m).
      assert (wf (VMap m1)) as Hwf1.
      { unfold m1. case_decide; [done|]. apply wf_set_child; auto using wf_newNode. }
      assert (∃ child, m1 !! [c0] = Some child ∧ wf child ∧
                (∀ k v, stored_below m k v → stored_below m1 k v)) as (child & Hl & Hwfc & Hm1).
      { unfold m1. case_decide as Hsome.
        - destruct Hsome as [child Hl]. exists child. split_and!; [done| |done].
          eapply wf_child; eauto.
        - exists newNode. split_and!; [apply lookup_insert_eq|apply wf_newNode|].
          intros k v (c & ch & k' & -> & Hl & Hs). exists c, ch, k'.
          split_and!; [done| |done]. rewrite lookup_insert_ne; [done|].
          intros [= ->]. apply Hsome. by exists ch. }
      rewrite Hl. cbn [getMap].
      destruct (wf_inv _ Hwfc) as (cm & cb & -> & Hcb). cbn [asMap JS.bind].
      rewrite Hcb. cbn [asArray JS.bind].
      set (child' := VMap (<[dash:=VArray (cb ++ [(rest, object)])]> cm)).
      destruct (IH (<[ [c0] := child' ]> m1) acc) as (m' & acc' & Heq & Hwf' & Hacc' & Hkeep);
        [|done|done|].
      { apply wf_set_child; [done|done|]. by apply wf_push. }
      exists m', acc'. split_and!; [done..|].
      intros k v H. apply Hkeep. destruct H as [H|[H|H]]; [by left|..].
      * apply elem_of_cons in H as [[= -> ->]|H]; [|by right; left].
        right; right. exists c0, child', rest. split_and!; [done|apply lookup_insert_eq|].
        apply stored_pushed.
      * right; right. apply Hm1 in H as (c & ch & k' & -> & Hlc & Hs).
        destruct (decide (c = c0)) as [->|Hne].
        -- exists c0, child', k'. split_and!; [done|apply lookup_insert_eq|].
           assert (ch = VMap cm) as -> by congruence. by apply stored_push.
        -- exists c, ch, k'. split_and!; [done| |done].
           rewrite lookup_insert_ne; [done|congruence].
Qed.

Lemma splitNode_spec n :
  wf n →
  ∃ n', splitNode n = Ok n' ∧ wf n' ∧ (∀ k v, stored n k v → stored n' k v).
Proof.
  intros Hwf. inversion Hwf as [m b Hb Hq Hcl Hch]; subst.
  unfold splitNode. cbn [asMap JS.bind]. rewrite Hb. cbn [asArray JS.bind].
  destruct (splitNode_loop_spec b m []) as (m' & acc' & Heq & Hwf' & Hacc' & Hkeep);
    [done|done|constructor|].
  rewrite Heq. cbn [JS.bind]. eexists. split; [done|].
  inversion Hwf' as [? b' Hb' Hq' Hcl' Hch']; subst.
  assert (wf (VMap (<[qmark:=VTrue]> (<[dash:=VArray acc']> m')))) as Hwf''.
  { eapply wf_node with (b := acc').
    - rewrite lookup_insert_ne; [|apply not_eq_sym, dash_qmark]. apply lookup_insert_eq.
    - right. apply lookup_insert_eq.
    - done.
    - intros key child Hl Hd Hqm. rewrite !lookup_insert_ne in Hl by done. eauto. }
  split; [done|].
  intros k v Hs. apply (stored_cases m b k v Hb) in Hs.
  destruct (Hkeep k v) as [Hin|(c & child & k' & -> & Hl & Hs')].
  { destruct Hs; [right; by left|by right; right]. }
  - eapply stored_here; [|done].
    rewrite lookup_insert_ne; [|apply not_eq_sym, dash_qmark]. apply lookup_insert_eq.
  - eapply stored_child; [|done].
    rewrite !lookup_insert_ne; [done| |].
    + intros Heq'. rewrite <- Heq' in Hl. rewrite Hb' in Hl. inversion Hl; subst. inversion Hs'.
    + intros Heq'. rewrite <- Heq' in Hl. destruct Hq' as [Hq'|Hq']; rewrite Hq' in Hl; [done|].
      inversion Hl; subst. inversion Hs'.
Qed.

Lemma add_here_spec m k v :
  wf (VMap m) → clean k = true →
  ∃ n', add_here m k v = Ok n' ∧ wf n' ∧ stored n' k v ∧
        (∀ k0 v0, stored (VMap m) k0 v0 → stored n' k0 v0).
Proof.
  intros Hwf Hk. destruct (wf_inv _ Hwf) as (m0 & b & [= <-] & Hb).
  unfold add_here. rewrite Hb. cbn [asArray JS.bind].
  pose proof (wf_push m b k v Hwf Hb Hk) as Hwf'.
  case_match.
  - destruct (splitNode_spec _ Hwf') as (n' & Heq & Hwf'' & Hkeep).
    exists n'. split_and!; [done|done|..].
    + apply Hkeep, stored_pushed.
    + intros k0 v0 Hs. by apply Hkeep, stored_push.
  - eexists. split_and!; [done|done|apply stored_pushed|].
    intros k0 v0 Hs. by apply stored_push.
Qed.

(** The walk of [add] for a clean position: [ks] is what is left to read
    of [position] after [i] code units. *)
Lemma add_walk_spec ks : ∀ i position v n,
  wf n → clean ks = true → substr position i = ks →
  ∃ n', add_walk ((λ c, [c]) <$> ks) i position v n = Ok n' ∧ wf n' ∧
        stored n' ks v ∧ (∀ k0 v0, stored n k0 v0 → stored n' k0 v0).
Proof.
  induction ks as [|c ks IH]; intros i position v n Hwf Hks Hdrop.
  - destruct (wf_inv _ Hwf) as (m & b & -> & Hb).
    cbn [fmap list_fmap add_walk asMap JS.bind]. rewrite Hdrop.
    by apply add_here_spec.
  - destruct (wf_inv _ Hwf) as (m & b & -> & Hb).
    cbn [clean forallb] in Hks. apply andb_true_iff in Hks as [Hc Hks].
    assert (substr position (S i) = ks) as Hdrop'.
    { unfold substr in *. rewrite <- (Nat.add_1_l i), Nat.add_comm, <- drop_drop, Hdrop. done. }
    cbn [fmap list_fmap add_walk asMap JS.bind].
    destruct (m !! [c]) as [child|] eqn:Hl.
    + destruct (IH (S i) position v child) as (child' & Heq & Hwf' & Hst & Hkeep);
        [by eapply wf_child|done|done|].
      fold (@fmap list _ _ _ (λ c, [c]) ks). rewrite Heq. cbn [JS.bind].
      eexists. split_and!; [done|by apply wf_set_child|..].
      * eapply stored_child; [apply lookup_insert_eq|done].
      * intros k0 v0 Hs. eapply stored_set_child; eauto using cleanChar_dash.
    + destruct (m !! qmark) as [flag|] eqn:Hq.
      * destruct (IH (S i) position v newNode) as (child' & Heq & Hwf' & Hst & Hkeep);
          [apply wf_newNode|done|done|].
        fold (@fmap list _ _ _ (λ c, [c]) ks). rewrite Heq. cbn [JS.bind].
        eexists. split_and!; [done|by apply wf_set_child|..].
        -- eapply stored_child; [apply lookup_insert_eq|done].
        -- intros k1 v1 Hs.
           eapply (stored_set_child m c newNode); eauto using cleanChar_dash.
      * rewrite Hdrop. apply add_here_spec; [done|].
        cbn [clean forallb]. by rewrite Hc, Hks.
Qed.

Lemma add_spec t k v :
  wf (root_ t) → clean k = true →
  ∃ t', add t k v = Ok t' ∧ wf (root_ t') ∧ stored (root_ t') k v ∧
        (∀ k0 v0, stored (root_ t) k0 v0 → stored (root_ t') k0 v0).
Proof.
  intros Hwf Hk. unfold add. rewrite (codePoints_clean k Hk).
  destruct (add_walk_spec k 0 k v (root_ t) Hwf Hk) as (n' & Heq & ? & ? & ?); [done|].
  rewrite Heq. cbn [JS.bind]. by eexists {| root_ := n' |}.
Qed.

Lemma add_all_spec ops : ∀ t,
  wf (root_ t) → Forall (λ e, clean e.1 = true) ops →
  ∃ t', add_all ops t = Ok t' ∧ wf (root_ t') ∧
        (∀ k v, (k, v) ∈ ops → stored (root_ t') k v) ∧
        (∀ k v, stored (root_ t) k v → stored (root_ t') k v).
Proof.
  induction ops as [|[k v] ops IH]; intros t Hwf Hops.
  - exists t. split_and!; [done|done| |done]. intros ? ? H. by apply elem_of_nil in H.
  - apply Forall_cons in Hops as [Hk Hops]. cbn in Hk.
    destruct (add_spec t k v Hwf Hk) as (t1 & Heq & Hwf1 & Hst & Hkeep).
    destruct (IH t1 Hwf1 Hops) as (t' & Heq' & Hwf' & Hall & Hkeep').
    exists t'. cbn [add_all]. rewrite Heq. cbn [JS.bind]. split_and!; [done|done|..].
    + intros k' v' Hin. apply elem_of_cons in Hin as [[= -> ->]|Hin]; eauto.
    + eauto.
Qed.

(** The walk of [get] along a clean string never throws and only appends. *)
Lemma get_walk_ok s : ∀ n acc,
  wf n → clean s = true →
  ∃ r, get_walk ((λ c, [c]) <$> s) n acc = Ok r ∧ acc `prefix_of` r.
Proof.
  induction s as [|c s IH]; intros n acc Hwf Hs.
  - exists acc. done.
  - cbn [clean forallb] in Hs. apply andb_true_iff in Hs as [Hc Hs].
    destruct (wf_inv _ Hwf) as (m & b & -> & Hb).
    cbn [fmap list_fmap get_walk asMap JS.bind].
    destruct (m !! [c]) as [child|] eqn:Hl; [|by exists acc].
    pose proof (wf_child m c child Hwf Hc Hl) as Hwfc.
    destruct (wf_inv _ Hwfc) as (cm & cb & -> & Hcb).
    cbn [asMap JS.bind]. rewrite Hcb. cbn [asArray JS.bind].
    destruct (IH (VMap cm) (acc ++ cb) Hwfc Hs) as (r & Heq & Hpre).
    exists r. split; [done|]. etrans; [|done]. by apply prefix_app_r.
Qed.

(** It passes the bucket of every node on the path of a stored key. *)
Lemma get_walk_stored n k v :
  stored n k v →
  ∀ s acc m b, n = VMap m → m !! dash = Some (VArray b) →
    wf n → k `prefix_of` s → clean s = true →
    ∃ r, get_walk ((λ c, [c]) <$> s) n (acc ++ b) = Ok r ∧ v ∈ r.*2.
Proof.
  induction 1 as [m b k v Hb Hin|m c child k v Hl Hs IH];
    intros s acc m0 b0 [= <-] Hb0 Hwf Hpre Hcl.
  - assert (b0 = b) as -> by congruence.
    destruct (get_walk_ok s (VMap m) (acc ++ b) Hwf Hcl) as (r & Heq & [r' ->]).
    exists ((acc ++ b) ++ r'). split; [done|].
    rewrite !fmap_app, !elem_of_app. left; right.
    apply list_elem_of_fmap. by exists (k, v).
  - destruct Hpre as [s' ->]. cbn [app clean forallb] in Hcl.
    apply andb_true_iff in Hcl as [Hc Hcl].
    cbn [app fmap list_fmap get_walk asMap JS.bind]. rewrite Hl.
    pose proof (wf_child m c child Hwf Hc Hl) as Hwfc.
    destruct (wf_inv _ Hwfc) as (cm & cb & -> & Hcb).
    cbn [asMap JS.bind]. rewrite Hcb. cbn [asArray JS.bind].
    eapply IH; [done|done|done| |done]. by exists s'.
Qed.

Lemma get_stored t k v s :
  wf (root_ t) → stored (root_ t) k v → k `prefix_of` s → clean s = true →
  ∃ r, get t s = Ok r ∧ v ∈ r.
Proof.
  intros Hwf Hs Hpre Hcl. destruct (wf_inv _ Hwf) as (m & b & Hroot & Hb).
  unfold get. rewrite Hroot in *. cbn [asMap JS.bind]. rewrite Hb. cbn [asArray JS.bind].
  rewrite (codePoints_clean s Hcl).
  destruct (get_walk_stored _ k v Hs s [] m b eq_refl Hb Hwf Hpre Hcl) as (r & Heq & Hin).
  cbn [app] in Heq. rewrite Heq. cbn [JS.bind]. by exists (r.*2).
Qed.

End Correctness.
End PrefixTreeFacts.

(** ** The claims about the prefix tree *)

Module PrefixTreeClaims.
Import PrefixTree PrefixTreeFacts.

(** C1, as amended.  For every sequence of insertions and every query string
    [s], all made of code units other than ['-'] and ['?'] that are code
    points of their own: the insertions succeed, [get(s)] returns, and the
    object inserted with a key that is a prefix of [s] is in its result. *)
Theorem C1_get_has_every_prefix_key {V : Type}
    (ops : list (jsstring * V)) (s k : jsstring) (v : V) :
  Forall (λ e, clean e.1 = true) ops → clean s = true →
  (k, v) ∈ ops → k `prefix_of` s →
  ∃ t r, add_all ops new = Ok t ∧ get t s = Ok r ∧ v ∈ r.
Proof.
  intros Hops Hs Hin Hpre.
  destruct (add_all_spec ops new wf_newNode Hops) as (t & Heq & Hwf & Hall & _).
  destruct (get_stored t k v s Hwf (Hall k v Hin) Hpre Hs) as (r & Hget & Hr).
  by exists t, r.
Qed.

Definition C1_ops : list (jsstring * nat) :=
  [(str "ab", 1); (str "abc", 2); (str "b", 3); (str "a", 4); (str "", 5);
   (str "abd", 6); (str "abcd", 7); (str "abce", 8)]%nat.

Lemma C1_get_has_every_prefix_key_witness :
  ∃ t r, add_all C1_ops new = Ok t ∧ get t (str "abcde") = Ok r ∧ 2%nat ∈ r.
Proof.
  apply (C1_get_has_every_prefix_key C1_ops (str "abcde") (str "abc") 2%nat).
  - repeat constructor.
  - reflexivity.
  - apply list_elem_of_further, list_elem_of_here.
  - exists (str "de"). reflexivity.
Defined.

(** C1 as stated fails on a query string that holds ['-']: the walk of [get]
    takes the bucket Array for a child node. *)
Lemma C1_counterexample_dash :
  ∃ t, add_all [(str "", 1%nat)] new = Ok t ∧
       str "" `prefix_of` str "-" ∧
       get t (str "-") = Throw TypeError.
Proof.
  eexists. split; [vm_compute; reflexivity|].
  split; [by exists (str "-")|]. vm_compute; reflexivity.
Qed.

(** Outside the amended claim: a position with a code point above U+FFFF
    (here U+1D49C, the surrogates D835 DC9C).  [splitNode] files it under
    its first code unit, [get] looks for the code point, and the object is
    missed. *)
Definition astral_ops : list (jsstring * nat) :=
  [([0xD835; 0xDC9C]%N, 1); (str "b", 2); (str "c", 3); (str "d", 4);
   (str "e", 5); (str "f", 6)]%nat.

Example get_misses_astral_key :
  ∃ t, add_all astral_ops new = Ok t ∧ get t [0xD835; 0xDC9C]%N = Ok [].
Proof. eexists. split; vm_compute; reflexivity. Qed.

End PrefixTreeClaims.

(** * Properties of the collating match *)

Module CollationFacts.
Import Collation.

Lemma concat_codePoints s : concat (codePoints s) = s.
Proof.
  assert (∀ n s, length s ≤ n → concat (codePoints s) = s) as Hn.
  { clear s. induction n as [|n IH]; intros s Hlen.
    - destruct s; [done|cbn in Hlen; lia].
    - destruct s as [|a [|b s]]; [done|done|].
      change (codePoints (a :: b :: s)) with
        (if isHighSurrogate a && isLowSurrogate b
         then [a; b] :: codePoints s else [a] :: codePoints (b :: s)).
      cbn [length] in Hlen.
      destruct (isHighSurrogate a && isLowSurrogate b).
      + cbn [concat app]. rewrite IH; [done|lia].
      + cbn [concat app]. rewrite IH; [done|cbn; lia]. }
  by apply (Hn (length s)).
Qed.

(** The string that a run of code points spells. *)
Definition spell (points : list jsstring) : jsstring := concat points.

Section Facts.
Context `{Host}.

(** The loop, unfolded once. *)
Lemma getCollatingMatch_loop_unfold tt ss result :
  getCollatingMatch_loop tt ss result =
    let push a b := (result.1 ++ [a], result.2 ++ [b]) in
    match tt with
    | [] => Some result
    | tj :: tt' =>
      match ss with
      | [] =>
        if cEquiv [] tj then getCollatingMatch_loop tt' [] (push [] tj)
        else None
      | si :: ss' =>
        let twoToTwo :=
          match ss', tt' with
          | si1 :: _, tj1 :: _ => cEquiv (si ++ si1) (tj ++ tj1)
          | _, _ => false
          end in
        let oneToTwo :=
          match tt' with
          | tj1 :: _ => cEquiv si (tj ++ tj1) && negb (cEquiv tj1 [])
          | [] => false
          end in
        let twoToOne :=
          match ss' with
          | si1 :: _ => cEquiv (si ++ si1) tj && negb (cEquiv si1 [])
          | [] => false
          end in
        if twoToTwo then getCollatingMatch_loop tt' ss' (push si tj)
        else if oneToTwo then
          if cEquiv [] tj then getCollatingMatch_loop tt' ss (push [] tj)
          else
            match tt' with
            | tj1 :: tt'' => getCollatingMatch_loop tt'' ss' (push si (tj ++ tj1))
            | [] => None
            end
        else if twoToOne then
          if cEquiv si [] then getCollatingMatch_loop tt ss' (push si [])
          else
            match ss' with
            | si1 :: ss'' => getCollatingMatch_loop tt' ss'' (push (si ++ si1) tj)
            | [] => None
            end
        else if cEquiv si tj then getCollatingMatch_loop tt' ss' (push si tj)
        else if cEquiv si [] then getCollatingMatch_loop tt ss' (push si [])
        else None
      end
    end.
Proof. destruct tt, ss; reflexivity. Qed.

(** What a run of the loop adds to the two Arrays: as many entries to
    each, those of the second spelling what was left of [t], those of the
    first spelling a prefix of what was left of [s]. *)
Definition extends (tt ss : list jsstring)
    (result out : list jsstring * list jsstring) : Prop :=
  ∃ a b, out = (result.1 ++ a, result.2 ++ b) ∧ length a = length b ∧
         concat b = concat tt ∧ concat a `prefix_of` concat ss.

Lemma extends_push tt ss tt1 ss1 result out x y :
  extends tt1 ss1 (result.1 ++ [x], result.2 ++ [y]) out →
  y ++ concat tt1 = concat tt →
  x ++ concat ss1 = concat ss →
  extends tt ss result out.
Proof.
  intros (a & b & -> & Hlen & Hb & Ha) Ht Hs. exists (x :: a), (y :: b).
  cbn [fst snd]. rewrite <- !(assoc_L (++)). cbn [app concat length].
  split_and!; [done|by rewrite Hlen|by rewrite Hb|].
  rewrite <- Hs. by apply prefix_app.
Qed.

Lemma getCollatingMatch_loop_extends n : ∀ tt ss result out,
  length tt + length ss < n →
  getCollatingMatch_loop tt ss result = Some out →
  extends tt ss result out.
Proof.
  induction n as [|n IH]; intros tt ss result out Hn; [lia|].
  rewrite getCollatingMatch_loop_unfold. cbn zeta.
  destruct tt as [|tj tt'].
  { intros [= <-]. exists [], []. rewrite !app_nil_r. split_and!; [by destruct result|done|done|].
    apply prefix_nil. }
  cbn [length] in Hn.
  destruct ss as [|si ss'].
  { destruct (cEquiv [] tj); [|done]. intros Heq.
    eapply extends_push; [eapply IH; [|done]|..]; [cbn in *; lia|done|done]. }
  cbn [length] in Hn.
  repeat case_match; try done; intros Heq; subst;
    (eapply extends_push; [eapply IH; [|done]|..]; [cbn [length] in *; lia|cbn [concat]..]);
    rewrite <- ?(assoc_L (++)); done.
Qed.

(** A successful match: two Arrays of the same length, the second
    spelling [t], the first a prefix of [s]. *)
Lemma getCollatingMatch_spells s t r0 r1 :
  getCollatingMatch s t = Some (r0, r1) →
  length r0 = length r1 ∧ concat r1 = t ∧ concat r0 `prefix_of` s.
Proof.
  intros Heq. unfold getCollatingMatch in Heq.
  apply (getCollatingMatch_loop_extends _ _ _ _ _ (Nat.lt_succ_diag_r _)) in Heq.
  destruct Heq as (a & b & [= -> ->] & Hlen & Hb & Ha). cbn [app].
  rewrite !concat_codePoints in *. done.
Qed.

(** The same run, read on the code points: an entry of either Array is
    made of whole elements of [Array.from], none, one or two of them, taken
    in order; those of the second Array use up what was left of [t], those
    of the first a prefix of what was left of [s]. *)
Definition consumes (tt ss : list jsstring)
    (result out : list jsstring * list jsstring) : Prop :=
  ∃ ga gb : list (list jsstring),
    out = (result.1 ++ (spell <$> ga), result.2 ++ (spell <$> gb)) ∧
    concat gb = tt ∧ concat ga `prefix_of` ss.

Lemma consumes_push tt ss tt1 ss1 result out x y :
  consumes tt1 ss1 (result.1 ++ [x], result.2 ++ [y]) out →
  (∃ gy, y = concat gy ∧ gy ++ tt1 = tt) →
  (∃ gx, x = concat gx ∧ gx ++ ss1 = ss) →
  consumes tt ss result out.
Proof.
  intros (ga & gb & -> & Hb & Ha) (gy & -> & <-) (gx & -> & <-).
  exists (gx :: ga), (gy :: gb). unfold spell. cbn [fst snd fmap list_fmap concat].
  rewrite <- !(assoc_L (++)). cbn [app]. split_and!; [done|by rewrite Hb|].
  by apply prefix_app.
Qed.

Ltac whole_points :=
  first [ by exists []
        | eexists [_]; split; [|reflexivity]; cbn [concat]; by rewrite ?app_nil_r
        | eexists [_; _]; split; [|reflexivity]; cbn [concat]; by rewrite ?app_nil_r ].

Lemma getCollatingMatch_loop_consumes n : ∀ tt ss result out,
  length tt + length ss < n →
  getCollatingMatch_loop tt ss result = Some out →
  consumes tt ss result out.
Proof.
  induction n as [|n IH]; intros tt ss result out Hn; [lia|].
  rewrite getCollatingMatch_loop_unfold. cbn zeta.
  destruct tt as [|tj tt'].
  { intros [= <-]. exists [], []. cbn [fmap list_fmap]. rewrite !app_nil_r.
    split_and!; [by destruct result|done|apply prefix_nil]. }
  cbn [length] in Hn.
  destruct ss as [|si ss'].
  { destruct (cEquiv [] tj); [|done]. intros Heq.
    eapply consumes_push; [eapply IH; [|done]|..]; [cbn in *; lia|whole_points..]. }
  cbn [length] in Hn.
  repeat case_match; try done; intros Heq; subst;
    (eapply consumes_push; [eapply IH; [|done]|..]; [cbn [length] in *; lia|whole_points..]).
Qed.

(** A successful match cuts [s] and [t] between code points only. *)
Lemma getCollatingMatch_points s t r0 r1 :
  getCollatingMatch s t = Some (r0, r1) →
  ∃ g0 g1 : list (list jsstring),
    r0 = spell <$> g0 ∧ r1 = spell <$> g1 ∧
    concat g0 `prefix_of` codePoints s ∧ concat g1 = codePoints t.
Proof.
  intros Heq. unfold getCollatingMatch in Heq.
  apply (getCollatingMatch_loop_consumes _ _ _ _ _ (Nat.lt_succ_diag_r _)) in Heq.
  destruct Heq as (ga & gb & [= -> ->] & Hb & Ha). by exists ga, gb.
Qed.

End Facts.
End CollationFacts.

(** ** The claims about the collating match *)

Module CollationClaims.
Import Collation CollationFacts.

(** C10.  Whenever [getCollatingMatch(s, t)] succeeds, every entry of the
    two Arrays it returns is made of whole code points (elements of
    [Array.from]), taken in order: those of the first Array make up a
    prefix of the code-point sequence of [s], those of the second the
    whole code-point sequence of [t].  So the entries of the first Array
    spell a prefix of [s], which ends between two code points, and those
    of the second spell [t]. *)
Theorem C10_getCollatingMatch_decomposes `{Host} (s t : jsstring)
    (r0 r1 : list jsstring) :
  getCollatingMatch s t = Some (r0, r1) →
  ∃ g0 g1 : list (list jsstring),
    r0 = spell <$> g0 ∧ r1 = spell <$> g1 ∧
    concat g0 `prefix_of` codePoints s ∧ concat g1 = codePoints t ∧
    concat r0 `prefix_of` s ∧ concat r1 = t.
Proof.
  intros Heq. destruct (getCollatingMatch_points _ _ _ _ Heq) as (g0 & g1 & ? & ? & ? & ?).
  destruct (getCollatingMatch_spells _ _ _ _ Heq) as (_ & ? & ?).
  by exists g0, g1.
Qed.

(** The example of the documentation of [getCollatingMatch]:
    [s = 'dæl·lete'], [t = 'daell']. *)
Definition C10_s : jsstring := str "d" ++ [0xE6%N] ++ str "l" ++ [0xB7%N] ++ str "lete".
Definition C10_t : jsstring := str "daell".
Definition C10_r0 : list jsstring := [str "d"; [0xE6%N]; str "l"; [0xB7%N]; str "l"].
Definition C10_r1 : list jsstring := [str "d"; str "ae"; str "l"; str ""; str "l"].

Lemma C10_getCollatingMatch_decomposes_witness :
  ∃ g0 g1 : list (list jsstring),
    C10_r0 = spell <$> g0 ∧ C10_r1 = spell <$> g1 ∧
    concat g0 `prefix_of` codePoints C10_s ∧ concat g1 = codePoints C10_t ∧
    concat C10_r0 `prefix_of` C10_s ∧ concat C10_r1 = C10_t.
Proof.
  apply (C10_getCollatingMatch_decomposes (H := BasicLatin.host) C10_s C10_t C10_r0 C10_r1).
  vm_compute. reflexivity.
Defined.

(** A title with a character outside the Basic Multilingual Plane: the pair
    of surrogates of U+1D49C stays in one entry. *)
Example getCollatingMatch_keeps_pairs :
  getCollatingMatch (H := BasicLatin.host) ([0xD835; 0xDC9C]%N ++ str "b")
    ([0xD835; 0xDC9C]%N ++ str "b") = Some ([[0xD835; 0xDC9C]%N; str "b"],
                                         [[0xD835; 0xDC9C]%N; str "b"]).
Proof. vm_compute. reflexivity. Qed.

(** C4 fails on the code: the step for two characters on each side records
    the first character of each without comparing them.  For
    [s = 'ß·s'] and [t = 'ss'] the match succeeds with
    [[['ß', '·', 's'], ['s', '', 's']]], and ['ß'] is not equivalent
    to ['s']. *)
Example C4_getCollatingMatch_pairs_unequal :
  let cEquiv := cEquiv (H := BasicLatin.host) in
  getCollatingMatch (H := BasicLatin.host) [0xDF; 0xB7; 115]%N (str "ss")
    = Some ([[0xDF]; [0xB7]; [115]]%N, [[115]; []; [115]]%N) ∧
  cEquiv ([0xDF] ++ [0xB7])%N (str "s" ++ str "s") = true ∧
  cEquiv [0xDF]%N (str "s") = false.
Proof. vm_compute. done. Qed.

End CollationClaims.

(** * Properties of the regular expression matcher *)

Module RegExpFacts.

(** [ext gs st st1]: a run from [st] to [st1] consumed a piece of the
    input, left the captures outside [gs] alone, and set no capture longer
    than what it consumed. *)
Definition ext (gs : list nat) (st st1 : state) : Prop :=
  ∃ consumed,
    rest st = consumed ++ rest st1 ∧
    pos st1 = pos st + length consumed ∧
    (∀ n, n ∉ gs → caps st1 !! n = caps st !! n) ∧
    (∀ n s, caps st1 !! n = Some s → caps st !! n = Some s ∨ length s ≤ length consumed).

Lemma ext_refl gs st : ext gs st st.
Proof. exists []. split_and!; [done|cbn; lia|done|by left]. Qed.

Lemma ext_trans gs st st1 st2 : ext gs st st1 → ext gs st1 st2 → ext gs st st2.
Proof.
  intros (c1 & Hr1 & Hp1 & Hf1 & Hc1) (c2 & Hr2 & Hp2 & Hf2 & Hc2).
  exists (c1 ++ c2). rewrite length_app. split_and!.
  - by rewrite Hr1, Hr2, (assoc_L (++)).
  - lia.
  - intros n Hn. by rewrite Hf2, Hf1.
  - intros n s Hs. destruct (Hc2 n s Hs) as [Hs1|]; [|right; lia].
    destruct (Hc1 n s Hs1); [by left|right; lia].
Qed.

Lemma ext_mono gs gs' st st1 : gs ⊆ gs' → ext gs st st1 → ext gs' st st1.
Proof.
  intros Hsub (c & ? & ? & Hf & ?). exists c. split_and!; [done..| |done].
  intros n Hn. apply Hf. intros Hin. apply Hn. by apply Hsub.
Qed.

Lemma ext_length gs st st1 : ext gs st st1 → length (rest st1) ≤ length (rest st).
Proof. intros (c & -> & _). rewrite length_app. lia. Qed.

Lemma lookup_foldr_delete (m : gmap nat jsstring) ns n :
  foldr delete m ns !! n = if decide (n ∈ ns) then None else m !! n.
Proof.
  induction ns as [|a ns IH]; cbn [foldr].
  - by rewrite decide_False by apply not_elem_of_nil.
  - destruct (decide (a = n)) as [->|Hne].
    + rewrite lookup_delete_eq. rewrite decide_True; [done|by left].
    + rewrite lookup_delete_ne, IH by done.
      destruct (decide (n ∈ ns)).
      * rewrite decide_True; [done|by right].
      * rewrite decide_False; [done|]. rewrite elem_of_cons. intros [?|?]; congruence.
Qed.

Lemma ext_resetCaptures gs st : ext gs st (resetCaptures gs st).
Proof.
  exists []. cbn. split_and!; [done|lia|..].
  - intros n Hn. rewrite lookup_foldr_delete. by rewrite decide_False.
  - intros n s. rewrite lookup_foldr_delete. case_decide; [done|by left].
Qed.

Lemma headChar_width u s c w :
  headChar u s = Some (c, w) → 1 ≤ w ∧ length (take w s) = w.
Proof.
  destruct s as [|a [|b s]]; cbn [headChar].
  - done.
  - intros [= <- <-]. rewrite length_take. cbn [length]. lia.
  - destruct (u && isHighSurrogate a && isLowSurrogate b); intros [= <- <-];
      rewrite length_take; cbn [length]; lia.
Qed.

Lemma step_ext u p st k res :
  step u p st k = Some res →
  ∃ st1, k st1 = Some res ∧ ext [] st st1 ∧ pos st < pos st1.
Proof.
  unfold step. destruct (headChar u (rest st)) as [[c w]|] eqn:Hh; [|done].
  destruct (p c); [|done]. intros Hk.
  destruct (headChar_width _ _ _ _ Hh) as [Hw Hlen].
  eexists. split; [done|]. split; [|cbn; lia].
  exists (take w (rest st)). cbn. rewrite take_drop. split_and!; [done|lia|done|by left].
Qed.

Section Matcher.
Context (u : bool).

Lemma repeatMatcher_ext body ns
    (Hbody : ∀ st k res, body st k = Some res → ∃ st1, k st1 = Some res ∧ ext ns st st1) :
  ∀ fuel min max st k res,
    repeatMatcher body ns fuel min max st k = Some res →
    ∃ st1, k st1 = Some res ∧ ext ns st st1.
Proof.
  induction fuel as [|fuel IH]; intros min max st k res.
  - cbn. destruct max as [[|?]|]; intros Hk; exists st; eauto using ext_refl.
  - cbn [repeatMatcher].
    assert (∀ r, body (resetCaptures ns st)
               (λ st1, if (min =? 0) && (pos st1 =? pos st) then None
                       else repeatMatcher body ns fuel (Nat.pred min) (Nat.pred <$> max) st1 k)
               = Some r → ∃ st1, k st1 = Some r ∧ ext ns st st1) as Hiter.
    { intros r Hr. apply Hbody in Hr as (st1 & Hk & Hext).
      destruct ((min =? 0) && (pos st1 =? pos st)); [done|].
      apply IH in Hk as (st2 & Hk & Hext2). exists st2. split; [done|].
      eauto using ext_trans, ext_resetCaptures. }
    destruct max as [[|mx]|]; [intros Hk; exists st; eauto using ext_refl|..];
      (destruct (min =? 0);
       [destruct (body _ _) eqn:Hb;
        [intros [= <-]; by apply Hiter|intros Hk; exists st; eauto using ext_refl]
       |apply Hiter]).
Qed.

Lemma matcher_ext r : ∀ st k res,
  matcher u r st k = Some res → ∃ st1, k st1 = Some res ∧ ext (groups r) st st1.
Proof.
  induction r as [|c|neg rs| | | |r1 IH1 r2 IH2|r1 IH1 r2 IH2|n r1 IH1|min max r1 IH1];
    intros st k res; cbn [matcher groups].
  - intros Hk. exists st. eauto using ext_refl.
  - intros Hs. apply step_ext in Hs as (st1 & ? & ? & _). eauto.
  - intros Hs. apply step_ext in Hs as (st1 & ? & ? & _). eauto.
  - intros Hs. apply step_ext in Hs as (st1 & ? & ? & _). eauto.
  - destruct (pos st =? 0); [|done]. intros Hk. exists st. eauto using ext_refl.
  - destruct (rest st); [|done]. intros Hk. exists st. eauto using ext_refl.
  - intros Hm. apply IH1 in Hm as (st1 & Hm & Hext1).
    apply IH2 in Hm as (st2 & Hk & Hext2). exists st2. split; [done|].
    eapply ext_trans; eapply ext_mono; [|done| |done]; set_solver.
  - destruct (matcher u r1 st k) eqn:Hm1.
    + intros [= <-]. apply IH1 in Hm1 as (st1 & ? & ?). exists st1. split; [done|].
      eapply ext_mono; [|done]. set_solver.
    + intros Hm2. apply IH2 in Hm2 as (st1 & ? & ?). exists st1. split; [done|].
      eapply ext_mono; [|done]. set_solver.
  - intros Hm. apply IH1 in Hm as (st1 & Hk & (c & Hr & Hp & Hf & Hc)).
    eexists. split; [done|]. exists c. cbn. split_and!; [done..| |].
    + intros n' Hn'. rewrite lookup_insert_ne by set_solver. apply Hf. set_solver.
    + intros n' s. destruct (decide (n = n')) as [->|Hne].
      * rewrite lookup_insert_eq. intros [= <-]. right.
        rewrite length_take. lia.
      * rewrite lookup_insert_ne by done. apply Hc.
  - by apply repeatMatcher_ext.
Qed.

(** A match consumes a piece of the input and no capture is longer. *)
Lemma matchAt_bounds r p rest st :
  matchAt u r p rest = Some st →
  ∃ consumed, rest = consumed ++ RegExp.rest st ∧ pos st = p + length consumed ∧
              ∀ n s, caps st !! n = Some s → length s ≤ length consumed.
Proof.
  unfold matchAt. intros Hm. apply matcher_ext in Hm as (st1 & [= ->] & (c & Hr & Hp & _ & Hc)).
  exists c. cbn in *. split_and!; [done..|]. intros n s Hs.
  destruct (Hc n s Hs) as [Hs'|]; [|done]. by rewrite lookup_empty in Hs'.
Qed.

(** The matcher of a group, followed by [k]. *)
Lemma matcher_Group n r st k res :
  matcher u (Group n r) st k = Some res →
  ∃ st1, ext (groups r) st st1 ∧
         k (setCapture n (take (pos st1 - pos st) (rest st)) st1) = Some res.
Proof.
  cbn [matcher]. intros Hm. apply matcher_ext in Hm as (st1 & Hk & Hext). eauto.
Qed.

(** ** Global replacement *)

(** The result is no longer than the input when no match expands to more
    than it covers. *)
Lemma replaceAll_loop_length r tmpl
    (Hexp : ∀ p rest st, matchAt u r p rest = Some st → length (expand tmpl st) ≤ pos st - p) :
  ∀ fuel p rest, length (replaceAll_loop u r tmpl fuel p rest) ≤ length rest.
Proof.
  induction fuel as [|fuel IH]; intros p rest; [done|].
  cbn [replaceAll_loop].
  assert (length match rest with
                 | [] => []
                 | _ :: _ => take (advance u rest) rest ++
                     replaceAll_loop u r tmpl fuel (p + advance u rest) (drop (advance u rest) rest)
                 end ≤ length rest) as Hskip.
  { destruct rest as [|a rest']; [done|]. rewrite length_app.
    pose proof (IH (p + advance u (a :: rest')) (drop (advance u (a :: rest')) (a :: rest'))).
    rewrite length_take, length_drop in *. lia. }
  destruct (matchAt u r p rest) as [st|] eqn:Hm; [|done].
  pose proof (Hexp _ _ _ Hm) as He.
  apply matchAt_bounds in Hm as (c & Hr & Hp & _).
  rewrite length_app. destruct (pos st - p =? 0) eqn:Hn.
  - apply Nat.eqb_eq in Hn. lia.
  - pose proof (IH (pos st) (drop (pos st - p) rest)) as Hrec.
    rewrite length_drop in Hrec.
    assert (pos st - p ≤ length rest). { rewrite Hr, length_app. lia. }
    lia.
Qed.

Lemma replaceAll_length r tmpl s
    (Hexp : ∀ p rest st, matchAt u r p rest = Some st → length (expand tmpl st) ≤ pos st - p) :
  length (replaceAll u r tmpl s) ≤ length s.
Proof. by apply replaceAll_loop_length. Qed.

(** Replacing by the first group never lengthens, whatever the pattern. *)
Lemma replaceAll_group_length r n s : length (replaceAll u r [TGroup n] s) ≤ length s.
Proof.
  apply replaceAll_length. intros p rest st Hm.
  apply matchAt_bounds in Hm as (c & Hr & Hp & Hc).
  cbn. rewrite app_nil_r. destruct (caps st !! n) as [x|] eqn:Hx; cbn; [|lia].
  apply Hc in Hx. lia.
Qed.

(** Removing the matches never lengthens. *)
Lemma replaceAll_remove_length r s : length (replaceAll u r [] s) ≤ length s.
Proof. apply replaceAll_length. intros. cbn. lia. Qed.

(** With a template of literal text, every code unit of the result is
    one of the input or one of the template. *)
Lemma replaceAll_loop_Forall (P : N → Prop) r lit :
  Forall P lit →
  ∀ fuel p rest, Forall P rest → Forall P (replaceAll_loop u r [TLit lit] fuel p rest).
Proof.
  intros Hlit. induction fuel as [|fuel IH]; intros p rest Hrest; [done|].
  cbn [replaceAll_loop].
  assert (Forall P match rest with
                   | [] => []
                   | _ :: _ => take (advance u rest) rest ++
                       replaceAll_loop u r [TLit lit] fuel (p + advance u rest)
                         (drop (advance u rest) rest)
                   end) as Hskip.
  { destruct rest as [|a rest']; [done|]. apply Forall_app. split.
    - by apply Forall_take.
    - apply IH. by apply Forall_drop. }
  destruct (matchAt u r p rest) as [st|]; [|done].
  apply Forall_app. split.
  - cbn. by rewrite app_nil_r.
  - destruct (pos st - p =? 0); [done|]. apply IH. by apply Forall_drop.
Qed.

Lemma replaceAll_loop_remove_Forall (P : N → Prop) r :
  ∀ fuel p rest, Forall P rest → Forall P (replaceAll_loop u r [] fuel p rest).
Proof.
  induction fuel as [|fuel IH]; intros p rest Hrest; [done|].
  cbn [replaceAll_loop].
  assert (Forall P match rest with
                   | [] => []
                   | _ :: _ => take (advance u rest) rest ++
                       replaceAll_loop u r [] fuel (p + advance u rest)
                         (drop (advance u rest) rest)
                   end) as Hskip.
  { destruct rest as [|a rest']; [done|]. apply Forall_app. split.
    - by apply Forall_take.
    - apply IH. by apply Forall_drop. }
  destruct (matchAt u r p rest) as [st|]; [|done].
  cbn [expand fmap list_fmap concat app].
  destruct (pos st - p =? 0); [done|]. apply IH. by apply Forall_drop.
Qed.

End Matcher.

Lemma headChar_units a s : headChar false (a :: s) = Some (a, 1).
Proof. by destruct s. Qed.

Lemma advance_units a s : advance false (a :: s) = 1.
Proof. unfold advance. by rewrite headChar_units. Qed.

Lemma matchAt_Class_units negated ranges p a s :
  matchAt false (Class negated ranges) p (a :: s) =
    if xorb negated (inRanges ranges a)
    then Some {| pos := p + 1; rest := s; caps := ∅ |} else None.
Proof. unfold matchAt. cbn [matcher]. unfold step. cbn [rest]. by rewrite headChar_units. Qed.

(** Replacing the code units outside a class by one of the class leaves
    only code units of the class. *)
Lemma replaceAll_loop_class ranges c :
  inRanges ranges c = true →
  ∀ fuel p rest,
    length rest < fuel →
    Forall (λ x, inRanges ranges x = true)
      (replaceAll_loop false (Class true ranges) [TLit [c]] fuel p rest).
Proof.
  intros Hc. induction fuel as [|fuel IH]; intros p rest Hfuel; [lia|].
  cbn [replaceAll_loop]. destruct rest as [|a rest'].
  { unfold matchAt. cbn. constructor. }
  cbn [length] in Hfuel.
  rewrite matchAt_Class_units, advance_units. cbn [drop take].
  rewrite take_0, drop_0.
  destruct (inRanges ranges a) eqn:Ha; cbn [xorb negb].
  - constructor; [done|]. apply IH. lia.
  - cbn [pos]. replace (p + 1 - p) with 1 by lia.
    cbn [Nat.eqb expand fmap list_fmap concat app drop].
    rewrite drop_0. constructor; [done|]. apply IH. lia.
Qed.

Lemma replaceAll_class ranges c s :
  inRanges ranges c = true →
  Forall (λ x, inRanges ranges x = true)
    (replaceAll false (Class true ranges) [TLit [c]] s).
Proof.
  intros Hc. unfold replaceAll. apply replaceAll_loop_class; first [assumption|lia].
Qed.

(** ** [trim] *)

Lemma trimStart_suffix s : trimStart s `suffix_of` s.
Proof.
  induction s as [|a s IH]; [done|]. cbn [trimStart]. destruct (isWhiteSpace a).
  - by apply suffix_cons_r.
  - done.
Qed.

Lemma trimStart_length s : length (trimStart s) ≤ length s.
Proof. apply suffix_length, trimStart_suffix. Qed.

Lemma trim_length s : length (trim s) ≤ length s.
Proof.
  unfold trim, trimEnd. rewrite length_reverse.
  etrans; [apply trimStart_length|]. rewrite length_reverse. apply trimStart_length.
Qed.

Lemma trimStart_Forall (P : N → Prop) s : Forall P s → Forall P (trimStart s).
Proof.
  intros Hs. destruct (trimStart_suffix s) as [k Hk]. rewrite Hk in Hs.
  by apply Forall_app in Hs as [_ ?].
Qed.

End RegExpFacts.

(** * Construction of the engine *)

Module ConstructionFacts.
Import Collation PrefixTree AbbrevIso PrefixTreeFacts RegExpFacts.

Lemma inRanges_lower_clean x :
  inRanges [range "a" "z"; one " "] x = true → cleanChar x = true.
Proof.
  change (inRanges [range "a" "z"; one " "] x)
    with (((97 <=? x) && (x <=? 122) || ((32 <=? x) && (x <=? 32) || false))%N).
  unfold cleanChar, isSurrogate, isHighSurrogate, isLowSurrogate.
  rewrite !orb_true_iff, !andb_true_iff, !N.leb_le. intros Hx.
  assert ((97 ≤ x ∧ x ≤ 122) ∨ x = 32)%N as Hx' by lia. clear Hx.
  rewrite !negb_true_iff, orb_false_iff, !andb_false_iff, !N.eqb_neq, !N.leb_gt.
  lia.
Qed.

Lemma clean_Forall s : Forall (λ x, cleanChar x = true) s → clean s = true.
Proof.
  induction 1 as [|x s Hx _ IH]; [done|]. cbn [clean forallb]. by rewrite Hx.
Qed.

Section Facts.
Context `{Host}.

(** The keys of the prefix trees are clean. *)
Lemma promiscuouslyNormalize_clean s : clean (promiscuouslyNormalize s) = true.
Proof.
  unfold promiscuouslyNormalize. apply clean_Forall.
  eapply Forall_impl; [|intros x; apply inRanges_lower_clean].
  unfold replaceAll at 1. apply replaceAll_loop_remove_Forall.
  unfold replaceAll at 1. apply replaceAll_loop_remove_Forall.
  apply (replaceAll_class [range "a" "z"; one " "] (chr " ")). done.
Qed.

(** What the constructor maintains: the two trees are well formed and the
    Array of bad patterns exists. *)
Definition engine_ok (e : AbbrevIso) (h : heap) : Prop :=
  wf (root_ (dictPatterns_ e)) ∧ wf (root_ (nonprefixPatterns_ e)) ∧
  badPatterns_ e < length h.

(** [addPattern] never throws, and counts the pattern. *)
Lemma addPattern_ok e pattern h :
  engine_ok e h →
  ∃ e' h', addPattern e pattern h = Ok (e', h') ∧ size_ e' = S (size_ e) ∧
           shortWords_ e' = shortWords_ e ∧ engine_ok e' h'.
Proof.
  intros (Hd & Hn & Hb). unfold addPattern.
  set (p := promiscuouslyNormalize _).
  assert (clean p = true) as Hp by apply promiscuouslyNormalize_clean.
  set (first := if negb _ then _ else _).
  assert (∃ h', first h = Ok ((), h') ∧ length h' = length h) as (h' & Hfirst & Hlen).
  { unfold first. destruct (negb _).
    - unfold mbind, read, write. destruct (lookup_lt_is_Some_2 h _ Hb) as [bad Hbad].
      cbn beta. rewrite Hbad. eexists. split; [done|]. by rewrite length_insert.
    - by exists h. }
  unfold mbind at 1. rewrite Hfirst.
  destruct (startDash pattern).
  - destruct (add_spec (nonprefixPatterns_ e) p pattern Hn Hp) as (t & Hadd & Hwf & _).
    unfold mbind, lift, ret. rewrite Hadd. eexists _, _. split; [done|].
    unfold engine_ok. split_and!; cbn; first [done|lia].
  - destruct (add_spec (dictPatterns_ e) p pattern Hd Hp) as (t & Hadd & Hwf & _).
    unfold mbind, lift, ret. rewrite Hadd. eexists _, _. split; [done|].
    unfold engine_ok. split_and!; cbn; first [done|lia].
Qed.

End Facts.
End ConstructionFacts.

(** ** The claim about construction *)

Module ConstructionClaims.
Import Collation PrefixTree AbbrevIso PrefixTreeFacts RegExpFacts ConstructionFacts.

(** The records of the LTWA: the lines after the header that are not
    blank. *)
Definition records (ltwa : lines) : list jsstring :=
  List.filter (λ line, negb (length (trim line) =? 0)) (tail (toArray ltwa)).

(** A record the constructor of LTWAPattern refuses: its fields are not
    three, or its pattern is shorter than three code units. *)
Definition malformed `{Host} (line : jsstring) : bool :=
  negb (length (splitChar 9 line) =? 3) ||
  (length (patternOf (splitChar 9 line !!! 0)) <? 3).

Section Claims.
Context `{Host}.

Lemma LTWAPattern_new_malformed self line :
  malformed line = true →
  ∃ text, LTWAPattern_new self line = Throw (Error (text ++ [34%N] ++ line ++ [34%N])).
Proof.
  unfold malformed, LTWAPattern_new. destruct (negb _); cbn [orb].
  - intros _. by eexists.
  - intros ->. by eexists.
Qed.

Lemma LTWAPattern_new_accepted self line :
  malformed line = false → ∃ pattern, LTWAPattern_new self line = Ok pattern.
Proof.
  unfold malformed, LTWAPattern_new. destruct (negb _); cbn [orb]; [done|].
  intros ->. by eexists.
Qed.

Lemma addLines_spec ltwa : ∀ e h,
  engine_ok e h →
  match List.find malformed (List.filter (λ line, negb (length (trim line) =? 0)) ltwa) with
  | Some line =>
    ∃ text, addLines e ltwa h = Throw (Error (text ++ [34%N] ++ line ++ [34%N]))
  | None =>
    ∃ e' h', addLines e ltwa h = Ok (e', h') ∧
      size_ e' = size_ e +
                 length (List.filter (λ line, negb (length (trim line) =? 0)) ltwa)
  end.
Proof.
  induction ltwa as [|line ltwa IH]; intros e h Hok.
  - cbn. exists e, h. split; [done|lia].
  - cbn [addLines List.filter]. destruct (length (trim line) =? 0); cbn [negb].
    { by apply IH. }
    cbn [List.find]. destruct (malformed line) eqn:Hm.
    + destruct (LTWAPattern_new_malformed (size_ e) line Hm) as [text Hnew].
      exists text. unfold mbind, lift. by rewrite Hnew.
    + destruct (LTWAPattern_new_accepted (size_ e) line Hm) as [pattern Hnew].
      destruct (addPattern_ok e pattern h Hok) as (e1 & h1 & Hadd & Hsize & _ & Hok1).
      specialize (IH e1 h1 Hok1).
      unfold mbind, lift. rewrite Hnew. cbn beta iota. rewrite Hadd.
      destruct (List.find _ _).
      * done.
      * destruct IH as (e' & h' & -> & Hs). exists e', h'. split; [done|].
        cbn [length]. lia.
Qed.

(** C8, as amended.  Construction raises an error that carries the raw line
    of a record exactly when some record is malformed: it does not have
    exactly three fields separated by tabs, or its pattern (the first field
    in the form NFC, without the comment, trimmed) is shorter than three
    code units; the line is that of the first such record.  Otherwise every
    record is accepted and counts for one in the size of the engine. *)
Theorem C8_construction_errors (ltwa shortWords : lines) (h : heap) :
  match List.find malformed (records ltwa) with
  | Some line =>
    ∃ text, new ltwa shortWords h = Throw (Error (text ++ [34%N] ++ line ++ [34%N]))
  | None =>
    ∃ e h', new ltwa shortWords h = Ok (e, h') ∧ size e = length (records ltwa)
  end.
Proof.
  unfold new, records, mbind, alloc, ret. cbn beta iota.
  set (e0 := {| badPatterns_ := length h; nonprefixPatterns_ := PrefixTree.new;
                dictPatterns_ := PrefixTree.new; size_ := 0; shortWords_ := [] |}).
  assert (engine_ok e0 (h ++ [[]])) as Hok.
  { unfold engine_ok. split_and!; [apply wf_newNode..|]. cbn. rewrite length_app. cbn. lia. }
  pose proof (addLines_spec (tail (toArray ltwa)) e0 _ Hok) as Hspec.
  destruct (List.find _ _).
  - destruct Hspec as [text Heq]. exists text. by rewrite Heq.
  - destruct Hspec as (e' & h' & Heq & Hsize). rewrite Heq.
    eexists _, _. split; [done|]. cbn. by rewrite Hsize.
Qed.

End Claims.

(** C8 as stated fails on a record of four fields: it has no fewer than
    three fields and its pattern has three code units, and the constructor
    refuses it. *)
Definition tab : jsstring := [9%N].
Definition C8_line : jsstring :=
  str "abc" ++ tab ++ str "ab." ++ tab ++ str "eng" ++ tab ++ str "x".

Lemma C8_counterexample_four_fields :
  let H := BasicLatin.host in
  (length (splitChar 9 C8_line) <? 3) = false ∧
  (length (patternOf (splitChar 9 C8_line !!! 0)) <? 3) = false ∧
  new (Lines [str "WORDS"; C8_line]) (Lines []) [] =
    Throw (Error (str "Number of fields in LTWA line is not 3: " ++ [34%N] ++ C8_line ++ [34%N])).
Proof. vm_compute. done. Qed.

End ConstructionClaims.

(** * The choice among overlapping matches *)

Module SelectionFacts.
Import AbbrevIso.

(** ** [sort] *)

Section Sort.
Context {A : Type} (comparefn : A → A → Z).

Lemma insertSorted_Permutation x l : insertSorted comparefn x l ≡ₚ x :: l.
Proof.
  induction l as [|y l IH]; [done|]. cbn. destruct (comparefn x y <=? 0)%Z; [done|].
  rewrite IH. apply Permutation_swap.
Qed.

Lemma sort_Permutation l : sort comparefn l ≡ₚ l.
Proof.
  induction l as [|x l IH]; [done|]. cbn. by rewrite insertSorted_Permutation, IH.
Qed.

(** For a comparison by a key, the result is in ascending order of the key. *)
Context (key : A → Z) (Hkey : ∀ a b, (comparefn a b ≤ 0 ↔ key a ≤ key b)%Z).

Lemma insertSorted_sorted x l :
  StronglySorted (λ a b, key a ≤ key b)%Z l →
  StronglySorted (λ a b, key a ≤ key b)%Z (insertSorted comparefn x l).
Proof using Hkey.
  induction 1 as [|y l Hl IH Hy]; cbn.
  - by repeat constructor.
  - destruct (comparefn x y <=? 0)%Z eqn:Hc.
    + apply Z.leb_le, Hkey in Hc. constructor; [by constructor|].
      constructor; [done|]. eapply Forall_impl; [done|]. cbn. lia.
    + apply Z.leb_gt in Hc. assert (key y < key x)%Z as Hlt.
      { destruct (Z.le_gt_cases (key x) (key y)) as [Hle|]; [|lia].
        apply Hkey in Hle. lia. }
      constructor; [done|]. rewrite insertSorted_Permutation.
      constructor; [lia|done].
Qed.

Lemma sort_sorted l : StronglySorted (λ a b, key a ≤ key b)%Z (sort comparefn l).
Proof using Hkey.
  induction l as [|x l IH]; cbn; [constructor|]. by apply insertSorted_sorted.
Qed.

End Sort.

Lemma Forall_sublist_of {A} (P : A → Prop) (l k : list A) :
  l `sublist_of` k → Forall P k → Forall P l.
Proof.
  intros Hsub Hk. apply Forall_forall. intros x Hx.
  rewrite Forall_forall in Hk. eauto using elem_of_sublist.
Qed.

Lemma StronglySorted_sublist {A} (R : A → A → Prop) (l k : list A) :
  l `sublist_of` k → StronglySorted R k → StronglySorted R l.
Proof.
  induction 1 as [|x l k Hsub IH|x l k Hsub IH]; intros Hk.
  - done.
  - apply StronglySorted_inv in Hk as [Hk Hx].
    constructor; [auto|]. by eapply Forall_sublist_of.
  - apply StronglySorted_inv in Hk as [Hk _]. auto.
Qed.

(** ** Overlaps *)

Lemma overlaps_sym a b : overlaps a b = overlaps b a.
Proof. unfold overlaps. apply andb_comm. Qed.

(** No two matches of the list overlap. *)
Inductive nonOverlapping : list Match → Prop :=
| nonOverlapping_nil : nonOverlapping []
| nonOverlapping_cons m l :
    Forall (λ k, overlaps m k = false) l → nonOverlapping l → nonOverlapping (m :: l).

Lemma nonOverlapping_Permutation l l' :
  l ≡ₚ l' → nonOverlapping l → nonOverlapping l'.
Proof.
  induction 1 as [|x l l' Hp IH|x y l|l l' l'' _ IH1 _ IH2]; intros Hl.
  - done.
  - inversion Hl; subst. constructor; [by rewrite <- Hp|auto].
  - inversion Hl as [|? ? Hy Hl']; subst. inversion Hl' as [|? ? Hx Hl'']; subst.
    apply Forall_cons in Hy as [Hyx Hy].
    constructor; [|by constructor]. constructor; [by rewrite overlaps_sym|done].
  - auto.
Qed.

Lemma dropOverlapping_filter mj later :
  dropOverlapping mj later = List.filter (λ mk, negb (overlaps mj mk)) later.
Proof.
  induction later as [|mk later IH]; [done|]. cbn. rewrite IH. by destruct (overlaps mj mk).
Qed.

Lemma dropOverlapping_sublist mj later : dropOverlapping mj later `sublist_of` later.
Proof.
  induction later as [|mk later IH]; [done|]. cbn. destruct (overlaps mj mk).
  - by apply sublist_cons.
  - by apply sublist_skip.
Qed.

Lemma dropOverlapping_Forall mj later :
  Forall (λ k, overlaps mj k = false) (dropOverlapping mj later).
Proof.
  induction later as [|mk later IH]; [constructor|]. cbn.
  destruct (overlaps mj mk) eqn:Ho; [done|]. by constructor.
Qed.

Lemma dropOverlapping_elem mj later m :
  m ∈ later → overlaps mj m = false → m ∈ dropOverlapping mj later.
Proof.
  induction later as [|mk later IH]; [by intros ?%elem_of_nil|].
  intros [->|Hin]%elem_of_cons Ho; cbn.
  - rewrite Ho. by left.
  - destruct (overlaps mj mk); [auto|]. right. auto.
Qed.

(** The loop keeps a sublist without overlaps; a match it drops overlaps a
    match it keeps that stands before it. *)
Lemma resolveOverlaps_loop_spec (before : Match → Match → Prop) fuel : ∀ matches,
  length matches ≤ fuel →
  StronglySorted before matches →
  let kept := resolveOverlaps_loop fuel matches in
  kept `sublist_of` matches ∧ nonOverlapping kept ∧
  ∀ m, m ∈ matches → m ∈ kept ∨ ∃ k, k ∈ kept ∧ overlaps k m = true ∧ before k m.
Proof.
  induction fuel as [|fuel IH]; intros matches Hlen Hsorted.
  - destruct matches; [|cbn in Hlen; lia]. cbn. split_and!; [done|constructor|].
    by intros m ?%elem_of_nil.
  - destruct matches as [|mj later].
    { cbn. split_and!; [done|constructor|]. by intros m ?%elem_of_nil. }
    cbn [resolveOverlaps_loop]. cbn zeta. cbn [length] in Hlen.
    apply StronglySorted_inv in Hsorted as [Hlater Hmj].
    pose proof (dropOverlapping_sublist mj later) as Hsub.
    destruct (IH (dropOverlapping mj later)) as (Hsub' & Hno & Hdrop).
    { apply sublist_length in Hsub. lia. }
    { by eapply StronglySorted_sublist. }
    split_and!.
    + apply sublist_skip. by etrans.
    + constructor; [|done]. eapply Forall_sublist_of; [|apply dropOverlapping_Forall]. done.
    + intros m [->|Hin]%elem_of_cons; [left; by left|].
      destruct (overlaps mj m) eqn:Ho.
      * right. exists mj. split_and!; [by left|done|].
        rewrite Forall_forall in Hmj. by apply Hmj.
      * destruct (Hdrop m (dropOverlapping_elem _ _ _ Hin Ho)) as [?|(k & ? & ? & ?)].
        -- left. by right.
        -- right. exists k. split_and!; [by right|done..].
Qed.

End SelectionFacts.

(** * The stages of [makeAbbreviation] never lengthen the title *)

Module PlannerFacts.
Import Collation AbbrevIso RegExpFacts CollationFacts SelectionFacts.

Lemma ext_pos gs st st1 : ext gs st st1 → pos st ≤ pos st1.
Proof. intros (c & _ & -> & _). lia. Qed.

(** ** The separators of dependent titles *)

(** A match of [separator] covers its second and third groups, one after
    the other. *)
Lemma matcher_Seq u r1 r2 st k :
  matcher u (Seq r1 r2) st k = matcher u r1 st (λ st1, matcher u r2 st1 k).
Proof. done. Qed.

Lemma separator_expand p rest st :
  matchAt true separator p rest = Some st →
  length (expand [TGroup 2; TGroup 3] st) ≤ pos st - p.
Proof.
  unfold matchAt, separator. cbn [seq].
  set (st0 := {| pos := p; rest := rest; caps := ∅ |}).
  intros Hm.
  rewrite matcher_Seq in Hm. apply matcher_ext in Hm as (st1 & Hm & H1%ext_pos).
  rewrite matcher_Seq in Hm. apply matcher_ext in Hm as (st2 & Hm & H2%ext_pos).
  rewrite matcher_Seq in Hm. apply matcher_ext in Hm as (st3 & Hm & H3%ext_pos).
  rewrite matcher_Seq in Hm.
  apply matcher_Group in Hm as (st4 & (c2 & Hr4 & Hp4 & _) & Hm).
  apply matcher_Group in Hm as (st5 & (c3 & Hr5 & Hp5 & Hf5 & _) & [= <-]).
  cbn [setCapture pos RegExp.rest caps] in *.
  unfold expand. cbn [fmap list_fmap concat caps setCapture].
  rewrite lookup_insert_eq, lookup_insert_ne by done.
  rewrite Hf5 by (cbn; set_solver). rewrite lookup_insert_eq.
  unfold default. cbn [from_option id]. rewrite app_nil_r, length_app, !length_take.
  subst st0. cbn [pos setCapture] in *.
  lia.
Qed.

Lemma omitSeparators_length s : length (omitSeparators s) ≤ length s.
Proof. apply replaceAll_length, separator_expand. Qed.

(** The term with the accent is spelt with the combining acute accent
    U+0301; a title in the form NFC has the letter U+00E9 there, and the
    term stays. *)
Example omitSeparators_accent :
  omitSeparators (str "S" ++ [0xE9%N] ++ str "rie A") = str "S" ++ [0xE9%N] ++ str "rie A" ∧
  omitSeparators (str "Se" ++ [0x301%N] ++ str "rie A") = str "A" ∧
  omitSeparators (str "Series A") = str "A".
Proof. vm_compute. repeat split. Qed.

(** ** White space *)

Lemma spaces_progress u p rest st :
  matchAt u (Repeat 1 None space) p rest = Some st → p < pos st.
Proof.
  unfold matchAt. cbn [matcher repeatMatcher Nat.eqb]. intros Hm.
  apply step_ext in Hm as (st1 & Hm & _ & Hlt). cbn [andb] in Hm.
  apply repeatMatcher_ext in Hm as (st2 & [= ->] & Hext%ext_pos).
  - cbn in Hlt. lia.
  - intros st' k res Hk. apply (matcher_ext u space) in Hk. done.
Qed.

Lemma collapseSpaces_length s : length (collapseSpaces s) ≤ length s.
Proof.
  unfold collapseSpaces. etrans; [apply trim_length|].
  apply replaceAll_length. intros p rest st Hm%spaces_progress. cbn. lia.
Qed.

Section Stages.
Context `{Host}.

(** ** Short words and articles *)

Lemma removeWords_length wordList : ∀ s before s',
  removeWords s wordList before = Ok s' → length s' ≤ length s.
Proof.
  induction wordList as [|word wordList IH]; intros s before s'; cbn [removeWords].
  - by intros [= <-].
  - destruct (RegExp_gu _) as [r|]; [|done]. cbn [JS.bind]. intros Hs'%IH.
    etrans; [done|]. apply replaceAll_group_length.
Qed.

Lemma removeShortWords_length s shortWords before s' :
  removeShortWords s shortWords before = Ok s' → length s' ≤ length s.
Proof. apply removeWords_length. Qed.

Lemma omitArticles_length s s' : omitArticles s = Ok s' → length s' ≤ length s.
Proof.
  unfold omitArticles. destruct (removeShortWords _ _ _) as [s1|] eqn:Hs1; [|done].
  cbn [JS.bind]. intros [= <-]. apply removeShortWords_length in Hs1.
  etrans; [|done]. apply replaceAll_group_length.
Qed.

(** ** The end of a match lies within the title *)

Lemma sum_length_concat (l : list jsstring) : sum_list (length <$> l) = length (concat l).
Proof. induction l as [|x l IH]; [done|]. cbn. rewrite length_app. lia. Qed.

(** The code units of the first [k] entries of [r0]. *)
Definition covered (r0 : list jsstring) (k : nat) : nat := length (concat (take k r0)).

Lemma covered_S r0 k :
  covered r0 (S k) = covered r0 k + match r0 !! k with Some x => length x | None => 0 end.
Proof.
  unfold covered. destruct (r0 !! k) as [x|] eqn:Hk.
  - rewrite (take_S_r _ _ _ Hk), concat_app, length_app. cbn. rewrite app_nil_r. lia.
  - apply lookup_ge_None in Hk. rewrite !take_ge by lia. lia.
Qed.

Lemma covered_all r0 k :
  covered r0 (S k) + sum_list (length <$> drop (S k) r0) = length (concat r0).
Proof.
  unfold covered. rewrite sum_length_concat, <- length_app, <- concat_app.
  by rewrite take_drop.
Qed.

Lemma skipUnmatched_covered r0 rj rj1 i r1 : ∀ ii iend ii' iend',
  skipUnmatched r0 rj rj1 r1 ii iend = Ok (ii', iend') →
  iend = i + covered r0 (S ii) → iend' = i + covered r0 (S ii').
Proof.
  induction r1 as [|x r1 IH]; intros ii iend ii' iend'; cbn [skipUnmatched]; [done|].
  destruct (_ && _).
  - destruct (r0 !! S ii) as [x0|] eqn:Hx; [|done]. intros Hs Hi.
    eapply IH; [done|]. rewrite (covered_S r0 (S ii)), Hx. lia.
  - by intros [= <- <-].
Qed.

Lemma walkReplacement_covered r0 r1 i replacement : ∀ ii iend abbr ii' iend' abbr',
  walkReplacement r0 r1 replacement ii iend abbr = Ok (ii', iend', abbr') →
  iend = i + covered r0 (S ii) → iend' = i + covered r0 (S ii').
Proof.
  assert (∀ n replacement, length replacement ≤ n →
            ∀ ii iend abbr ii' iend' abbr',
              walkReplacement r0 r1 replacement ii iend abbr = Ok (ii', iend', abbr') →
              iend = i + covered r0 (S ii) → iend' = i + covered r0 (S ii')) as Hn.
  { clear replacement. induction n as [|n IH]; intros replacement Hlen.
    - destruct replacement; [|cbn in Hlen; lia]. cbn. by intros ? ? ? ? ? ? [= <- <- <-].
    - destruct replacement as [|rj replacement']; [cbn; by intros ? ? ? ? ? ? [= <- <- <-]|].
      cbn [length] in Hlen. intros ii iend abbr ii' iend' abbr'. cbn [walkReplacement].
      case_bool_decide.
      { apply IH. lia. }
      destruct (skipUnmatched _ _ _ _ _ _) as [[ii1 iend1]|] eqn:Hskip; [|done].
      cbn [JS.bind]. intros Hw Hi.
      pose proof (skipUnmatched_covered _ _ _ i _ _ _ _ _ Hskip Hi) as Hi1.
      assert (match r0 !! S ii1 with Some x0 => iend1 + length x0 | None => iend1 end
              = i + covered r0 (S (S ii1))) as Hi2.
      { rewrite (covered_S r0 (S ii1)). destruct (r0 !! S ii1); lia. }
      destruct (cEquiv _ _).
      + eapply IH; [|done|done]. lia.
      + destruct replacement' as [|? replacement''].
        * injection Hw as <- <- <-. done.
        * eapply IH; [|done|done]. cbn [length] in Hlen. lia. }
  by apply (Hn (length replacement)).
Qed.

Lemma untilBoundary_length s : untilBoundary s ≤ length s.
Proof. induction s as [|c s IH]; [done|]. cbn. destruct (isBoundary c); lia. Qed.

(** No capture of a match found by [search] is longer than the input. *)
Lemma search_bounds u r : ∀ n rest p q st,
  length rest ≤ n →
  search u r p rest = Some (q, st) →
  ∀ g s, caps st !! g = Some s → length s ≤ length rest.
Proof.
  induction n as [|n IH]; intros rest p q st Hlen.
  - destruct rest; [|cbn in Hlen; lia]. cbn [search].
    destruct (matchAt u r p []) as [st'|] eqn:Hm; [|done]. intros [= <- <-] g s Hs.
    apply matchAt_bounds in Hm as (c & Hr & _ & Hc). apply Hc in Hs.
    apply (f_equal length) in Hr. rewrite length_app in Hr. lia.
  - destruct rest as [|a rest'].
    { cbn [search]. destruct (matchAt u r p []) as [st'|] eqn:Hm; [|done].
      intros [= <- <-] g s Hs.
      apply matchAt_bounds in Hm as (c & Hr & _ & Hc). apply Hc in Hs.
      apply (f_equal length) in Hr. rewrite length_app in Hr. lia. }
    cbn [length] in Hlen.
    change (search u r p (a :: rest')) with
      (match matchAt u r p (a :: rest') with
       | Some st => Some (p, st)
       | None =>
         match rest' with
         | b :: rest'' =>
           if u && isHighSurrogate a && isLowSurrogate b
           then search u r (p + 2) rest''
           else search u r (p + 1) rest'
         | [] => search u r (p + 1) rest'
         end
       end).
    destruct (matchAt u r p (a :: rest')) as [st'|] eqn:Hm.
    + intros [= <- <-] g s Hs.
      apply matchAt_bounds in Hm as (c & Hr & _ & Hc). apply Hc in Hs.
      apply (f_equal length) in Hr. rewrite length_app in Hr. lia.
    + destruct rest' as [|b rest''].
      * intros Hs g s Hg.
        assert (length s ≤ length (@nil N)) by (eapply IH; [|done|done]; cbn; lia).
        cbn in *. lia.
      * destruct (u && isHighSurrogate a && isLowSurrogate b); intros Hs g s Hg.
        -- assert (length s ≤ length rest'') by (eapply IH; [|done|done]; cbn in *; lia).
           cbn in *. lia.
        -- assert (length s ≤ length (b :: rest''))
             by (eapply IH; [|done|done]; cbn in *; lia).
           cbn in *. lia.
Qed.

(** Every match reported ends within [value]. *)
Lemma getPatternMatches_loop_bound value pattern pretendDash p replacement :
  ∀ rest0 i isPreviousCharBoundary found,
    length value = i + length rest0 →
    getPatternMatches_loop value pattern pretendDash p replacement rest0 i
      isPreviousCharBoundary = Ok found →
    Forall (λ m, m_iend m ≤ length value) found.
Proof.
  induction rest0 as [|c rest' IH]; intros i isPrev found Hi; cbn [getPatternMatches_loop].
  { by intros [= <-]. }
  cbn zeta. cbn [length] in Hi.
  assert (∀ found, getPatternMatches_loop value pattern pretendDash p replacement rest'
            (S i) (isBoundary c) = Ok found →
          Forall (λ m, m_iend m ≤ length value) found) as Hcont.
  { intros found'. apply IH. lia. }
  destruct (_ && _ && _); [by apply Hcont|].
  destruct (getCollatingMatch (c :: rest') p) as [[r0 r1]|] eqn:Hgcm; [|by apply Hcont].
  apply getCollatingMatch_spells in Hgcm as (_ & _ & Hpre).
  apply prefix_length in Hpre. cbn [length] in Hpre.
  destruct (r0 !! 0) as [x0|] eqn:Hx0; [|done].
  destruct (walkReplacement _ _ _ _ _ _) as [[[ii iend] abbr]|] eqn:Hwalk; [|done].
  cbn [JS.bind].
  eapply (walkReplacement_covered _ _ i) in Hwalk.
  2:{ rewrite (covered_S r0 0), Hx0. unfold covered. rewrite take_0. cbn. lia. }
  pose proof (covered_all r0 ii) as Hall.
  set (iend1 := iend + sum_list (length <$> drop (S ii) r0)) in *.
  assert (iend1 ≤ length value) as Hiend1 by lia.
  assert (∀ iend2 appendix found,
            iend2 ≤ length value →
            (found0 <-
               getPatternMatches_loop value pattern pretendDash p replacement rest'
                 (S i) (isBoundary c) ;;
             Ok ({| m_i := i; m_iend := iend2;
                    m_abbr := if bool_decide (replacement = [])
                              then substring value i iend2 else abbr;
                    m_pattern := pattern; m_appendix := appendix |} :: found0)) = Ok found →
            Forall (λ m, m_iend m ≤ length value) found) as Hreport.
  { intros iend2 appendix found' Hle.
    destruct (getPatternMatches_loop _ _ _ _ _ rest' _ _) as [found0|] eqn:Hf; [|done].
    cbn [JS.bind]. intros [= <-]. constructor; [done|]. by apply Hcont. }
  destruct (_ || _).
  - apply Hreport. pose proof (untilBoundary_length (substr value iend1)) as Hu.
    unfold substr in *. rewrite length_drop in Hu. lia.
  - destruct (search true ending 0 (substr value iend1)) as [[q st]|] eqn:Hsearch;
      [|by apply Hcont].
    apply Hreport. destruct (caps st !! 1) as [appendix|] eqn:Hcap; cbn; [|lia].
    eapply search_bounds in Hsearch; [|done|done].
    unfold substr in *. rewrite length_drop in Hsearch. lia.
Qed.

Lemma getPatternMatches_bound value pattern languages pretendDash found :
  getPatternMatches value pattern languages pretendDash = Ok found →
  Forall (λ m, m_iend m ≤ length value) found.
Proof.
  unfold getPatternMatches. destruct (_ && _); [by intros [= <-]|].
  apply getPatternMatches_loop_bound. done.
Qed.

Lemma allMatches_bound value patterns languages pretendDash : ∀ found,
  allMatches value patterns languages pretendDash = Ok found →
  Forall (λ m, m_iend m ≤ length value) found.
Proof.
  induction patterns as [|pattern patterns IH]; intros found; cbn [allMatches].
  { by intros [= <-]. }
  destruct (getPatternMatches _ _ _ _) as [f1|] eqn:H1; [|done]. cbn [JS.bind].
  destruct (allMatches _ _ _ _) as [f2|]; [|done]. cbn [JS.bind]. intros [= <-].
  apply Forall_app. split; [by eapply getPatternMatches_bound|by apply IH].
Qed.

End Stages.

(** ** The matches chosen, and their application *)

Lemma StronglySorted_impl {A} (R R' : A → A → Prop) l :
  (∀ a b, R a b → R' a b) → StronglySorted R l → StronglySorted R' l.
Proof.
  intros HR. induction 1 as [|x l Hl IH Hx]; constructor; [done|].
  eapply Forall_impl; [done|]. auto.
Qed.

(** The matches chosen are candidates, no two of them overlap, they stand
    in descending order of their start, and a candidate left out overlaps
    a chosen one whose priority value is not larger. *)
Lemma selectMatches_spec matches :
  let kept := selectMatches matches in
  (∀ m, m ∈ kept → m ∈ matches) ∧
  nonOverlapping kept ∧
  StronglySorted (λ a b, m_i b ≤ m_i a) kept ∧
  (∀ m, m ∈ matches →
        m ∈ kept ∨ ∃ k, k ∈ kept ∧ overlaps k m = true ∧ (getPriority k ≤ getPriority m)%Z).
Proof.
  unfold selectMatches. cbn zeta.
  set (byPriority := sort _ matches).
  assert (byPriority ≡ₚ matches) as Hperm1 by apply sort_Permutation.
  assert (StronglySorted (λ a b, getPriority a ≤ getPriority b)%Z byPriority) as Hsorted1.
  { apply sort_sorted. intros a b. lia. }
  destruct (resolveOverlaps_loop_spec _ (length byPriority) byPriority (le_n _) Hsorted1)
    as (Hsub & Hno & Hdrop).
  fold (resolveOverlaps byPriority) in Hsub, Hno, Hdrop.
  set (kept1 := resolveOverlaps byPriority) in *.
  set (kept := sort _ kept1).
  assert (kept ≡ₚ kept1) as Hperm2 by apply sort_Permutation.
  split_and!.
  - intros m Hm. rewrite Hperm2 in Hm. rewrite <- Hperm1. by eapply elem_of_sublist.
  - eapply nonOverlapping_Permutation; [symmetry; apply Hperm2|done].
  - eapply StronglySorted_impl; [|apply (sort_sorted _ (λ a, - Z.of_nat (m_i a))%Z)].
    + cbn. intros a b. lia.
    + intros a b. lia.
  - intros m Hm. rewrite <- Hperm1 in Hm. destruct (Hdrop m Hm) as [Hin|(k & Hk & Ho & Hp)].
    + left. by rewrite Hperm2.
    + right. exists k. by rewrite Hperm2.
Qed.

Lemma substring_0_length s i : i ≤ length s → length (substring s 0 i) = i.
Proof.
  intros Hi. unfold substring. rewrite Nat.max_r, Nat.min_l by lia.
  rewrite drop_0, length_take. lia.
Qed.

(** Applied from the right, the matches chosen only shorten the title. *)
Lemma applyMatches_length kept : ∀ result,
  nonOverlapping kept →
  StronglySorted (λ a b, m_i b ≤ m_i a) kept →
  Forall (λ m, m_i m < m_iend m → m_iend m ≤ length result) kept →
  length (foldl applyMatch result kept) ≤ length result.
Proof.
  induction kept as [|m kept IH]; intros result Hno Hsorted Hfit; [done|].
  cbn [foldl]. inversion Hno as [|? ? Hm Hno']; subst.
  apply StronglySorted_inv in Hsorted as [Hsorted' Hstart].
  apply Forall_cons in Hfit as [Hfit_m Hfit'].
  unfold applyMatch at 2. destruct (length (m_abbr m) <? m_iend m - m_i m) eqn:Hshort.
  - apply Nat.ltb_lt in Hshort. specialize (Hfit_m ltac:(lia)).
    set (result' := substring result 0 (m_i m) ++ m_abbr m ++ substr result (m_iend m)).
    assert (length result' = m_i m + length (m_abbr m) + (length result - m_iend m)) as Hlen.
    { unfold result', substr. rewrite !length_app, length_drop, substring_0_length; lia. }
    etrans; [apply IH; [done|done|]|lia].
    rewrite Forall_forall in Hm, Hstart, Hfit' |- *.
    intros m' Hin Hnonempty. specialize (Hm m' Hin). specialize (Hstart m' Hin).
    unfold overlaps in Hm. apply andb_false_iff in Hm as [Hm|Hm].
    + apply Nat.ltb_ge in Hm. lia.
    + apply Nat.ltb_ge in Hm. lia.
  - by apply IH.
Qed.

End PlannerFacts.

(** * The queries on an engine *)

Module QueryFacts.
Import Collation PrefixTree AbbrevIso PrefixTreeFacts RegExpFacts ConstructionFacts.
Import SelectionFacts PlannerFacts.

(** The first step of [makeAbbreviation] and [getMatchingPatterns]: the
    patterns given, or else the potential ones. *)
Definition patternsFor `{Host} (e : AbbrevIso) (value : jsstring) (pretendDash : bool)
    (patterns : option (list LTWAPattern)) : M (list LTWAPattern) :=
  match patterns with
  | Some given => ret given
  | None => getPotentialPatterns e value pretendDash
  end.

(** [makeAbbreviation] up to its last step, the one on white space. *)
Definition unspaced `{Host} (e : AbbrevIso) (value : jsstring)
    (languages : option (list jsstring)) (patterns : list LTWAPattern) : outcome jsstring :=
  let result := normalizePunctuation value in
  let result := omitSeparators result in
  result <- omitArticles result ;;
  preResult <- removeShortWords result (shortWords_ e) beforeOrStart ;;
  if negb (test true twoWords preResult) then Ok result
  else
    matches <- allMatches result patterns languages false ;;
    let result := foldl applyMatch result (selectMatches matches) in
    removeShortWords result (shortWords_ e) beforeOnly.

(** The host accepts the patterns [removeShortWords] builds from the
    words. *)
Definition accepts `{Host} (shortWords : list jsstring) (before : jsstring) : bool :=
  forallb (λ word, match RegExp_gu (before ++ word ++ str "\s") with
                   | Ok _ => true
                   | Throw _ => false
                   end)
    (shortWords ++ ((λ s, toUpperCase (charAt s 0) ++ substr s 1) <$> shortWords)).

Lemma mbind_ok {A B} (c : M A) (k : A → M B) h a h1 :
  c h = Ok (a, h1) → mbind c k h = k a h1.
Proof. unfold mbind. by intros ->. Qed.

Lemma mbind_inv {A B} (c : M A) (k : A → M B) h b h2 :
  mbind c k h = Ok (b, h2) → ∃ a h1, c h = Ok (a, h1) ∧ k a h1 = Ok (b, h2).
Proof. unfold mbind. destruct (c h) as [[a h1]|]; [|done]. eauto. Qed.

Lemma lift_inv {A} (c : outcome A) h a h1 : lift c h = Ok (a, h1) → c = Ok a ∧ h1 = h.
Proof. unfold lift. destruct c; [|done]. by intros [= -> ->]. Qed.

Lemma get_ok {V} (t : PrefixTree V) s :
  wf (root_ t) → clean s = true → ∃ r, get t s = Ok r.
Proof.
  intros Hwf Hs. destruct (wf_inv _ Hwf) as (m & b & Hroot & Hb).
  unfold get. rewrite Hroot in *. cbn [asMap JS.bind]. rewrite Hb. cbn [asArray JS.bind].
  rewrite (codePoints_clean s Hs).
  destruct (get_walk_ok s (VMap m) b Hwf Hs) as (r & -> & _). cbn [JS.bind]. by eexists.
Qed.

Lemma engine_ok_prefix e h h' : engine_ok e h → h `prefix_of` h' → engine_ok e h'.
Proof.
  intros (Hd & Hn & Hb) Hpre%prefix_length. unfold engine_ok. split_and!; [done..|lia].
Qed.

Section Facts.
Context `{Host}.

(** ** The potential patterns *)

(** On an engine as the constructor leaves it the loop never throws; the
    store only grows. *)
Lemma getPotentialPatterns_loop_ok e pretendDash s : ∀ isNewWord result h,
  engine_ok e h → result < length h → clean s = true →
  ∃ result' h', getPotentialPatterns_loop e pretendDash s isNewWord result h
                  = Ok (result', h') ∧
                result' < length h' ∧ h `prefix_of` h'.
Proof.
  induction s as [|c s IH]; intros isNewWord result h Hok Hres Hs.
  { exists result, h. done. }
  pose proof Hs as Hs'. cbn [clean forallb] in Hs'. apply andb_true_iff in Hs' as [_ Hs'].
  cbn [getPotentialPatterns_loop]. destruct (negb _).
  { by apply IH. }
  pose proof Hok as (Hd & Hn & Hb).
  destruct (get_ok (dictPatterns_ e) (c :: s) Hd Hs) as [fd Hfd].
  destruct (get_ok (nonprefixPatterns_ e) (c :: s) Hn Hs) as [fn Hfn].
  destruct (lookup_lt_is_Some_2 h result Hres) as [old Hold].
  set (first := if isNewWord || pretendDash then _ else _).
  assert (∃ r1 h1, first h = Ok (r1, h1) ∧ r1 < length h1 ∧ h `prefix_of` h1)
    as (r1 & h1 & Hfirst & Hr1 & Hpre).
  { unfold first. destruct (_ || _).
    - unfold mbind, lift, read, alloc. rewrite Hfd. cbn beta iota. rewrite Hold.
      eexists _, _. split; [done|]. rewrite length_app. cbn. split; [lia|].
      by apply prefix_app_r.
    - exists result, h. done. }
  erewrite mbind_ok by exact Hfirst.
  destruct (lookup_lt_is_Some_2 h1 r1 Hr1) as [old1 Hold1].
  erewrite (mbind_ok _ _ h1 fn h1) by (unfold lift; by rewrite Hfn).
  erewrite (mbind_ok _ _ h1 old1 h1) by (unfold read; by rewrite Hold1).
  erewrite (mbind_ok _ _ h1 (length h1) (h1 ++ [old1 ++ fn])) by done.
  destruct (IH false (length h1) (h1 ++ [old1 ++ fn])) as (r2 & h2 & Heq & Hr2 & Hpre2).
  - eapply engine_ok_prefix; [done|]. etrans; [done|]. by apply prefix_app_r.
  - rewrite length_app. cbn. lia.
  - done.
  - exists r2, h2. split; [done|]. split; [done|].
    etrans; [done|]. etrans; [|done]. by apply prefix_app_r.
Qed.

(** [getPotentialPatterns] never throws on such an engine. *)
Lemma getPotentialPatterns_ok e s pretendDash h :
  engine_ok e h →
  ∃ ps h', getPotentialPatterns e s pretendDash h = Ok (ps, h') ∧ engine_ok e h'.
Proof.
  intros Hok. pose proof Hok as (Hd & Hn & Hb). unfold getPotentialPatterns.
  destruct (getPotentialPatterns_loop_ok e pretendDash (promiscuouslyNormalize s) true
              (badPatterns_ e) h Hok Hb (promiscuouslyNormalize_clean s))
    as (r & h1 & Hloop & Hr & Hpre).
  erewrite mbind_ok by exact Hloop.
  destruct (lookup_lt_is_Some_2 h1 r Hr) as [elements Helements].
  erewrite (mbind_ok _ _ h1 elements h1) by (unfold read; by rewrite Helements).
  unfold mbind at 1. unfold write at 1. cbn beta iota.
  unfold mbind, read, ret. rewrite list_lookup_insert_eq by done.
  eexists _, _. split; [done|].
  pose proof (prefix_length _ _ Hpre). unfold engine_ok. rewrite length_insert.
  split_and!; [done..|lia].
Qed.

Lemma patternsFor_ok e value pretendDash patterns h :
  engine_ok e h →
  ∃ ps h', patternsFor e value pretendDash patterns h = Ok (ps, h') ∧ engine_ok e h'.
Proof.
  intros Hok. destruct patterns as [given|]; cbn [patternsFor].
  - by exists given, h.
  - by apply getPotentialPatterns_ok.
Qed.

(** ** The engine the constructor returns *)

Lemma addLines_ok ltwa : ∀ e h e' h',
  engine_ok e h → addLines e ltwa h = Ok (e', h') → engine_ok e' h'.
Proof.
  induction ltwa as [|line ltwa IH]; intros e h e' h' Hok; cbn [addLines].
  { by intros [= <- <-]. }
  destruct (length (trim line) =? 0); [by apply IH|].
  intros (pattern & h1 & (_ & ->)%lift_inv & (e1 & h2 & Hadd & Hrest)%mbind_inv)%mbind_inv.
  destruct (addPattern_ok e pattern h Hok) as (e1' & h2' & Hadd' & _ & _ & Hok1).
  rewrite Hadd in Hadd'. injection Hadd' as <- <-. by eapply IH.
Qed.

Lemma new_engine_ok ltwa shortWords h0 e h :
  new ltwa shortWords h0 = Ok (e, h) → engine_ok e h.
Proof.
  unfold new. intros (bad & h1 & [= <- <-] & (e1 & h2 & Hadd & [= <- <-])%mbind_inv)%mbind_inv.
  apply addLines_ok in Hadd; [done|].
  unfold engine_ok. split_and!; [apply wf_newNode..|]. cbn. rewrite length_app. cbn. lia.
Qed.

(** ** [makeAbbreviation] in two steps *)

Lemma makeAbbreviation_inv e value languages patterns h r h' :
  makeAbbreviation e value languages patterns h = Ok (r, h') →
  ∃ ps, patternsFor e value false patterns h = Ok (ps, h') ∧
        abbreviate e value languages ps = Ok r.
Proof.
  unfold makeAbbreviation. intros (ps & h1 & Hps & (Hab & ->)%lift_inv)%mbind_inv.
  by exists ps.
Qed.

Lemma makeAbbreviation_run e value languages patterns h ps h' r :
  patternsFor e value false patterns h = Ok (ps, h') →
  abbreviate e value languages ps = Ok r →
  makeAbbreviation e value languages patterns h = Ok (r, h').
Proof.
  intros Hps Hab. unfold makeAbbreviation. fold (patternsFor e value false patterns).
  erewrite mbind_ok by exact Hps. unfold lift. by rewrite Hab.
Qed.

Lemma abbreviate_unspaced e value languages patterns :
  abbreviate e value languages patterns =
    (result <- unspaced e value languages patterns ;; Ok (collapseSpaces result)).
Proof.
  unfold abbreviate, unspaced. cbn zeta.
  destruct (omitArticles _) as [result|]; [|done]. cbn [JS.bind].
  destruct (removeShortWords _ _ beforeOrStart) as [preResult|]; [|done]. cbn [JS.bind].
  destruct (negb _); [done|].
  destruct (allMatches _ _ _ _) as [matches|]; [|done]. done.
Qed.

(** ** The words the host accepts are removed without an error *)

Lemma removeWords_ok wordList : ∀ s before,
  forallb (λ word, match RegExp_gu (before ++ word ++ str "\s") with
                   | Ok _ => true
                   | Throw _ => false
                   end) wordList = true →
  ∃ s', removeWords s wordList before = Ok s'.
Proof.
  induction wordList as [|word wordList IH]; intros s before; cbn [removeWords forallb].
  - by exists s.
  - destruct (RegExp_gu _) as [r|]; [|done]. cbn [andb JS.bind]. apply IH.
Qed.

Lemma removeShortWords_ok s shortWords before :
  accepts shortWords before = true → ∃ s', removeShortWords s shortWords before = Ok s'.
Proof. apply removeWords_ok. Qed.

Lemma omitArticles_ok s :
  accepts articles beforeOrStart = true → ∃ s', omitArticles s = Ok s'.
Proof.
  intros Hacc. unfold omitArticles.
  destruct (removeShortWords_ok s _ _ Hacc) as [s1 ->]. cbn [JS.bind]. by eexists.
Qed.

(** ** The abbreviation is no longer than the title *)

Lemma unspaced_length e value languages patterns r :
  unspaced e value languages patterns = Ok r →
  length r ≤ length (normalizePunctuation value).
Proof.
  unfold unspaced. cbn zeta.
  pose proof (omitSeparators_length (normalizePunctuation value)) as H1.
  destruct (omitArticles _) as [result|] eqn:Hart; [|done]. cbn [JS.bind].
  apply omitArticles_length in Hart.
  destruct (removeShortWords _ _ beforeOrStart) as [preResult|]; [|done]. cbn [JS.bind].
  destruct (negb _).
  { intros [= <-]. lia. }
  destruct (allMatches _ _ _ _) as [matches|] eqn:Hall; [|done]. cbn [JS.bind].
  apply allMatches_bound in Hall.
  destruct (selectMatches_spec matches) as (Hin & Hno & Hsorted & _).
  intros Hr%removeShortWords_length.
  assert (length (foldl applyMatch result (selectMatches matches)) ≤ length result).
  { apply applyMatches_length; [done..|].
    rewrite Forall_forall in Hall |- *. intros m Hm _. by apply Hall, Hin. }
  lia.
Qed.

Lemma abbreviate_length e value languages patterns r :
  abbreviate e value languages patterns = Ok r →
  length r ≤ length (normalizePunctuation value).
Proof.
  rewrite abbreviate_unspaced.
  destruct (unspaced _ _ _ _) as [x|] eqn:Hx; [|done]. cbn [JS.bind]. intros [= <-].
  apply unspaced_length in Hx. pose proof (collapseSpaces_length x). lia.
Qed.

(** A match applied within the title shortens it, strictly. *)
Lemma applyMatch_shortens result m :
  m_iend m ≤ length result →
  applyMatch result m = result ∨
  (length (m_abbr m) < m_iend m - m_i m ∧ length (applyMatch result m) < length result).
Proof.
  intros Hfit. unfold applyMatch.
  destruct (length (m_abbr m) <? m_iend m - m_i m) eqn:Hshort; [|by left].
  apply Nat.ltb_lt in Hshort. right. split; [done|].
  unfold substr. rewrite !length_app, length_drop, substring_0_length; lia.
Qed.

End Facts.
End QueryFacts.

(** * White space: the last step of [makeAbbreviation] *)

Module WhiteSpaceFacts.
Import AbbrevIso RegExpFacts.

(** The white space at the head of a string. *)
Fixpoint run (s : jsstring) : nat :=
  match s with
  | a :: s' => if isWhiteSpace a then S (run s') else 0
  | [] => 0
  end.

(** Every white space of [s] is one space that follows no white space;
    [previous] tells whether white space stands before [s]. *)
Fixpoint spaced (previous : bool) (s : jsstring) : bool :=
  match s with
  | [] => true
  | a :: s' =>
    if isWhiteSpace a then (a =? 32)%N && negb previous && spaced true s'
    else spaced false s'
  end.

Lemma isWhiteSpace_bmp c :
  isWhiteSpace c = true → (c < 0xD800 ∨ 0xDFFF < c ∧ c < 0x10000)%N.
Proof.
  unfold isWhiteSpace, inRanges, whiteSpace. cbn [existsb fst snd].
  rewrite !orb_true_iff, !andb_true_iff, !N.leb_le. lia.
Qed.

Lemma isWhiteSpace_high c : isWhiteSpace c = true → isHighSurrogate c = false.
Proof.
  intros Hc%isWhiteSpace_bmp. unfold isHighSurrogate.
  apply andb_false_iff. rewrite !N.leb_gt. lia.
Qed.

Lemma isLowSurrogate_not_space c : isLowSurrogate c = true → isWhiteSpace c = false.
Proof.
  unfold isLowSurrogate. rewrite andb_true_iff, !N.leb_le. intros Hc.
  destruct (isWhiteSpace c) eqn:Hw; [|done]. apply isWhiteSpace_bmp in Hw. lia.
Qed.

Lemma headChar_space u a s : isWhiteSpace a = true → headChar u (a :: s) = Some (a, 1).
Proof.
  intros Ha%isWhiteSpace_high. cbn [headChar]. destruct s; [done|].
  by rewrite Ha, andb_false_r.
Qed.

(** The character at a head that is no white space is none either, and
    neither are the code units it takes. *)
Lemma headChar_not_space u a s c w :
  isWhiteSpace a = false → headChar u (a :: s) = Some (c, w) →
  isWhiteSpace c = false ∧ 1 ≤ w ∧ w ≤ length (a :: s) ∧
  Forall (λ x, isWhiteSpace x = false) (take w (a :: s)).
Proof.
  intros Ha. cbn [headChar]. destruct s as [|b s].
  { intros [= <- <-]. cbn. split_and!; [done|lia..|by constructor]. }
  destruct (u && isHighSurrogate a && isLowSurrogate b) eqn:Hpair.
  - intros [= <- <-]. apply andb_true_iff in Hpair as [_ Hb].
    split_and!; [|cbn; lia..|].
    + destruct (isWhiteSpace (codePointValue [a; b])) eqn:Hw; [|done].
      apply isWhiteSpace_bmp in Hw. cbn [codePointValue] in Hw. lia.
    + cbn. repeat constructor; [done|by apply isLowSurrogate_not_space].
  - intros [= <- <-]. cbn. split_and!; [done|lia..|by repeat constructor].
Qed.

Lemma run_length s : run s ≤ length s.
Proof.
  induction s as [|a s IH]; cbn [run length]; [lia|].
  destruct (isWhiteSpace a); lia.
Qed.

Lemma run_drop_run s : run (drop (run s) s) = 0.
Proof.
  induction s as [|a s IH]; [done|]. cbn [run]. destruct (isWhiteSpace a) eqn:Ha.
  - cbn [drop]. apply IH.
  - rewrite drop_0. cbn [run]. by rewrite Ha.
Qed.

Section Matcher.
Context (u : bool).

Lemma matcher_space st k : matcher u space st k = step u isWhiteSpace st k.
Proof. done. Qed.

Lemma repeatMatcher_S body ns fuel min st k :
  repeatMatcher body ns (S fuel) min None st k =
    let iteration :=
      body (resetCaptures ns st)
        (λ st1, if (min =? 0) && (pos st1 =? pos st) then None
                else repeatMatcher body ns fuel (Nat.pred min) None st1 k) in
    if min =? 0 then
      match iteration with
      | Some res => Some res
      | None => k st
      end
    else iteration.
Proof. done. Qed.

(** After its first iteration the quantifier takes the white space that
    follows. *)
Lemma repeat_space_more : ∀ fuel st,
  length (rest st) < fuel →
  repeatMatcher (matcher u space) [] fuel 0 None st Some =
    Some {| pos := pos st + run (rest st); rest := drop (run (rest st)) (rest st);
            caps := caps st |}.
Proof.
  induction fuel as [|fuel IH]; intros [p s c] Hfuel; [lia|].
  rewrite repeatMatcher_S. cbn zeta. cbn [Nat.eqb Nat.pred]. rewrite matcher_space.
  unfold step, resetCaptures. cbn [pos rest caps foldr] in *.
  destruct s as [|a s].
  { cbn [headChar run]. rewrite drop_0. do 2 f_equal. lia. }
  destruct (isWhiteSpace a) eqn:Ha.
  - rewrite (headChar_space u a s Ha), Ha.
    replace (p + 1 =? p) with false by (symmetry; apply Nat.eqb_neq; lia).
    cbn [andb drop]. rewrite drop_0.
    rewrite IH by (cbn [rest length] in *; lia).
    cbn [pos rest caps run drop]. rewrite Ha. cbn [drop]. do 2 f_equal. lia.
  - cbn [run]. rewrite Ha, drop_0.
    destruct (headChar u (a :: s)) as [[x w]|] eqn:Hh.
    + apply (headChar_not_space u a s x w Ha) in Hh as (Hx & _).
      rewrite Hx. do 2 f_equal. lia.
    + do 2 f_equal. lia.
Qed.

(** A match of [\s+] takes the white space at the head, if there is any. *)
Lemma matchAt_spaces p s :
  matchAt u (Repeat 1 None space) p s =
    if run s =? 0 then None
    else Some {| pos := p + run s; rest := drop (run s) s; caps := ∅ |}.
Proof.
  unfold matchAt. cbn [matcher]. change (groups space) with (@nil nat).
  rewrite repeatMatcher_S. cbn zeta. cbn [Nat.eqb Nat.pred rest]. rewrite matcher_space.
  unfold step, resetCaptures. cbn [pos rest caps foldr]. destruct s as [|a s]; [done|].
  destruct (isWhiteSpace a) eqn:Ha.
  - rewrite (headChar_space u a s Ha), Ha.
    cbn [andb drop]. rewrite drop_0.
    rewrite repeat_space_more by (cbn [rest length]; lia).
    cbn [pos rest caps run drop]. rewrite Ha. cbn [Nat.eqb drop]. do 2 f_equal. lia.
  - cbn [run]. rewrite Ha. cbn [Nat.eqb].
    destruct (headChar u (a :: s)) as [[x w]|] eqn:Hh; [|done].
    apply (headChar_not_space u a s x w Ha) in Hh as (Hx & _).
    by rewrite Hx.
Qed.

Lemma advance_not_space a s :
  isWhiteSpace a = false →
  1 ≤ advance u (a :: s) ∧
  Forall (λ x, isWhiteSpace x = false) (take (advance u (a :: s)) (a :: s)).
Proof.
  intros Ha. unfold advance. destruct (headChar u (a :: s)) as [[x w]|] eqn:Hh.
  - by apply (headChar_not_space u a s x w Ha) in Hh as (_ & ? & _ & ?).
  - split; [lia|]. cbn. rewrite take_0. by repeat constructor.
Qed.

End Matcher.

Lemma spaced_weaken previous s : spaced previous s = true → spaced false s = true.
Proof.
  destruct s as [|a s]; [done|]. cbn [spaced]. destruct (isWhiteSpace a); [|done].
  rewrite !andb_true_iff. intros [[-> _] ->]. done.
Qed.

Lemma spaced_not_space previous x y :
  Forall (λ c, isWhiteSpace c = false) x → x ≠ [] →
  spaced previous (x ++ y) = spaced false y.
Proof.
  intros Hx. revert previous. induction Hx as [|a x Ha Hx IH]; intros previous Hne; [done|].
  cbn [app spaced]. rewrite Ha. destruct x as [|b x]; [done|]. by apply IH.
Qed.

Lemma spaced_app_l previous x y : spaced previous (x ++ y) = true → spaced previous x = true.
Proof.
  revert previous. induction x as [|a x IH]; intros previous; [done|].
  cbn [app spaced]. destruct (isWhiteSpace a); [|apply IH].
  rewrite !andb_true_iff. intros [[-> ->] Hy]. split; [done|]. by eapply IH.
Qed.

Lemma spaced_app_r previous x y : spaced previous (x ++ y) = true → spaced false y = true.
Proof.
  revert previous. induction x as [|a x IH]; intros previous.
  - apply spaced_weaken.
  - cbn [app spaced]. destruct (isWhiteSpace a); [|apply IH].
    rewrite !andb_true_iff. intros [_ Hy]. by eapply IH.
Qed.

(** ** The replacement of [\s+] by one space *)

Lemma collapse_spaced : ∀ fuel p s previous,
  length s < fuel → (previous = true → run s = 0) →
  spaced previous
    (replaceAll_loop true (Repeat 1 None space) [TLit (str " ")] fuel p s) = true.
Proof.
  induction fuel as [|fuel IH]; intros p s previous Hfuel Hprev; [lia|].
  cbn [replaceAll_loop]. rewrite matchAt_spaces.
  destruct (run s =? 0) eqn:Hrun.
  - destruct s as [|a s]; [done|].
    assert (isWhiteSpace a = false) as Ha.
    { cbn [run] in Hrun. by destruct (isWhiteSpace a). }
    destruct (advance_not_space true a s Ha) as [Hw Hnot].
    rewrite spaced_not_space; [|done|].
    + apply IH; [|done]. rewrite length_drop. cbn [length] in *. lia.
    + destruct (advance true (a :: s)); [lia|done].
  - apply Nat.eqb_neq in Hrun. cbn [pos].
    replace (p + run s - p) with (run s) by lia.
    destruct (run s =? 0) eqn:Hrun'; [apply Nat.eqb_eq in Hrun'; lia|].
    cbn [expand fmap list_fmap concat]. rewrite app_nil_r.
    change (str " ") with [32%N]. cbn [app spaced].
    destruct previous; [specialize (Hprev eq_refl); lia|].
    change (isWhiteSpace 32) with true. change (32 =? 32)%N with true. cbn [andb negb].
    apply IH; [|intros _; apply run_drop_run].
    pose proof (run_length s). rewrite length_drop. lia.
Qed.


(** ** [trim] *)

Lemma trimStart_fixed a s : isWhiteSpace a = false → trimStart (a :: s) = a :: s.
Proof. intros Ha. cbn [trimStart]. by rewrite Ha. Qed.

Lemma trimStart_head s :
  trimStart s = [] ∨ ∃ a s', trimStart s = a :: s' ∧ isWhiteSpace a = false.
Proof.
  induction s as [|a s IH]; [by left|]. cbn [trimStart].
  destruct (isWhiteSpace a) eqn:Ha; [done|]. right. eauto.
Qed.

Lemma trimStart_idem s : trimStart (trimStart s) = trimStart s.
Proof.
  destruct (trimStart_head s) as [->|(a & s' & -> & Ha)]; [done|].
  by apply trimStart_fixed.
Qed.

Lemma trimEnd_prefix s : trimEnd s `prefix_of` s.
Proof.
  unfold trimEnd. destruct (trimStart_suffix (reverse s)) as [k Hk].
  exists (reverse k). apply (inj reverse). by rewrite reverse_app, !reverse_involutive.
Qed.

Lemma trimEnd_idem s : trimEnd (trimEnd s) = trimEnd s.
Proof. unfold trimEnd. by rewrite reverse_involutive, trimStart_idem. Qed.

Lemma trim_idem s : trim (trim s) = trim s.
Proof.
  unfold trim.
  assert (trimStart (trimEnd (trimStart s)) = trimEnd (trimStart s)) as ->.
  { destruct (trimStart_head s) as [->|(a & s' & -> & Ha)]; [done|].
    destruct (trimEnd_prefix (a :: s')) as [k Hk].
    destruct (trimEnd (a :: s')) as [|b t]; [done|].
    injection Hk as <- _. by apply trimStart_fixed. }
  apply trimEnd_idem.
Qed.

Lemma trim_spaced previous s : spaced previous s = true → spaced false (trim s) = true.
Proof.
  intros Hs. unfold trim.
  destruct (trimEnd_prefix (trimStart s)) as [k Hk].
  destruct (trimStart_suffix s) as [k' Hk'].
  rewrite Hk' in Hs. apply spaced_app_r in Hs. rewrite Hk in Hs.
  by apply spaced_app_l in Hs.
Qed.

(** ** [collapseSpaces] *)

Lemma collapseSpaces_spaced s : spaced false (collapseSpaces s) = true.
Proof.
  unfold collapseSpaces. apply (trim_spaced false). unfold replaceAll.
  apply collapse_spaced; [lia|done].
Qed.


End WhiteSpaceFacts.

(** * Titles that [makeAbbreviation] returns as they are *)

Module StableFacts.
Import JS RegExp Collation AbbrevIso RegExpFacts SelectionFacts PlannerFacts QueryFacts.
Import WhiteSpaceFacts.

(** ** Patterns that need a character *)









(** ** Replacing where nothing matches *)





(** ** The steps of [makeAbbreviation] *)







Section Steps.
Context `{Host}.






End Steps.
End StableFacts.

(** * The claims about the queries *)

Module QueryClaims.
Import Collation PrefixTree AbbrevIso RegExpFacts ConstructionFacts SelectionFacts.
Import PlannerFacts QueryFacts WhiteSpaceFacts StableFacts ConstructionClaims.

(** An engine for the examples, on the Basic Latin host: the one built
    from the given LTWA and short words in an empty store, with that
    store. *)
Definition built (ltwa shortWords : lines) : AbbrevIso * heap :=
  match new (H := BasicLatin.host) ltwa shortWords [] with
  | Ok p => p
  | Throw _ =>
    ({| badPatterns_ := 0; nonprefixPatterns_ := PrefixTree.new;
        dictPatterns_ := PrefixTree.new; size_ := 0; shortWords_ := [] |}, [])
  end.

(** The value a run returns, and the store it leaves. *)
Definition returned {A} (o : outcome (A * heap)) : outcome A :=
  ' (a, _) <- o ;; Ok a.
Definition store_after {A} (o : outcome (A * heap)) : heap :=
  match o with
  | Ok (_, h) => h
  | Throw _ => []
  end.

Definition record3 (pattern replacement languages : string) : jsstring :=
  str pattern ++ tab ++ str replacement ++ tab ++ str languages.
Definition plain (self : nat) (pattern replacement languages : string) : LTWAPattern :=
  {| self := self; pattern := str pattern; replacement := str replacement;
     languages := [str languages]; startDash := false; endDash := false;
     line := record3 pattern replacement languages |}.

(** An LTWA of three patterns of two words each, chained over the title
    [aaaaa bbb cccc dd], and the three matches. *)
Definition C2_ltwa : lines :=
  Lines [str "WORDS"; record3 "aaaaa bbb" "a. b." "eng"; record3 "bbb cccc" "b. c." "eng";
         record3 "cccc dd" "c. d." "eng"].
Definition C2_title : jsstring := str "aaaaa bbb cccc dd".
Definition C2_A : Match :=
  {| m_i := 0; m_iend := 9; m_abbr := str "a. b.";
     m_pattern := plain 0 "aaaaa bbb" "a. b." "eng"; m_appendix := [] |}.
Definition C2_B : Match :=
  {| m_i := 6; m_iend := 14; m_abbr := str "b. c.";
     m_pattern := plain 1 "bbb cccc" "b. c." "eng"; m_appendix := [] |}.
Definition C2_C : Match :=
  {| m_i := 10; m_iend := 17; m_abbr := str "c. d.";
     m_pattern := plain 2 "cccc dd" "c. d." "eng"; m_appendix := [] |}.

(** An LTWA whose one replacement has letters the pattern lacks. *)
Definition C6_ltwa : lines := Lines [str "WORDS"; record3 "abc" "xyz" "eng"].
Definition C6_title : jsstring := str "abc def".

(** An LTWA of two patterns that begin with an apostrophe, in descending
    order. *)
Definition C7_ltwa : lines :=
  Lines [str "WORDS"; record3 "'zzz" "z." "und"; record3 "'aaa" "a." "und"].

(** An LTWA without records. *)
Definition empty_ltwa : lines := Lines [str "WORDS"].

(** ** C2 *)

(** C2, as amended.  The candidates are sorted by ascending priority value
    and gone through in that order; a candidate is kept when its span
    strictly intersects the span of no candidate kept before it.  So the
    matches kept (and hence those applied) are candidates no two of which
    overlap, and a candidate left out overlaps a kept one whose priority
    value is not larger.  (A candidate is kept even if it overlaps one of
    smaller priority value that was itself left out.) *)
Theorem C2_kept_matches_do_not_overlap (matches : list Match) :
  let kept := selectMatches matches in
  (∀ m, m ∈ kept → m ∈ matches) ∧
  nonOverlapping kept ∧
  (∀ m, m ∈ matches →
        m ∈ kept ∨ ∃ k, k ∈ kept ∧ overlaps k m = true ∧ (getPriority k ≤ getPriority m)%Z).
Proof.
  destruct (selectMatches_spec matches) as (H1 & H2 & _ & H4). by split_and!.
Qed.

(** C2 as stated fails: the matches B and C overlap and C has the larger
    priority value, yet C is kept and applied, because B was left out for
    overlapping A. *)
Lemma C2_counterexample_chain :
  let H := BasicLatin.host in
  let (e, h) := built C2_ltwa (Lines []) in
  new C2_ltwa (Lines []) [] = Ok (e, h) ∧
  returned (getPotentialPatterns e C2_title false h) = Ok (m_pattern <$> [C2_A; C2_B; C2_C]) ∧
  omitArticles (omitSeparators (normalizePunctuation C2_title)) = Ok C2_title ∧
  allMatches C2_title (m_pattern <$> [C2_A; C2_B; C2_C]) None false = Ok [C2_A; C2_B; C2_C] ∧
  overlaps C2_B C2_C = true ∧
  (getPriority C2_B < getPriority C2_C)%Z ∧
  selectMatches [C2_A; C2_B; C2_C] = [C2_C; C2_A] ∧
  applyMatch C2_title C2_C = str "aaaaa bbb c. d." ∧
  returned (makeAbbreviation e C2_title None None h) = Ok (str "a. b. c. d.").
Proof. vm_compute. repeat split. Qed.

(** ** C3 *)

(** C3.  Whenever [makeAbbreviation] returns, what it returns is no longer
    than the title after the punctuation rules; and a match that ends
    within the title is either left alone, or its abbreviation is shorter
    than its span and applying it shortens the title. *)
Theorem C3_abbreviation_not_longer `{Host} (e : AbbrevIso) (value : jsstring)
    (languages : option (list jsstring)) (patterns : option (list LTWAPattern))
    (h : heap) (r : jsstring) (h' : heap) :
  makeAbbreviation e value languages patterns h = Ok (r, h') →
  length r ≤ length (normalizePunctuation value) ∧
  ∀ result m, m_iend m ≤ length result →
    applyMatch result m = result ∨
    (length (m_abbr m) < m_iend m - m_i m ∧ length (applyMatch result m) < length result).
Proof.
  intros (ps & _ & Hab)%makeAbbreviation_inv. split.
  - by eapply abbreviate_length.
  - apply applyMatch_shortens.
Qed.

Lemma C3_abbreviation_not_longer_witness :
  let H := BasicLatin.host in
  length (str "a. b. c. d.") ≤ length (normalizePunctuation C2_title) ∧
  ∀ result m, m_iend m ≤ length result →
    applyMatch result m = result ∨
    (length (m_abbr m) < m_iend m - m_i m ∧ length (applyMatch result m) < length result).
Proof.
  intros H.
  apply (C3_abbreviation_not_longer (built C2_ltwa (Lines [])).1 C2_title None None
           (built C2_ltwa (Lines [])).2 (str "a. b. c. d.")
           (store_after (makeAbbreviation (built C2_ltwa (Lines [])).1 C2_title None None
                           (built C2_ltwa (Lines [])).2))).
  vm_compute. reflexivity.
Defined.

(** ** C6 *)

(** C6 fails on the code: with the record [abc / xyz] in the LTWA, the
    pattern is found for the title [abc def] and matches at its start, and
    the walk along the replacement steps past the end of the match looking
    for an [x]; [getPatternMatches], [getMatchingPatterns] and
    [makeAbbreviation] throw a TypeError. *)
Example C6_queries_throw :
  let H := BasicLatin.host in
  let (e, h) := built C6_ltwa (Lines []) in
  new C6_ltwa (Lines []) [] = Ok (e, h) ∧
  returned (getPotentialPatterns e C6_title false h) = Ok [plain 0 "abc" "xyz" "eng"] ∧
  getCollatingMatch C6_title (str "abc")
    = Some ([str "a"; str "b"; str "c"], [str "a"; str "b"; str "c"]) ∧
  getPatternMatches C6_title (plain 0 "abc" "xyz" "eng") None false = Throw TypeError ∧
  returned (getMatchingPatterns e C6_title None false None h) = Throw TypeError ∧
  returned (makeAbbreviation e C6_title None None h) = Throw TypeError.
Proof. vm_compute. repeat split. Qed.

(** ** C7 *)

(** C7 fails on the code: for a title without a letter the Array that
    [getPotentialPatterns] sorts is the very Array of the bad patterns of
    the engine, and its elements change places. *)
Example C7_query_reorders_badPatterns :
  let H := BasicLatin.host in
  let (e, h) := built C7_ltwa (Lines []) in
  let zzz := {| self := 0; pattern := str "'zzz"; replacement := str "z.";
                languages := [str "und"]; startDash := false; endDash := false;
                line := record3 "'zzz" "z." "und" |} in
  let aaa := {| self := 1; pattern := str "'aaa"; replacement := str "a.";
                languages := [str "und"]; startDash := false; endDash := false;
                line := record3 "'aaa" "a." "und" |} in
  new C7_ltwa (Lines []) [] = Ok (e, h) ∧
  h !! badPatterns_ e = Some [zzz; aaa] ∧
  returned (getPotentialPatterns e (str "") false h) = Ok [aaa; zzz] ∧
  store_after (getPotentialPatterns e (str "") false h) !! badPatterns_ e = Some [aaa; zzz] ∧
  returned (makeAbbreviation e (str "") None None h) = Ok (str "") ∧
  store_after (makeAbbreviation e (str "") None None h) !! badPatterns_ e = Some [aaa; zzz].
Proof. vm_compute. repeat split. Qed.

(** ** C9 *)

Section Titles.
Context `{Host}.

Lemma normalizePunctuation_empty value :
  trim (normalize_NFC value) = [] → normalizePunctuation value = [].
Proof. unfold normalizePunctuation. cbn zeta. intros ->. vm_compute. reflexivity. Qed.

(** C9, as amended.  On an engine as the constructor leaves it and a host
    that accepts the patterns made from the articles and the short words,
    the removal of the articles and of the short words returns, and
    - for a title that is empty once in the form NFC and trimmed, what is
      left is empty;
    - for a title in which, after the removal of the short words, no two
      characters stand on either side of a boundary, [makeAbbreviation]
      returns the title as the punctuation rules and the removal of
      separators and articles leave it, its white space collapsed and
      trimmed. *)
Theorem C9_single_word_title (e : AbbrevIso) (value : jsstring)
    (languages : option (list jsstring)) (patterns : option (list LTWAPattern))
    (h : heap) :
  engine_ok e h →
  accepts articles beforeOrStart = true →
  accepts (shortWords_ e) beforeOrStart = true →
  ∃ result preResult,
    omitArticles (omitSeparators (normalizePunctuation value)) = Ok result ∧
    removeShortWords result (shortWords_ e) beforeOrStart = Ok preResult ∧
    (trim (normalize_NFC value) = [] →
       collapseSpaces result = [] ∧ test true twoWords preResult = false) ∧
    (test true twoWords preResult = false →
       ∃ h', makeAbbreviation e value languages patterns h = Ok (collapseSpaces result, h')).
Proof.
  intros Hok Harticles Hwords.
  destruct (omitArticles_ok (omitSeparators (normalizePunctuation value)) Harticles)
    as [result Hresult].
  destruct (removeShortWords_ok result _ _ Hwords) as [preResult HpreResult].
  exists result, preResult. split_and!; [done|done|..].
  - intros Hempty%normalizePunctuation_empty. rewrite Hempty in Hresult.
    apply omitArticles_length in Hresult. apply removeShortWords_length in HpreResult.
    change (length (omitSeparators [])) with 0 in Hresult.
    destruct result; [|cbn in Hresult; lia]. destruct preResult; [|cbn in HpreResult; lia].
    split; vm_compute; reflexivity.
  - intros Hsingle.
    destruct (patternsFor_ok e value false patterns h Hok) as (ps & h' & Hps & _).
    exists h'. eapply makeAbbreviation_run; [done|].
    unfold abbreviate. cbn zeta. rewrite Hresult. cbn [JS.bind].
    rewrite HpreResult. cbn [JS.bind]. by rewrite Hsingle.
Qed.

(** ** C5 *)


End Titles.

(** C9 as stated fails: the title of one period is returned as one
    comma. *)
Lemma C9_counterexample_period :
  let H := BasicLatin.host in
  let (e, h) := built empty_ltwa (Lines []) in
  new empty_ltwa (Lines []) [] = Ok (e, h) ∧
  trim (normalize_NFC (str ".")) = str "." ∧
  removeShortWords (str ",") (shortWords_ e) beforeOrStart = Ok (str ",") ∧
  test true twoWords (str ",") = false ∧
  returned (makeAbbreviation e (str ".") None None h) = Ok (str ",").
Proof. vm_compute. repeat split. Qed.

Lemma C9_single_word_title_witness :
  let H := BasicLatin.host in
  ∃ h', makeAbbreviation (built C2_ltwa (Lines [])).1 (str " Nature ") None None
          (built C2_ltwa (Lines [])).2 = Ok (str "Nature", h').
Proof.
  intros H.
  destruct (C9_single_word_title (built C2_ltwa (Lines [])).1 (str " Nature ") None None
              (built C2_ltwa (Lines [])).2)
    as (result & preResult & Hresult & HpreResult & _ & Hsingle).
  - apply (new_engine_ok C2_ltwa (Lines []) []). vm_compute. reflexivity.
  - vm_compute. reflexivity.
  - vm_compute. reflexivity.
  - vm_compute in Hresult. injection Hresult as <-.
    vm_compute in HpreResult. injection HpreResult as <-.
    destruct Hsingle as [h' Hrun]; [vm_compute; reflexivity|].
    exists h'. rewrite Hrun. vm_compute. reflexivity.
Defined.


(** An ordinary result is not returned again: the period of an abbreviated
    word comes back as a comma. *)
Example C5_abbreviated_word_changes :
  let H := BasicLatin.host in
  let (e, h) := built C2_ltwa (Lines []) in
  let first := makeAbbreviation e (str "aaaaa bbb") None None h in
  returned first = Ok (str "a. b.") ∧
  returned (makeAbbreviation e (str "a. b.") None None (store_after first)) = Ok (str "a, b,").
Proof. vm_compute. repeat split. Qed.


End QueryClaims.

(** * Further properties of collation.js *)

Module CollationMore.
Import Collation RegExpFacts CollationFacts.

(** ** Removing a character or a class of characters *)

Lemma matchAt_nil (u : bool) (r : regex) p :
  (∀ st k, rest st = [] → matcher u r st k = None) → matchAt u r p [] = None.
Proof. intros Hr. unfold matchAt. by apply Hr. Qed.

Lemma matchAt_Char_units c p a s :
  matchAt false (Char c) p (a :: s) =
    if (a =? c)%N then Some {| pos := p + 1; rest := s; caps := ∅ |} else None.
Proof. unfold matchAt. cbn [matcher]. unfold step. cbn [rest]. by rewrite headChar_units. Qed.

(** Without the flag [u], removing a character leaves none of it. *)
Lemma replaceAll_loop_remove_char c :
  ∀ fuel p rest,
    length rest < fuel →
    Forall (λ x, x ≠ c) (replaceAll_loop false (Char c) [] fuel p rest).
Proof.
  induction fuel as [|fuel IH]; intros p rest Hfuel; [lia|].
  cbn [replaceAll_loop]. destruct rest as [|a rest'].
  { unfold matchAt. cbn. constructor. }
  cbn [length] in Hfuel.
  rewrite matchAt_Char_units, advance_units. cbn [drop take].
  rewrite take_0, drop_0.
  destruct (a =? c)%N eqn:Ha.
  - cbn [pos]. replace (p + 1 - p) with 1 by lia.
    cbn [Nat.eqb expand fmap list_fmap concat app drop].
    rewrite drop_0. apply IH. lia.
  - apply N.eqb_neq in Ha. constructor; [done|]. apply IH. lia.
Qed.

Section ClassRemoval.
(** A class of characters of the Basic Multilingual Plane that are no
    surrogates. *)
Context (ranges : list (N * N)).
Context (Hbmp : ∀ c, inRanges ranges c = true → (c < 0xD800 ∨ 0xDFFF < c ∧ c < 0x10000)%N).

Lemma headChar_inside u a s : inRanges ranges a = true → headChar u (a :: s) = Some (a, 1).
Proof using Hbmp.
  intros Ha%Hbmp. cbn [headChar]. destruct s as [|b s]; [done|].
  assert (isHighSurrogate a = false) as ->; [|by rewrite andb_false_r].
  unfold isHighSurrogate. apply andb_false_iff. rewrite !N.leb_gt. lia.
Qed.

Lemma headChar_outside u a s c w :
  inRanges ranges a = false → headChar u (a :: s) = Some (c, w) →
  inRanges ranges c = false ∧ 1 ≤ w ∧
  Forall (λ x, inRanges ranges x = false) (take w (a :: s)).
Proof using Hbmp.
  intros Ha. cbn [headChar]. destruct s as [|b s].
  { intros [= <- <-]. split_and!; [done|lia|]. cbn [take]. rewrite ?take_0. by constructor. }
  destruct (u && isHighSurrogate a && isLowSurrogate b) eqn:Hpair.
  - intros [= <- <-]. apply andb_true_iff in Hpair as [_ Hb].
    unfold isLowSurrogate in Hb. rewrite andb_true_iff, !N.leb_le in Hb.
    split_and!; [|lia|].
    + destruct (inRanges ranges (codePointValue [a; b])) eqn:Hw; [|done].
      apply Hbmp in Hw. cbn [codePointValue] in Hw. lia.
    + cbn [take]. rewrite ?take_0. repeat constructor; [done|].
      destruct (inRanges ranges b) eqn:Hw; [|done]. apply Hbmp in Hw. lia.
  - intros [= <- <-]. split_and!; [done|lia|]. cbn [take]. rewrite ?take_0. by constructor.
Qed.

Lemma matchAt_Class_inside u p a s :
  matchAt u (Class false ranges) p (a :: s) =
    if inRanges ranges a then Some {| pos := p + 1; rest := s; caps := ∅ |} else None.
Proof using Hbmp.
  unfold matchAt. cbn [matcher]. unfold step. cbn [rest pos caps].
  destruct (inRanges ranges a) eqn:Ha.
  - rewrite (headChar_inside u a s Ha). cbn [xorb]. rewrite Ha. cbn [drop]. by rewrite drop_0.
  - destruct (headChar u (a :: s)) as [[c w]|] eqn:Hh; [|done].
    apply (headChar_outside u a s c w Ha) in Hh as (Hc & _). cbn [xorb]. by rewrite Hc.
Qed.

(** Removing the characters of the class leaves no code unit of it. *)
Lemma replaceAll_loop_remove_class u :
  ∀ fuel p rest,
    length rest < fuel →
    Forall (λ x, inRanges ranges x = false)
      (replaceAll_loop u (Class false ranges) [] fuel p rest).
Proof using Hbmp.
  induction fuel as [|fuel IH]; intros p rest Hfuel; [lia|].
  cbn [replaceAll_loop]. destruct rest as [|a rest'].
  { unfold matchAt. cbn. constructor. }
  cbn [length] in Hfuel. rewrite matchAt_Class_inside.
  destruct (inRanges ranges a) eqn:Ha.
  - cbn [pos]. replace (p + 1 - p) with 1 by lia.
    cbn [Nat.eqb expand fmap list_fmap concat app drop].
    rewrite drop_0. apply IH. lia.
  - unfold advance. destruct (headChar u (a :: rest')) as [[c w]|] eqn:Hh.
    + apply (headChar_outside u a rest' c w Ha) in Hh as (_ & Hw & Hout).
      apply Forall_app. split; [done|]. apply IH. rewrite length_drop. cbn [length]. lia.
    + exfalso. cbn [headChar] in Hh. destruct rest' as [|b rest']; [done|].
      by destruct (u && isHighSurrogate a && isLowSurrogate b).
Qed.

End ClassRemoval.

(** ** Hexadecimal digits *)

(** The number a string of digits in base 16 denotes. *)
Definition digitValue (c : N) : N := if (c <? 58)%N then (c - 48)%N else (c - 87)%N.
Definition fromHex (digits : jsstring) : N :=
  foldl (λ n c, 16 * n + digitValue c)%N 0%N digits.

Definition isHexDigit (c : N) : bool :=
  ((48 <=? c) && (c <=? 57) || (97 <=? c) && (c <=? 102))%N.

Lemma hexDigit_value d : (d < 16)%N → digitValue (hexDigit d) = d ∧ isHexDigit (hexDigit d) = true.
Proof.
  intros Hd. unfold digitValue, hexDigit, isHexDigit.
  destruct (d <? 10)%N eqn:H10.
  - apply N.ltb_lt in H10. replace (48 + d <? 58)%N with true by (symmetry; apply N.ltb_lt; lia).
    split; [lia|]. apply orb_true_iff. left. apply andb_true_iff. rewrite !N.leb_le. lia.
  - apply N.ltb_ge in H10. replace (87 + d <? 58)%N with false by (symmetry; apply N.ltb_ge; lia).
    split; [lia|]. apply orb_true_iff. right. apply andb_true_iff. rewrite !N.leb_le. lia.
Qed.

Lemma fromHex_app digits more :
  fromHex (digits ++ more) = foldl (λ n c, 16 * n + digitValue c)%N (fromHex digits) more.
Proof. unfold fromHex. by rewrite foldl_app. Qed.

Lemma foldl_hex_shift more : ∀ n,
  foldl (λ n c, 16 * n + digitValue c)%N n more =
    (n * 16 ^ N.of_nat (length more) + fromHex more)%N.
Proof.
  unfold fromHex. induction more as [|c more IH]; intros n.
  - cbn. lia.
  - cbn [foldl length]. rewrite IH, (IH (16 * 0 + digitValue c)%N).
    rewrite Nat2N.inj_succ, N.pow_succ_r'. lia.
Qed.

(** The digits written denote the number, before the digits already
    there. *)
Lemma toString16_loop_spec : ∀ fuel n digits,
  (n < 16 ^ N.of_nat fuel)%N →
  ∃ written,
    toString16_loop fuel n digits = written ++ digits ∧
    fromHex written = n ∧ Forall (λ c, isHexDigit c = true) written ∧
    (0 < fuel → 0 < length written).
Proof.
  induction fuel as [|fuel IH]; intros n digits Hn.
  { exists []. cbn in Hn. assert (n = 0%N) as -> by lia. split_and!; [done..|lia]. }
  cbn [toString16_loop]. cbn zeta.
  assert (n mod 16 < 16)%N as Hmod by (apply N.mod_lt; lia).
  destruct (hexDigit_value _ Hmod) as [Hvalue Hdigit].
  pose proof (N.div_mod n 16 ltac:(lia)) as Hdiv.
  destruct (n / 16 =? 0)%N eqn:Hq.
  - apply N.eqb_eq in Hq. exists [hexDigit (n mod 16)]. split_and!.
    + done.
    + unfold fromHex. cbn [foldl]. rewrite Hvalue. lia.
    + by constructor.
    + cbn. lia.
  - destruct (IH (n / 16)%N (hexDigit (n mod 16) :: digits)) as (written & -> & Hw & Hall & _).
    { rewrite Nat2N.inj_succ, N.pow_succ_r' in Hn.
      apply N.Div0.div_lt_upper_bound. lia. }
    exists (written ++ [hexDigit (n mod 16)]). split_and!.
    + by rewrite <- (assoc_L (++)).
    + rewrite fromHex_app. cbn [foldl]. rewrite Hw, Hvalue. lia.
    + apply Forall_app. split; [done|]. by constructor.
    + rewrite length_app. cbn. lia.
Qed.

Lemma toString16_spec n :
  fromHex (toString16 n) = n ∧ Forall (λ c, isHexDigit c = true) (toString16 n) ∧
  0 < length (toString16 n).
Proof.
  unfold toString16.
  destruct (toString16_loop_spec (S (N.to_nat (N.log2 n))) n []) as (written & -> & ? & ? & Hlen).
  - destruct (decide (n = 0%N)) as [->|Hne]; [done|].
    pose proof (N.log2_spec n ltac:(lia)) as [_ Hlt].
    eapply N.lt_le_trans; [apply Hlt|].
    rewrite Nat2N.inj_succ, N2Nat.id.
    apply N.pow_le_mono_l. lia.
  - rewrite app_nil_r. split_and!; [done..|]. apply Hlen. lia.
Qed.

Lemma codePointAt_unit a s :
  isSurrogate a = false → codePointAt (a :: s) = a.
Proof.
  unfold isSurrogate. intros [Ha _]%orb_false_iff. cbn [codePointAt].
  destruct s; [done|]. by rewrite Ha.
Qed.

(** ** The properties *)

(** X1.  Whenever [getCollatingMatch(s, t)] succeeds, its two Arrays have
    the same length. *)
Theorem X1_getCollatingMatch_equal_lengths `{Host} (s t : jsstring)
    (r0 r1 : list jsstring) :
  getCollatingMatch s t = Some (r0, r1) → length r0 = length r1.
Proof. by intros (? & _)%getCollatingMatch_spells. Qed.

Lemma X1_getCollatingMatch_equal_lengths_witness :
  length [str "S"; str "t"; [0xE6%N]] = length [str "s"; str "t"; str "ae"].
Proof.
  apply (X1_getCollatingMatch_equal_lengths (H := BasicLatin.host)
           (str "St" ++ [0xE6%N] ++ str "dte") (str "stae")).
  vm_compute. reflexivity.
Defined.

(** X2.  [promiscuouslyNormalize] returns a string of the letters [a] to
    [z] and the space, without the letter [h]. *)
Theorem X2_promiscuouslyNormalize_alphabet `{Host} (s : jsstring) :
  Forall (λ c, (c = 32 ∨ 97 ≤ c ∧ c ≤ 122) ∧ c ≠ 104)%N (promiscuouslyNormalize s).
Proof.
  unfold promiscuouslyNormalize. cbn zeta.
  set (spaced := replaceAll false (Class true [range "a" "z"; one " "]) [TLit (str " ")] _).
  assert (Forall (λ x, inRanges [range "a" "z"; one " "] x = true) spaced) as Hclass.
  { by apply (replaceAll_class [range "a" "z"; one " "] (chr " ")). }
  apply Forall_and. split.
  - eapply Forall_impl.
    + unfold replaceAll at 1. apply replaceAll_loop_remove_Forall.
      unfold replaceAll at 1. apply replaceAll_loop_remove_Forall. exact Hclass.
    + intros x. cbn beta. change (inRanges [range "a" "z"; one " "] x)
        with (((97 <=? x) && (x <=? 122) || ((32 <=? x) && (x <=? 32) || false))%N).
      rewrite !orb_true_iff, !andb_true_iff, !N.leb_le. lia.
  - apply (replaceAll_loop_remove_char (chr "h")). lia.
Qed.

(** X3.  [normalize] returns a string without the combining marks
    U+0300 to U+036F. *)
Theorem X3_normalize_no_combining_marks `{Host} (s : jsstring) :
  Forall (λ c, ¬ (0x300 ≤ c ∧ c ≤ 0x36F))%N (normalize s).
Proof.
  unfold normalize. cbn zeta. unfold replaceAll at 1.
  eapply Forall_impl.
  - apply (replaceAll_loop_remove_class [(0x300, 0x36F)%N]); [|lia].
    intros c. unfold inRanges. cbn [existsb fst snd].
    rewrite orb_false_r, andb_true_iff, !N.leb_le. lia.
  - intros x. unfold inRanges. cbn [existsb fst snd].
    rewrite orb_false_r, andb_false_iff, !N.leb_gt. lia.
Qed.

(** X4.  [debugUTF] returns one entry for every code unit of the string,
    not for every code point: the entry at an index is the code point that
    starts there, in digits of base 16 (at least one, [0-9a-f]).  Read
    back, the entries of a string without surrogates are the string. *)
Theorem X4_debugUTF_entries (s : jsstring) :
  length (debugUTF s) = length s ∧
  (∀ i entry, debugUTF s !! i = Some entry →
     fromHex entry = codePointAt (drop i s) ∧
     Forall (λ c, isHexDigit c = true) entry ∧ 0 < length entry) ∧
  (Forall (λ c, isSurrogate c = false) s → fromHex <$> debugUTF s = s).
Proof.
  split_and!.
  - induction s as [|a s IH]; [done|]. cbn [debugUTF length]. by rewrite IH.
  - induction s as [|a s IH]; intros i entry; [done|].
    destruct i as [|i].
    + cbn [debugUTF]. intros [= <-]. rewrite drop_0. apply toString16_spec.
    + cbn [debugUTF drop]. apply IH.
  - induction 1 as [|a s Ha Hs IH]; [done|].
    cbn [debugUTF fmap list_fmap]. fold (fmap (M := list) fromHex).
    destruct (toString16_spec (codePointAt (a :: s))) as [-> _].
    rewrite (codePointAt_unit a s Ha). f_equal. exact IH.
Qed.

End CollationMore.

(** * Further properties of the patterns and their matches *)

Module PatternMore.
Import Collation PrefixTree AbbrevIso RegExpFacts CollationFacts ConstructionFacts.
Import SelectionFacts PlannerFacts QueryFacts WhiteSpaceFacts.

Lemma charAt_lookup s i :
  charAt s i = match s !! i with Some c => [c] | None => [] end.
Proof.
  unfold charAt. revert i. induction s as [|a s IH]; intros i.
  - by destruct i.
  - destruct i as [|i]; cbn [drop lookup list_lookup]; [|apply IH].
    rewrite ?drop_0. cbn [take]. by rewrite ?take_0.
Qed.

Lemma trim_dash : trim [0x2013%N] = [0x2013%N].
Proof. vm_compute. reflexivity. Qed.

(** A record of the LTWA with the pattern [abc]. *)
Definition record_abc : jsstring := str "abc" ++ [9%N] ++ str "ab." ++ [9%N] ++ str "eng, mul".
Definition pattern_abc : LTWAPattern :=
  {| self := 7; pattern := str "abc"; replacement := str "ab.";
     languages := [str "eng"; str "mul"]; startDash := false; endDash := false;
     line := record_abc |}.

(** A record whose word is not abbreviated, and its match in a title. *)
Definition pattern_na : LTWAPattern :=
  {| self := 0; pattern := str "nature"; replacement := [0x2013%N];
     languages := [str "eng"]; startDash := false; endDash := false;
     line := str "nature" ++ [9%N] ++ str "n.a." ++ [9%N] ++ str "eng" |}.
Definition match_na : Match :=
  {| m_i := 4; m_iend := 10; m_abbr := str "Nature"; m_pattern := pattern_na;
     m_appendix := [] |}.

Section Facts.
Context `{Host}.

(** ** The matches of one pattern *)

(** The matches reported from index [i] on start at [i] or later, within
    the title, one at most for an index, and their ends are not before
    their starts. *)
Lemma getPatternMatches_loop_shape value pattern pretendDash p replacement :
  ∀ rest0 i isPreviousCharBoundary found,
    length value = i + length rest0 →
    getPatternMatches_loop value pattern pretendDash p replacement rest0 i
      isPreviousCharBoundary = Ok found →
    Forall (λ m, i ≤ m_i m ∧ m_i m < length value ∧ m_i m ≤ m_iend m ∧
                 m_pattern m = pattern ∧
                 (replacement = [] → m_abbr m = substring value (m_i m) (m_iend m)))
      found ∧
    StronglySorted (λ a b, m_i a < m_i b) found.
Proof.
  induction rest0 as [|c rest' IH]; intros i isPrev found Hi; cbn [getPatternMatches_loop].
  { intros [= <-]. split; constructor. }
  cbn zeta. cbn [length] in Hi.
  assert (∀ found, getPatternMatches_loop value pattern pretendDash p replacement rest'
            (S i) (isBoundary c) = Ok found →
          Forall (λ m, S i ≤ m_i m ∧ m_i m < length value ∧ m_i m ≤ m_iend m ∧
                       m_pattern m = pattern ∧
                       (replacement = [] → m_abbr m = substring value (m_i m) (m_iend m)))
            found ∧
          StronglySorted (λ a b, m_i a < m_i b) found) as Hcont.
  { intros found'. apply IH. lia. }
  assert (∀ found, getPatternMatches_loop value pattern pretendDash p replacement rest'
            (S i) (isBoundary c) = Ok found →
          Forall (λ m, i ≤ m_i m ∧ m_i m < length value ∧ m_i m ≤ m_iend m ∧
                       m_pattern m = pattern ∧
                       (replacement = [] → m_abbr m = substring value (m_i m) (m_iend m)))
            found ∧
          StronglySorted (λ a b, m_i a < m_i b) found) as Hcont'.
  { intros found' [Hall Hsorted]%Hcont. split; [|done].
    eapply Forall_impl; [done|]. cbn beta. intros m (? & ? & ? & ? & ?).
    split_and!; [lia|done..]. }
  destruct (_ && _ && _); [by apply Hcont'|].
  destruct (getCollatingMatch (c :: rest') p) as [[r0 r1]|] eqn:Hgcm; [|by apply Hcont'].
  destruct (r0 !! 0) as [x0|] eqn:Hx0; [|done].
  destruct (walkReplacement _ _ _ _ _ _) as [[[ii iend] abbr]|] eqn:Hwalk; [|done].
  cbn [JS.bind].
  eapply (walkReplacement_covered _ _ i) in Hwalk.
  2:{ rewrite (covered_S r0 0), Hx0. unfold covered. rewrite take_0. cbn. lia. }
  set (iend1 := iend + sum_list (length <$> drop (S ii) r0)) in *.
  assert (i ≤ iend1) as Hiend1 by lia.
  assert (∀ iend2 appendix found,
            i ≤ iend2 →
            (found0 <-
               getPatternMatches_loop value pattern pretendDash p replacement rest'
                 (S i) (isBoundary c) ;;
             Ok ({| m_i := i; m_iend := iend2;
                    m_abbr := if bool_decide (replacement = [])
                              then substring value i iend2 else abbr;
                    m_pattern := pattern; m_appendix := appendix |} :: found0)) = Ok found →
            Forall (λ m, i ≤ m_i m ∧ m_i m < length value ∧ m_i m ≤ m_iend m ∧
                         m_pattern m = pattern ∧
                         (replacement = [] →
                          m_abbr m = substring value (m_i m) (m_iend m)))
              found ∧
            StronglySorted (λ a b, m_i a < m_i b) found) as Hreport.
  { intros iend2 appendix found' Hle.
    destruct (getPatternMatches_loop _ _ _ _ _ rest' _ _) as [found0|] eqn:Hf; [|done].
    cbn [JS.bind]. intros [= <-].
    destruct (Hcont found0 eq_refl) as [Hall Hsorted].
    destruct (Hcont' found0 eq_refl) as [Hall' _].
    split.
    - constructor; [|done]. cbn [m_i m_iend m_pattern m_abbr].
      split_and!; [lia|lia|done|done|]. intros Hempty. by rewrite bool_decide_true.
    - constructor; [done|]. eapply Forall_impl; [exact Hall|]. cbn. intros m ?. lia. }
  destruct (_ || _).
  - apply Hreport. lia.
  - destruct (search true ending 0 (substr value iend1)) as [[q st]|]; [|by apply Hcont'].
    apply Hreport. lia.
Qed.

(** The same of [getPatternMatches], with the ends within the title. *)
Lemma getPatternMatches_shape value pattern languages pretendDash found :
  getPatternMatches value pattern languages pretendDash = Ok found →
  Forall (λ m, m_i m < length value ∧ m_i m ≤ m_iend m ∧ m_iend m ≤ length value ∧
               m_pattern m = pattern) found ∧
  StronglySorted (λ a b, m_i a < m_i b) found.
Proof.
  intros Hrun. pose proof (getPatternMatches_bound _ _ _ _ _ Hrun) as Hbound.
  unfold getPatternMatches in Hrun. destruct (_ && _).
  { injection Hrun as <-. split; constructor. }
  apply getPatternMatches_loop_shape in Hrun as [Hall Hsorted]; [|done].
  split; [|done]. rewrite Forall_forall in Hall, Hbound |- *. intros m Hm.
  destruct (Hall m Hm) as (_ & ? & ? & ? & _). specialize (Hbound m Hm). done.
Qed.

(** A pattern none of whose languages is asked for has no match. *)
Definition speaks (languages : option (list jsstring)) (pattern : LTWAPattern) : Prop :=
  match languages with
  | None => True
  | Some asked => str "*" ∈ asked ∨ ∃ l, l ∈ AbbrevIso.languages pattern ∧ l ∈ asked
  end.

Lemma getPatternMatches_speaks value pattern languages pretendDash found :
  getPatternMatches value pattern languages pretendDash = Ok found →
  found ≠ [] → speaks languages pattern.
Proof.
  unfold getPatternMatches, speaks. destruct languages as [asked|]; [|done].
  cbn [default from_option id].
  case_bool_decide as Hstar; cbn [negb andb]; [by left|].
  destruct (existsb _ _) eqn:Hsome; cbn [negb].
  - intros _ _. right. apply existsb_exists in Hsome as (l & Hl%list_elem_of_In & Hin).
    apply bool_decide_eq_true in Hin. eauto.
  - by intros [= <-].
Qed.

Lemma allMatches_patterns value patterns languages pretendDash : ∀ found,
  allMatches value patterns languages pretendDash = Ok found →
  Forall (λ m, m_pattern m ∈ patterns ∧ speaks languages (m_pattern m)) found.
Proof.
  induction patterns as [|pattern patterns IH]; intros found; cbn [allMatches].
  { by intros [= <-]. }
  destruct (getPatternMatches _ _ _ _) as [f1|] eqn:H1; [|done]. cbn [JS.bind].
  destruct (allMatches _ _ _ _) as [f2|]; [|done]. cbn [JS.bind]. intros [= <-].
  apply Forall_app. split.
  - pose proof (getPatternMatches_shape _ _ _ _ _ H1) as [Hshape _].
    rewrite Forall_forall in Hshape |- *. intros m Hm.
    destruct (Hshape m Hm) as (_ & _ & _ & ->). split; [by left|].
    eapply getPatternMatches_speaks; [done|]. by intros ->; inversion Hm.
  - eapply Forall_impl; [by apply IH|]. cbn. intros m [? ?]. split; [by right|done].
Qed.

End Facts.

(** ** The properties *)

(** X5.  The object the constructor of LTWAPattern returns for a line keeps
    the line; its pattern is trimmed and has three code units or more, and
    the two flags tell whether the pattern begins and ends with a dash; its
    replacement is trimmed and is none of [n.a.], [n. a.], [n.a]; its
    languages are trimmed. *)
Theorem X5_LTWAPattern_fields `{Host} (self : nat) (line : jsstring) (p : LTWAPattern) :
  LTWAPattern_new self line = Ok p →
  AbbrevIso.line p = line ∧
  3 ≤ length (pattern p) ∧ trim (pattern p) = pattern p ∧
  (startDash p = true ↔ head (pattern p) = Some 45%N) ∧
  (endDash p = true ↔ last (pattern p) = Some 45%N) ∧
  trim (replacement p) = replacement p ∧
  (replacement p ∉ [str "n.a."; str "n. a."; str "n.a"]) ∧
  Forall (λ l, trim l = l) (languages p).
Proof.
  unfold LTWAPattern_new. destruct (negb _); [done|].
  destruct (length _ <? 3) eqn:Hlen; [done|]. apply Nat.ltb_ge in Hlen.
  intros [= <-]. cbn [AbbrevIso.line pattern startDash endDash replacement languages].
  set (p := patternOf _) in *.
  split_and!.
  - done.
  - done.
  - unfold p, patternOf. apply trim_idem.
  - rewrite bool_decide_eq_true, charAt_lookup. destruct p as [|a p']; [done|].
    cbn. split; [by intros [= ->]|by intros [= ->]].
  - rewrite bool_decide_eq_true, charAt_lookup, last_lookup.
    replace (Init.Nat.pred (length p)) with (length p - 1) by lia.
    destruct (p !! (length p - 1)) as [a|] eqn:Ha.
    + split; [by intros [= ->]|by intros [= ->]].
    + split; [done|done].
  - case_bool_decide; [apply trim_dash|apply trim_idem].
  - case_bool_decide as Hna; [|done].
    intros Hin. repeat (apply elem_of_cons in Hin as [Hin|Hin]; [discriminate Hin|]).
    by apply elem_of_nil in Hin.
  - apply Forall_fmap, Forall_true. intros l. apply trim_idem.
Qed.

Lemma X5_LTWAPattern_fields_witness :
  line pattern_abc = record_abc ∧
  3 ≤ length (pattern pattern_abc) ∧ trim (pattern pattern_abc) = pattern pattern_abc ∧
  (startDash pattern_abc = true ↔ head (pattern pattern_abc) = Some 45%N) ∧
  (endDash pattern_abc = true ↔ last (pattern pattern_abc) = Some 45%N) ∧
  trim (replacement pattern_abc) = replacement pattern_abc ∧
  (replacement pattern_abc ∉ [str "n.a."; str "n. a."; str "n.a"]) ∧
  Forall (λ l, trim l = l) (languages pattern_abc).
Proof.
  apply (X5_LTWAPattern_fields (H := BasicLatin.host) 7 record_abc pattern_abc).
  vm_compute. reflexivity.
Defined.

(** X6.  The matches [getPatternMatches] reports for a pattern carry that
    pattern, lie within the title (the start before its end, the end not
    before the start and not after the end of the title), and come in
    ascending order of their starts, one at most for a start. *)
Theorem X6_getPatternMatches_within_title `{Host} (value : jsstring)
    (pattern : LTWAPattern) (languages : option (list jsstring)) (pretendDash : bool)
    (found : list Match) :
  getPatternMatches value pattern languages pretendDash = Ok found →
  Forall (λ m, m_i m < length value ∧ m_i m ≤ m_iend m ∧ m_iend m ≤ length value ∧
               m_pattern m = pattern) found ∧
  StronglySorted (λ a b, m_i a < m_i b) found.
Proof. apply getPatternMatches_shape. Qed.

Lemma X6_getPatternMatches_within_title_witness :
  Forall (λ m, m_i m < length (str "The Nature") ∧ m_i m ≤ m_iend m ∧
               m_iend m ≤ length (str "The Nature") ∧ m_pattern m = pattern_na) [match_na] ∧
  StronglySorted (λ a b, m_i a < m_i b) [match_na].
Proof.
  apply (X6_getPatternMatches_within_title (H := BasicLatin.host)
           (str "The Nature") pattern_na None false [match_na]).
  vm_compute. reflexivity.
Defined.

(** X7.  A pattern whose replacement is the dash of the words that are not
    abbreviated reports, as the abbreviation of a match, the text of the
    title it covers; applying the match leaves every string as it is. *)
Theorem X7_unabbreviated_words_stay `{Host} (value : jsstring)
    (pattern : LTWAPattern) (languages : option (list jsstring)) (found : list Match) :
  replacement pattern = [0x2013%N] →
  getPatternMatches value pattern languages false = Ok found →
  Forall (λ m, m_abbr m = substring value (m_i m) (m_iend m) ∧
               ∀ result, applyMatch result m = result) found.
Proof.
  intros Hna Hrun. pose proof (getPatternMatches_shape _ _ _ _ _ Hrun) as [Hshape _].
  unfold getPatternMatches in Hrun. destruct (_ && _).
  { injection Hrun as <-. constructor. }
  rewrite Hna in Hrun. rewrite bool_decide_true in Hrun by done.
  rewrite !orb_false_r in Hrun.
  assert ((if startDash pattern then replaceFirst false leadingDash [] [] else [])
          = ([] : jsstring)) as Hstrip.
  { destruct (startDash pattern); [|done]. vm_compute. reflexivity. }
  rewrite Hstrip in Hrun. cbn [codePoints] in Hrun.
  apply getPatternMatches_loop_shape in Hrun as [Hall _]; [|done].
  rewrite Forall_forall in Hall, Hshape |- *. intros m Hm.
  destruct (Hall m Hm) as (_ & _ & _ & _ & Habbr). specialize (Habbr eq_refl).
  destruct (Hshape m Hm) as (_ & Hle & Hend & _).
  split; [done|]. intros result. unfold applyMatch. rewrite Habbr.
  unfold substring. rewrite Nat.max_r, Nat.min_l by lia.
  rewrite length_take, length_drop.
  replace (_ <? _) with false; [done|]. symmetry. apply Nat.ltb_ge. lia.
Qed.

Lemma X7_unabbreviated_words_stay_witness :
  Forall (λ m, m_abbr m = substring (str "The Nature") (m_i m) (m_iend m) ∧
               ∀ result, applyMatch result m = result) [match_na].
Proof.
  apply (X7_unabbreviated_words_stay (H := BasicLatin.host)
           (str "The Nature") pattern_na None [match_na]).
  - reflexivity.
  - vm_compute. reflexivity.
Defined.

(** X8.  Every pattern [getMatchingPatterns] returns is one of the
    patterns given or, when none are given, one of the potential patterns
    of the title; and when languages are given without [*], the pattern has
    one of them. *)
Theorem X8_getMatchingPatterns_among_candidates `{Host} (e : AbbrevIso) (value : jsstring)
    (languages : option (list jsstring)) (pretendDash : bool)
    (patterns : option (list LTWAPattern)) (h : heap)
    (found : list LTWAPattern) (h' : heap) :
  getMatchingPatterns e value languages pretendDash patterns h = Ok (found, h') →
  ∃ candidates,
    patternsFor e value pretendDash patterns h = Ok (candidates, h') ∧
    ∀ p, p ∈ found →
      p ∈ candidates ∧
      match languages with
      | None => True
      | Some asked => str "*" ∈ asked ∨ ∃ l, l ∈ AbbrevIso.languages p ∧ l ∈ asked
      end.
Proof.
  unfold getMatchingPatterns. fold (patternsFor e value pretendDash patterns).
  intros (candidates & h1 & Hps & (matches & h2 & (Hall & ->)%lift_inv & [= <- <-])%mbind_inv)
    %mbind_inv.
  exists candidates. split; [done|]. intros p (m & -> & Hm)%list_elem_of_fmap.
  rewrite sort_Permutation in Hm.
  apply allMatches_patterns in Hall. rewrite Forall_forall in Hall.
  apply (Hall m Hm).
Qed.

Lemma X8_getMatchingPatterns_among_candidates_witness :
  ∃ candidates,
    patternsFor (H := BasicLatin.host)
      {| badPatterns_ := 0; nonprefixPatterns_ := PrefixTree.new;
         dictPatterns_ := PrefixTree.new; size_ := 0; shortWords_ := [] |}
      (str "The Nature") false (Some [pattern_abc; pattern_na]) [[]]
      = Ok (candidates, [[]]) ∧
    ∀ p, p ∈ [pattern_na] →
      p ∈ candidates ∧
      (str "*" ∈ [str "eng"] ∨ ∃ l, l ∈ languages p ∧ l ∈ [str "eng"]).
Proof.
  apply (X8_getMatchingPatterns_among_candidates (H := BasicLatin.host) _
           (str "The Nature") (Some [str "eng"]) false (Some [pattern_abc; pattern_na])
           [[]] [pattern_na] [[]]).
  vm_compute. reflexivity.
Defined.

(** X9.  The short words of an engine are the entries given, trimmed,
    without the empty ones. *)
Theorem X9_constructor_shortWords `{Host} (ltwa shortWords : lines) (h : heap)
    (e : AbbrevIso) (h' : heap) :
  new ltwa shortWords h = Ok (e, h') →
  shortWords_ e = List.filter (λ s, 0 <? length s) (trim <$> toArray shortWords) ∧
  Forall (λ w, trim w = w ∧ 0 < length w) (shortWords_ e).
Proof.
  unfold new. intros (bad & h1 & _ & (e1 & h2 & _ & [= <- <-])%mbind_inv)%mbind_inv.
  cbn [shortWords_]. split; [done|].
  apply Forall_forall. intros w [Hw Hlen]%list_elem_of_In%filter_In.
  apply list_elem_of_In, list_elem_of_fmap in Hw as (w0 & -> & _).
  split; [apply trim_idem|]. by apply Nat.ltb_lt in Hlen.
Qed.

Lemma X9_constructor_shortWords_witness :
  let e := match new (H := BasicLatin.host) (Lines [str "WORDS"])
                   (Lines [str " of "; str "  "; str "the"]) [] with
           | Ok (e, _) => e
           | Throw _ => {| badPatterns_ := 0; nonprefixPatterns_ := PrefixTree.new;
                           dictPatterns_ := PrefixTree.new; size_ := 0; shortWords_ := [] |}
           end in
  shortWords_ e
    = List.filter (λ s, 0 <? length s)
        (trim <$> toArray (Lines [str " of "; str "  "; str "the"])) ∧
  Forall (λ w, trim w = w ∧ 0 < length w) (shortWords_ e).
Proof.
  intros e.
  apply (X9_constructor_shortWords (H := BasicLatin.host) (Lines [str "WORDS"])
           (Lines [str " of "; str "  "; str "the"]) [] e [[]]).
  vm_compute. reflexivity.
Defined.

End PatternMore.

(** * Further properties of the queries *)

Module QueryMore.
Import Collation PrefixTree AbbrevIso RegExpFacts CollationFacts ConstructionFacts.
Import SelectionFacts PlannerFacts QueryFacts WhiteSpaceFacts.

(** The test of [getPotentialPatterns] on a code unit: [/[a-zA-Z]/]. *)
Definition isLetter (c : N) : bool := test false (Class false letters) [c].

(** An LTWA of two patterns that begin with an apostrophe and one that
    does not. *)
Definition ltwa3 : lines :=
  Lines [str "WORDS";
         str "'zzz" ++ [9%N] ++ str "z." ++ [9%N] ++ str "und";
         str "'aaa" ++ [9%N] ++ str "a." ++ [9%N] ++ str "und";
         str "nature" ++ [9%N] ++ str "nat." ++ [9%N] ++ str "eng"].
Definition engine3 : AbbrevIso * heap :=
  match new (H := BasicLatin.host) ltwa3 (Lines [str "of"]) [] with
  | Ok p => p
  | Throw _ =>
    ({| badPatterns_ := 0; nonprefixPatterns_ := PrefixTree.new;
        dictPatterns_ := PrefixTree.new; size_ := 0; shortWords_ := [] |}, [])
  end.
Definition store_of {A} (o : outcome (A * heap)) : heap :=
  match o with
  | Ok (_, h) => h
  | Throw _ => []
  end.
Definition value_of {A} (o : outcome (A * heap)) (d : A) : A :=
  match o with
  | Ok (a, _) => a
  | Throw _ => d
  end.

(** Two candidates that overlap, the second of smaller priority value. *)
Definition candidate (i iend : nat) (pattern : string) : Match :=
  {| m_i := i; m_iend := iend; m_abbr := str "x.";
     m_pattern := {| self := 0; pattern := str pattern; replacement := str "x.";
                     languages := [str "eng"]; startDash := false; endDash := false;
                     line := [] |};
     m_appendix := [] |}.

(** ** The store *)

Lemma read_inv r h l h1 : read r h = Ok (l, h1) → h !! r = Some l ∧ h1 = h.
Proof. unfold read. destruct (h !! r); [|done]. by intros [= -> ->]. Qed.

Lemma alloc_inv l h r h1 : alloc l h = Ok (r, h1) → r = length h ∧ h1 = h ++ [l].
Proof. by intros [= <- <-]. Qed.

Lemma lookup_alloc (h : heap) l : (h ++ [l]) !! length h = Some l.
Proof. rewrite lookup_app_r by lia. by rewrite Nat.sub_diag. Qed.

Lemma dropRepeated_keeps : ∀ l previous x,
  x ∈ l →
  (∃ y, y ∈ dropRepeated previous l ∧ self y = self x) ∨
  (∃ z, previous = Some z ∧ self z = self x).
Proof.
  induction l as [|a l IH]; intros previous x Hx; [by apply elem_of_nil in Hx|].
  apply elem_of_cons in Hx as [->|Hx]; cbn [dropRepeated].
  - destruct previous as [z|].
    + destruct (self a =? self z) eqn:Hs.
      * right. exists z. apply Nat.eqb_eq in Hs. done.
      * left. exists a. split; [by left|done].
    + left. exists a. split; [by left|done].
  - destruct (IH (Some a) x Hx) as [(y & Hy & Hs)|(z & [= <-] & Hs)].
    + left. exists y. split; [|done]. destruct previous as [z|]; [|by right].
      destruct (self a =? self z); [done|by right].
    + destruct previous as [z|].
      * destruct (self a =? self z) eqn:Hz.
        -- right. exists z. apply Nat.eqb_eq in Hz. split; [done|lia].
        -- left. exists a. split; [by left|done].
      * left. exists a. split; [by left|done].
Qed.

Section Facts.
Context `{Host}.

(** ** What [getPotentialPatterns] does to the store *)

(** The loop leaves the Arrays of the store alone and appends new ones;
    the Array it ends with begins with the elements of the one it started
    with, and is a new one if the string has a letter. *)
Lemma getPotentialPatterns_loop_frame e pretendDash s :
  ∀ isNewWord result h result' h',
    getPotentialPatterns_loop e pretendDash s isNewWord result h = Ok (result', h') →
    result < length h →
    h `prefix_of` h' ∧ result' < length h' ∧
    (if existsb isLetter s then length h ≤ result' else result' = result ∧ h' = h) ∧
    (∀ old, h !! result = Some old → ∃ extra, h' !! result' = Some (old ++ extra)).
Proof.
  induction s as [|c s IH]; intros isNewWord result h result' h';
    cbn [getPotentialPatterns_loop existsb].
  { intros [= <- <-] Hres. split_and!; [done..|]. intros old ->. exists [].
    by rewrite app_nil_r. }
  fold (isLetter c). destruct (isLetter c); cbn [negb orb]; [|apply IH].
  intros (r1 & h1 & Hfirst & Hrest)%mbind_inv Hres.
  assert (h `prefix_of` h1 ∧ r1 < length h1 ∧
          ∀ old, h !! result = Some old → ∃ extra, h1 !! r1 = Some (old ++ extra))
    as (Hpre1 & Hr1 & Hold1).
  { destruct (_ || _).
    - apply mbind_inv in Hfirst as (found & h0 & (_ & ->)%lift_inv & Hfirst).
      apply mbind_inv in Hfirst as (old & h0 & (Hold & ->)%read_inv & (-> & ->)%alloc_inv).
      split_and!.
      + by apply prefix_app_r.
      + rewrite length_app. cbn. lia.
      + intros old' Hold'. rewrite Hold in Hold'. injection Hold' as <-.
        exists found. apply lookup_alloc.
    - injection Hfirst as <- <-. split_and!; [done..|]. intros old ->. exists [].
      by rewrite app_nil_r. }
  apply mbind_inv in Hrest as (found & h0 & (_ & ->)%lift_inv & Hrest).
  apply mbind_inv in Hrest as (old1 & h0 & (Hold & ->)%read_inv & Hrest).
  apply mbind_inv in Hrest as (r2 & h2 & (-> & ->)%alloc_inv & Hrest).
  apply IH in Hrest as (Hpre2 & Hr2 & Hnew & Hold2); [|rewrite length_app; cbn; lia].
  pose proof (prefix_length _ _ Hpre1) as Hlen1.
  split_and!.
  - etrans; [done|]. etrans; [|done]. by apply prefix_app_r.
  - done.
  - destruct (existsb isLetter s).
    + rewrite length_app in Hnew. cbn in Hnew. lia.
    + destruct Hnew as [-> _]. lia.
  - intros old Hold'. destruct (Hold1 old Hold') as [extra1 Hextra1].
    rewrite Hold in Hextra1. injection Hextra1 as ->.
    destruct (Hold2 _ (lookup_alloc _ _)) as [extra2 Hextra2].
    exists (extra1 ++ found ++ extra2). rewrite Hextra2. f_equal.
    by rewrite <- !(assoc_L (++)).
Qed.

Lemma getPotentialPatterns_frame e s pretendDash h ps h' :
  getPotentialPatterns e s pretendDash h = Ok (ps, h') →
  badPatterns_ e < length h →
  ∃ bad bad',
    h !! badPatterns_ e = Some bad ∧ h' !! badPatterns_ e = Some bad' ∧ bad' ≡ₚ bad ∧
    (existsb isLetter (promiscuouslyNormalize s) = true → bad' = bad) ∧
    (∀ r, r < length h → r ≠ badPatterns_ e → h' !! r = h !! r) ∧
    (∀ p, p ∈ bad → ∃ q, q ∈ ps ∧ self q = self p).
Proof.
  unfold getPotentialPatterns. intros (r & h1 & Hloop & Hrest)%mbind_inv Hbad.
  apply mbind_inv in Hrest as (elements & h0 & (Helements & ->)%read_inv & Hrest).
  apply mbind_inv in Hrest as ([] & h2 & [= <-] & Hrest).
  apply mbind_inv in Hrest as (sorted & h0 & (Hsorted & ->)%read_inv & [= <- <-]).
  apply getPotentialPatterns_loop_frame in Hloop as (Hpre & Hr & Hnew & Hold); [|done].
  destruct (lookup_lt_is_Some_2 h _ Hbad) as [bad Hbad'].
  destruct (Hold bad Hbad') as [extra Hextra].
  rewrite Helements in Hextra. injection Hextra as ->.
  rewrite list_lookup_insert_eq in Hsorted by done. injection Hsorted as <-.
  assert (∀ x, x < length h → h1 !! x = h !! x) as Hsame.
  { intros x Hx. destruct Hpre as [k ->]. by rewrite lookup_app_l. }
  assert (∀ p, p ∈ bad →
            ∃ q, q ∈ dropRepeated None
                       (sort (λ x y, compareStrings (toString x) (toString y)) (bad ++ extra))
                 ∧ self q = self p) as Hkept.
  { intros p Hp.
    destruct (dropRepeated_keeps
                (sort (λ x y, compareStrings (toString x) (toString y)) (bad ++ extra))
                None p) as [?|(z & [=] & _)]; [|done].
    rewrite sort_Permutation. apply elem_of_app. by left. }
  destruct (existsb isLetter (promiscuouslyNormalize s)) eqn:Hletter.
  - exists bad, bad. split_and!; [done| |done|done| |done].
    + rewrite list_lookup_insert_ne by lia. by rewrite Hsame.
    + intros x Hx _. rewrite list_lookup_insert_ne by lia. by apply Hsame.
  - destruct Hnew as [-> ->].
    rewrite Hbad' in Helements. injection Helements as Hextra.
    assert (extra = []) as ->.
    { apply (f_equal length) in Hextra. rewrite length_app in Hextra.
      destruct extra; [done|cbn in Hextra; lia]. }
    rewrite app_nil_r in *.
    exists bad, (sort (λ x y, compareStrings (toString x) (toString y)) bad).
    split_and!; [done| |apply sort_Permutation|done| |done].
    + by rewrite list_lookup_insert_eq.
    + intros x Hx Hne. by rewrite list_lookup_insert_ne.
Qed.

(** ** The punctuation rules never lengthen *)

Lemma char_expand u c lit p rest0 st :
  length lit ≤ 1 →
  matchAt u (Char c) p rest0 = Some st → length (expand [TLit lit] st) ≤ pos st - p.
Proof.
  intros Hlit. unfold matchAt. cbn [matcher]. intros (st1 & [= <-] & _ & Hlt)%step_ext.
  cbn in *. rewrite app_nil_r. lia.
Qed.

Lemma group_char_expand u n X c lit p rest0 st :
  length lit ≤ 1 →
  matchAt u (Seq (Group n X) (Char c)) p rest0 = Some st →
  length (expand [TGroup n; TLit lit] st) ≤ pos st - p.
Proof.
  intros Hlit. unfold matchAt. rewrite matcher_Seq.
  intros (st1 & Hext1%ext_pos & Hm)%matcher_Group.
  cbn [matcher] in Hm.
  apply step_ext in Hm as (st2 & [= <-] & (c2 & _ & _ & Hf2 & _) & Hlt).
  cbn [setCapture pos rest caps] in *.
  unfold expand. cbn [fmap list_fmap concat]. rewrite Hf2 by apply not_elem_of_nil.
  rewrite lookup_insert_eq. unfold default. cbn [from_option id].
  rewrite app_nil_r, length_app, length_take. lia.
Qed.

(** A match of two groups of one character of a class each, around one
    character. *)
Lemma group_sep_group_caps u na ra sep nb rb p rest0 st :
  (∀ st k res, matcher u sep st k = Some res →
               ∃ st1, k st1 = Some res ∧ ext [] st st1 ∧ pos st < pos st1) →
  matchAt u (Seq (Group 1 (Class na ra)) (Seq sep (Group 2 (Class nb rb)))) p rest0
    = Some st →
  ∃ c1 c2, caps st !! 1 = Some c1 ∧ caps st !! 2 = Some c2 ∧
           length c1 + 1 + length c2 ≤ pos st - p.
Proof.
  intros Hsep. unfold matchAt. rewrite matcher_Seq.
  intros (st1 & Hext1%ext_pos & Hm)%matcher_Group.
  rewrite matcher_Seq in Hm.
  apply Hsep in Hm as (st2 & Hm & (c2 & _ & _ & Hf2 & _) & Hlt).
  apply matcher_Group in Hm as (st3 & (c3 & _ & Hp3 & Hf3 & _) & [= <-]).
  cbn [setCapture pos rest caps groups] in *.
  eexists _, _. rewrite lookup_insert_ne by done. rewrite lookup_insert_eq.
  rewrite Hf3, Hf2 by apply not_elem_of_nil. rewrite lookup_insert_eq.
  split_and!; [done|done|]. rewrite !length_take. lia.
Qed.

Lemma step_progress u f st k res :
  step u f st k = Some res → ∃ st1, k st1 = Some res ∧ ext [] st st1 ∧ pos st < pos st1.
Proof. apply step_ext. Qed.

Lemma innerPeriod_expand p rest0 st :
  matchAt true innerPeriod p rest0 = Some st →
  length (expand [TGroup 1; TLit (str "."); TGroup 2] st) ≤ pos st - p.
Proof.
  intros (c1 & c2 & H1 & H2 & Hlen)%group_sep_group_caps.
  - unfold expand. cbn [fmap list_fmap concat]. rewrite H1, H2.
    unfold default. cbn [from_option id]. rewrite app_nil_r, !length_app. cbn. lia.
  - intros st0 k res. cbn [matcher]. apply step_progress.
Qed.

Lemma ampersand_expand p rest0 st :
  matchAt true ampersand p rest0 = Some st →
  length (expand [TGroup 1; TGroup 2] st) ≤ pos st - p.
Proof.
  intros (c1 & c2 & H1 & H2 & Hlen)%group_sep_group_caps.
  - unfold expand. cbn [fmap list_fmap concat]. rewrite H1, H2.
    unfold default. cbn [from_option id]. rewrite app_nil_r, !length_app. lia.
  - intros st0 k res. cbn [matcher]. apply step_progress.
Qed.

Lemma initial_J_expand p rest0 st :
  matchAt true (seq [Bol; Char (chr "J"); Char (chr ",")]) p rest0 = Some st →
  length (expand [TLit (str "J.")] st) ≤ pos st - p.
Proof.
  unfold matchAt. cbn [seq]. rewrite !matcher_Seq. cbn [matcher pos].
  destruct (p =? 0); [|done].
  intros (st1 & Hm & _ & Hlt1)%step_ext.
  apply step_ext in Hm as (st2 & [= <-] & _ & Hlt2).
  cbn in *. lia.
Qed.

Lemma normalizePunctuation_length value :
  length (normalizePunctuation value) ≤ length (trim (normalize_NFC value)).
Proof.
  unfold normalizePunctuation. cbn zeta.
  etrans; [apply replaceAll_length, ampersand_expand|].
  etrans; [apply replaceAll_length, initial_J_expand|].
  etrans; [apply replaceAll_length; intros p rest0 st; by apply group_char_expand|].
  etrans; [apply replaceAll_length; intros p rest0 st; by apply group_char_expand|].
  etrans; [apply replaceAll_length, innerPeriod_expand|].
  etrans; [apply replaceAll_length; intros p rest0 st; by apply group_char_expand|].
  etrans; [apply replaceAll_length; intros p rest0 st; by apply group_char_expand|].
  etrans; [apply replaceAll_length; intros p rest0 st; by apply group_char_expand|].
  etrans; [apply replaceAll_length; intros p rest0 st; by apply char_expand|].
  etrans; [apply replaceAll_remove_length|].
  etrans; [apply replaceAll_remove_length|].
  apply replaceAll_remove_length.
Qed.

End Facts.

(** ** White space in the result *)

Lemma spaced_lookup : ∀ s previous i c,
  spaced previous s = true → s !! i = Some c → isWhiteSpace c = true →
  c = 32%N ∧
  match i with
  | 0 => previous = false
  | S j => ∃ b, s !! j = Some b ∧ isWhiteSpace b = false
  end.
Proof.
  induction s as [|a s IH]; intros previous i c Hs Hi Hc; [done|].
  cbn [spaced] in Hs. destruct i as [|i].
  - injection Hi as ->. rewrite Hc in Hs.
    apply andb_true_iff in Hs as [[Ha%N.eqb_eq Hp%negb_true_iff]%andb_true_iff _]. done.
  - cbn [lookup list_lookup] in Hi. destruct (isWhiteSpace a) eqn:Ha.
    + apply andb_true_iff in Hs as [_ Hs].
      destruct (IH true i c Hs Hi Hc) as [-> Hprev]. split; [done|].
      destruct i as [|i]; [done|]. destruct Hprev as (b & Hb & Hbw). by exists b.
    + destruct (IH false i c Hs Hi Hc) as [-> Hprev]. split; [done|].
      destruct i as [|i]; [by exists a|]. destruct Hprev as (b & Hb & Hbw). by exists b.
Qed.

(** A trimmed string begins and ends with no white space. *)
Lemma trimStart_lookup s a : trimStart s !! 0 = Some a → isWhiteSpace a = false.
Proof. destruct (trimStart_head s) as [->|(b & s' & -> & Hb)]; [done|]. by intros [= <-]. Qed.

Lemma trim_first s a : trim s !! 0 = Some a → isWhiteSpace a = false.
Proof.
  unfold trim. intros Ha. destruct (trimEnd_prefix (trimStart s)) as [k Hk].
  apply (trimStart_lookup s). rewrite Hk. by apply lookup_app_l_Some.
Qed.

Lemma trim_last s a : last (trim s) = Some a → isWhiteSpace a = false.
Proof.
  unfold trim, trimEnd. rewrite last_reverse. rewrite head_lookup. apply trimStart_lookup.
Qed.

Lemma collapseSpaces_lookup s i c :
  collapseSpaces s !! i = Some c → isWhiteSpace c = true →
  c = 32%N ∧
  (∃ b, 0 < i ∧ collapseSpaces s !! (i - 1) = Some b ∧ isWhiteSpace b = false) ∧
  (∃ d, collapseSpaces s !! (i + 1) = Some d ∧ isWhiteSpace d = false).
Proof.
  intros Hi Hc. pose proof (collapseSpaces_spaced s) as Hs.
  destruct (spaced_lookup _ _ _ _ Hs Hi Hc) as [-> Hprev]. split; [done|]. split.
  - destruct i as [|i].
    + apply trim_first in Hi. congruence.
    + destruct Hprev as (b & Hb & Hbw). exists b. rewrite Nat.sub_1_r. cbn.
      split_and!; [lia|done|done].
  - destruct (collapseSpaces s !! (i + 1)) as [d|] eqn:Hd.
    + exists d. split; [done|]. destruct (isWhiteSpace d) eqn:Hdw; [|done].
      replace (i + 1) with (S i) in Hd by lia.
      destruct (spaced_lookup _ _ _ _ Hs Hd Hdw) as [_ (b & Hb & Hbw)]. congruence.
    + exfalso. apply lookup_ge_None in Hd. apply lookup_lt_Some in Hi as Hlt.
      assert (last (collapseSpaces s) = Some 32%N) as Hlast.
      { rewrite last_lookup. rewrite <- Hi. f_equal. lia. }
      apply trim_last in Hlast. congruence.
Qed.

(** ** The candidate of least priority value *)

Lemma selectMatches_least m matches :
  let byPriority := sort (λ a b, getPriority a - getPriority b)%Z (m :: matches) in
  ∃ k, head byPriority = Some k ∧ k ∈ selectMatches (m :: matches) ∧
       ∀ m', m' ∈ m :: matches → (getPriority k ≤ getPriority m')%Z.
Proof.
  intros byPriority.
  assert (byPriority ≡ₚ m :: matches) as Hperm by apply sort_Permutation.
  assert (StronglySorted (λ a b, getPriority a ≤ getPriority b)%Z byPriority) as Hsorted.
  { apply sort_sorted. intros a b. lia. }
  destruct byPriority as [|k later] eqn:Hby.
  { apply Permutation_nil_cons in Hperm. done. }
  exists k. split; [done|]. split.
  - unfold selectMatches. fold byPriority. rewrite Hby. rewrite sort_Permutation.
    unfold resolveOverlaps. cbn [length resolveOverlaps_loop]. by left.
  - intros m' Hm'. rewrite <- Hperm in Hm'.
    apply StronglySorted_inv in Hsorted as [_ Hk]. rewrite Forall_forall in Hk.
    apply elem_of_cons in Hm' as [->|Hm']; [lia|by apply Hk].
Qed.

(** ** The properties *)

(** X10.  On an engine as the constructor returns it, or as a query leaves
    it, [getPotentialPatterns] never throws, whatever the title and the
    flag. *)
Theorem X10_getPotentialPatterns_returns `{Host} (ltwa shortWords : lines) (h0 : heap)
    (e : AbbrevIso) (h : heap) (s : jsstring) (pretendDash : bool) :
  new ltwa shortWords h0 = Ok (e, h) →
  ∃ ps h', getPotentialPatterns e s pretendDash h = Ok (ps, h') ∧
    ∀ s' pretendDash', ∃ ps' h'', getPotentialPatterns e s' pretendDash' h' = Ok (ps', h'').
Proof.
  intros Hok%new_engine_ok.
  destruct (getPotentialPatterns_ok e s pretendDash h Hok) as (ps & h' & Hrun & Hok').
  exists ps, h'. split; [done|]. intros s' pretendDash'.
  destruct (getPotentialPatterns_ok e s' pretendDash' h' Hok') as (ps' & h'' & Hrun' & _).
  by exists ps', h''.
Qed.

Lemma X10_getPotentialPatterns_returns_witness :
  ∃ ps h', getPotentialPatterns (H := BasicLatin.host) engine3.1 (str "-?") true engine3.2
             = Ok (ps, h') ∧
    ∀ s' pretendDash', ∃ ps' h'',
      getPotentialPatterns (H := BasicLatin.host) engine3.1 s' pretendDash' h' = Ok (ps', h'').
Proof.
  apply (X10_getPotentialPatterns_returns (H := BasicLatin.host) ltwa3 (Lines [str "of"]) []).
  vm_compute. reflexivity.
Defined.

(** X11.  [getPotentialPatterns] changes no Array of the store but the one
    of the bad patterns of the engine, which keeps its elements, in an
    order that may differ; for a title that has a letter once normalised
    it is left as it was.  An object for every bad pattern is among the
    patterns returned. *)
Theorem X11_getPotentialPatterns_store `{Host} (e : AbbrevIso) (s : jsstring)
    (pretendDash : bool) (h : heap) (ps : list LTWAPattern) (h' : heap) :
  badPatterns_ e < length h →
  getPotentialPatterns e s pretendDash h = Ok (ps, h') →
  ∃ bad bad',
    h !! badPatterns_ e = Some bad ∧ h' !! badPatterns_ e = Some bad' ∧ bad' ≡ₚ bad ∧
    (existsb isLetter (promiscuouslyNormalize s) = true → bad' = bad) ∧
    (∀ r, r < length h → r ≠ badPatterns_ e → h' !! r = h !! r) ∧
    (∀ p, p ∈ bad → ∃ q, q ∈ ps ∧ self q = self p).
Proof. intros Hbad Hrun. by eapply getPotentialPatterns_frame. Qed.

Lemma X11_getPotentialPatterns_store_witness :
  let H := BasicLatin.host in
  let run := getPotentialPatterns engine3.1 (str "nature") false engine3.2 in
  ∃ bad bad',
    engine3.2 !! badPatterns_ engine3.1 = Some bad ∧
    store_of run !! badPatterns_ engine3.1 = Some bad' ∧ bad' ≡ₚ bad ∧
    (existsb isLetter (promiscuouslyNormalize (str "nature")) = true → bad' = bad) ∧
    (∀ r, r < length engine3.2 → r ≠ badPatterns_ engine3.1 →
          store_of run !! r = engine3.2 !! r) ∧
    (∀ p, p ∈ bad → ∃ q, q ∈ value_of run [] ∧ self q = self p).
Proof.
  intros H run.
  apply (X11_getPotentialPatterns_store engine3.1 (str "nature") false engine3.2
           (value_of run []) (store_of run)).
  - vm_compute. lia.
  - vm_compute. reflexivity.
Defined.

(** X12.  In what [makeAbbreviation] returns, every white space character
    is a space, with a character that is no white space before it and
    another after it. *)
Theorem X12_makeAbbreviation_spaces `{Host} (e : AbbrevIso) (value : jsstring)
    (languages : option (list jsstring)) (patterns : option (list LTWAPattern))
    (h : heap) (r : jsstring) (h' : heap) :
  makeAbbreviation e value languages patterns h = Ok (r, h') →
  ∀ i c, r !! i = Some c → isWhiteSpace c = true →
    c = 32%N ∧
    (∃ b, 0 < i ∧ r !! (i - 1) = Some b ∧ isWhiteSpace b = false) ∧
    (∃ d, r !! (i + 1) = Some d ∧ isWhiteSpace d = false).
Proof.
  intros (ps & _ & Hab)%makeAbbreviation_inv. rewrite abbreviate_unspaced in Hab.
  destruct (unspaced e value languages ps) as [x|]; [|done]. injection Hab as <-.
  apply collapseSpaces_lookup.
Qed.

Lemma X12_makeAbbreviation_spaces_witness :
  let H := BasicLatin.host in
  32%N = 32%N ∧
  (∃ b, 0 < 6 ∧ str "Nature A" !! (6 - 1) = Some b ∧ isWhiteSpace b = false) ∧
  (∃ d, str "Nature A" !! (6 + 1) = Some d ∧ isWhiteSpace d = false).
Proof.
  intros H.
  apply (X12_makeAbbreviation_spaces engine3.1 ([9%N] ++ str "Nature  of" ++ [10%N] ++ str "A ")
           None (Some []) engine3.2 (str "Nature A") engine3.2).
  - vm_compute. reflexivity.
  - reflexivity.
  - reflexivity.
Defined.

(** X13.  What [makeAbbreviation] returns is no longer than the title in
    the form NFC, trimmed. *)
Theorem X13_makeAbbreviation_not_longer_than_title `{Host} (e : AbbrevIso)
    (value : jsstring) (languages : option (list jsstring))
    (patterns : option (list LTWAPattern)) (h : heap) (r : jsstring) (h' : heap) :
  makeAbbreviation e value languages patterns h = Ok (r, h') →
  length r ≤ length (trim (normalize_NFC value)) ∧
  length r ≤ length (normalize_NFC value).
Proof.
  intros (ps & _ & Hab%abbreviate_length)%makeAbbreviation_inv.
  pose proof (normalizePunctuation_length value).
  pose proof (trim_length (normalize_NFC value)). lia.
Qed.

Lemma X13_makeAbbreviation_not_longer_than_title_witness :
  let H := BasicLatin.host in
  length (str "Nat. A.") ≤ length (trim (normalize_NFC (str " The Nature of A. "))) ∧
  length (str "Nat. A.") ≤ length (normalize_NFC (str " The Nature of A. ")).
Proof.
  intros H.
  apply (X13_makeAbbreviation_not_longer_than_title engine3.1 (str " The Nature of A. ")
           None None engine3.2 (str "Nat. A.")
           (store_of (makeAbbreviation engine3.1 (str " The Nature of A. ") None None
                        engine3.2))).
  vm_compute. reflexivity.
Defined.

(** X14.  Of the candidates of [makeAbbreviation], the first of those of
    least priority value is always among the matches kept; the matches
    kept stand in descending order of their starts. *)
Theorem X14_least_priority_is_kept (m : Match) (matches : list Match) :
  (∃ k, k ∈ selectMatches (m :: matches) ∧
        ∀ m', m' ∈ m :: matches → (getPriority k ≤ getPriority m')%Z) ∧
  StronglySorted (λ a b, m_i b ≤ m_i a) (selectMatches (m :: matches)).
Proof.
  split.
  - destruct (selectMatches_least m matches) as (k & _ & Hk & Hleast). by exists k.
  - by destruct (selectMatches_spec (m :: matches)) as (_ & _ & Hsorted & _).
Qed.

End QueryMore.

(** * Further properties of the prefix tree *)

Module PrefixTreeMore.
Import PrefixTree PrefixTreeFacts.

Section Shape.
Context {V : Type}.
Implicit Types (m cm : gmap jsstring (value V)) (n child : value V).
Implicit Types (b : list (jsstring * V)) (k s p : jsstring) (v : V).

(** The shape of the nodes that [add] builds from clean positions, all of
    them among [all].  A node at the path [p] is either a leaf, a Map with
    nothing but its bucket, which holds what is left of a position after
    [p]; or it has been split, is marked so, and its bucket holds the
    objects whose position is [p]. *)
Inductive shaped (all : list (jsstring * V)) : jsstring → value V → Prop :=
| shaped_leaf p b :
    Forall (λ e, clean e.1 = true ∧ (p ++ e.1, e.2) ∈ all) b →
    shaped all p (VMap {[ dash := VArray b ]})
| shaped_split p m b :
    m !! dash = Some (VArray b) →
    m !! qmark = Some VTrue →
    Forall (λ e, e.1 = [] ∧ (p, e.2) ∈ all) b →
    (∀ key child, m !! key = Some child → key ≠ dash → key ≠ qmark →
       ∃ c, key = [c] ∧ cleanChar c = true ∧ shaped all (p ++ [c]) child) →
    shaped all p (VMap m).

Definition split n : Prop := ∃ m, n = VMap m ∧ m !! qmark = Some VTrue.

(** The children of a node that is being split: leaves. *)
Definition kids (all : list (jsstring * V)) p m : Prop :=
  ∀ key child, m !! key = Some child → key ≠ dash → key ≠ qmark →
    ∃ c cb, key = [c] ∧ cleanChar c = true ∧ child = VMap {[ dash := VArray cb ]} ∧
            Forall (λ e, clean e.1 = true ∧ ((p ++ [c]) ++ e.1, e.2) ∈ all) cb.

Context (all : list (jsstring * V)).

Lemma shaped_newNode p : shaped all p newNode.
Proof. apply shaped_leaf. constructor. Qed.

Lemma splitNode_loop_leaf p entries : ∀ m acc,
  kids all p m →
  Forall (λ e, clean e.1 = true ∧ (p ++ e.1, e.2) ∈ all) entries →
  Forall (λ e, e.1 = [] ∧ (p, e.2) ∈ all) acc →
  ∃ m' acc',
    splitNode_loop entries m acc = Ok (m', acc') ∧ kids all p m' ∧
    Forall (λ e, e.1 = [] ∧ (p, e.2) ∈ all) acc' ∧
    m' !! dash = m !! dash ∧ m' !! qmark = m !! qmark.
Proof.
  induction entries as [|[position object] entries IH]; intros m acc Hkids He Hacc.
  { by exists m, acc. }
  apply Forall_cons in He as [[Hpos Hin] He]. cbn [fst snd] in Hpos, Hin.
  destruct position as [|c0 rest]; cbn [splitNode_loop].
  - apply IH; [done|done|]. apply Forall_app. split; [done|].
    repeat constructor. cbn. by rewrite app_nil_r in Hin.
  - cbn [clean forallb] in Hpos. apply andb_true_iff in Hpos as [Hc0 Hrest].
    pose proof (cleanChar_dash c0 Hc0) as Hd.
    pose proof (cleanChar_qmark c0 Hc0) as Hq.
    set (m1 := if decide (is_Some (m !! [c0])) then m else <[ [c0] := newNode ]> m).
    assert (∃ cb, m1 !! [c0] = Some (VMap {[ dash := VArray cb ]}) ∧
                  Forall (λ e, clean e.1 = true ∧ ((p ++ [c0]) ++ e.1, e.2) ∈ all) cb ∧
                  kids all p m1 ∧ m1 !! dash = m !! dash ∧ m1 !! qmark = m !! qmark)
      as (cb & Hl & Hcb & Hkids1 & Hd1 & Hq1).
    { unfold m1. case_decide as Hsome.
      - destruct Hsome as [child Hl].
        destruct (Hkids _ _ Hl Hd Hq) as (c & cb & [= <-] & _ & -> & Hcb).
        by exists cb.
      - exists []. split_and!.
        + apply lookup_insert_eq.
        + constructor.
        + intros key child Hlk Hkd Hkq. destruct (decide (key = [c0])) as [->|Hne].
          * rewrite lookup_insert_eq in Hlk. injection Hlk as <-.
            exists c0, []. split_and!; [done..|constructor].
          * rewrite lookup_insert_ne in Hlk by done. by apply Hkids.
        + by rewrite lookup_insert_ne.
        + by rewrite lookup_insert_ne. }
    rewrite Hl. cbn [getMap asMap JS.bind]. rewrite lookup_singleton_eq.
    cbn [asArray JS.bind]. rewrite insert_singleton_eq.
    destruct (IH (<[ [c0] := VMap {[ dash := VArray (cb ++ [(rest, object)]) ]} ]> m1) acc)
      as (m' & acc' & Heq & Hkids' & Hacc' & Hd' & Hq'); [|done|done|].
    { intros key child Hlk Hkd Hkq. destruct (decide (key = [c0])) as [->|Hne].
      - rewrite lookup_insert_eq in Hlk. injection Hlk as <-.
        exists c0, (cb ++ [(rest, object)]). split_and!; [done..|].
        apply Forall_app. split; [done|]. repeat constructor; [done|]. cbn.
        by rewrite <- (assoc_L (++)).
      - rewrite lookup_insert_ne in Hlk by done. by apply Hkids1. }
    exists m', acc'. split_and!; [done..| |].
    + by rewrite Hd', lookup_insert_ne, Hd1.
    + by rewrite Hq', lookup_insert_ne, Hq1.
Qed.

Lemma splitNode_loop_empty entries : ∀ m acc,
  Forall (λ e : jsstring * V, e.1 = []) entries →
  splitNode_loop entries m acc = Ok (m, acc ++ entries).
Proof.
  induction entries as [|[position object] entries IH]; intros m acc He.
  { by rewrite app_nil_r. }
  apply Forall_cons in He as [Hpos He]. cbn in Hpos. subst position.
  cbn [splitNode_loop]. rewrite IH by done. by rewrite <- (assoc_L (++)).
Qed.

Lemma splitNode_shaped p n :
  shaped all p n → ∃ n', splitNode n = Ok n' ∧ shaped all p n' ∧ split n'.
Proof.
  intros Hn. inversion Hn as [? b Hb|? m b Hb Hq Hall Hch]; subst; unfold splitNode;
    cbn [asMap JS.bind].
  - rewrite lookup_singleton_eq. cbn [asArray JS.bind].
    destruct (splitNode_loop_leaf p b {[ dash := VArray b ]} [])
      as (m' & acc' & -> & Hkids & Hacc & Hd & Hq); [|done|constructor|].
    { intros key child Hl Hkd _. by rewrite lookup_singleton_ne in Hl. }
    cbn [JS.bind]. eexists. split; [done|]. split.
    + eapply shaped_split with (b := acc').
      * rewrite lookup_insert_ne by (apply not_eq_sym, dash_qmark). apply lookup_insert_eq.
      * apply lookup_insert_eq.
      * done.
      * intros key child Hl Hkd Hkq. rewrite !lookup_insert_ne in Hl by done.
        destruct (Hkids _ _ Hl Hkd Hkq) as (c & cb & -> & Hc & -> & Hcb).
        exists c. split_and!; [done..|]. by apply shaped_leaf.
    + eexists. split; [done|]. apply lookup_insert_eq.
  - rewrite Hb. cbn [asArray JS.bind]. rewrite splitNode_loop_empty.
    2:{ eapply Forall_impl; [done|]. by intros e [? _]. }
    cbn [JS.bind app]. eexists. split; [done|]. split.
    + eapply shaped_split with (b := b).
      * rewrite lookup_insert_ne by (apply not_eq_sym, dash_qmark). apply lookup_insert_eq.
      * apply lookup_insert_eq.
      * done.
      * intros key child Hl Hkd Hkq. rewrite !lookup_insert_ne in Hl by done. eauto.
    + eexists. split; [done|]. apply lookup_insert_eq.
Qed.

Lemma add_here_shaped p m k v :
  shaped all p (VMap m) → clean k = true → (p ++ k, v) ∈ all →
  (split (VMap m) → k = []) →
  ∃ n', add_here m k v = Ok n' ∧ shaped all p n' ∧ (split (VMap m) → split n').
Proof.
  intros Hn Hk Hin Hsplit. unfold add_here.
  inversion Hn as [? b Hb|? m0 b Hb Hq Hall Hch]; subst.
  - rewrite lookup_singleton_eq. cbn [asArray JS.bind]. cbn zeta.
    rewrite insert_singleton_eq.
    assert (shaped all p (VMap {[ dash := VArray (b ++ [(k, v)]) ]})) as Hn'.
    { apply shaped_leaf. apply Forall_app. split; [done|]. by repeat constructor. }
    destruct (_ <? _)%nat.
    + destruct (splitNode_shaped _ _ Hn') as (n' & -> & ? & ?). by exists n'.
    + eexists. split_and!; [done|done|].
      intros (m0 & [= <-] & Hq). by rewrite lookup_singleton_ne in Hq by apply dash_qmark.
  - rewrite Hb. cbn [asArray JS.bind]. cbn zeta.
    assert (k = []) as -> by (apply Hsplit; by exists m).
    rewrite app_nil_r in Hin.
    assert (shaped all p (VMap (<[ dash := VArray (b ++ [([], v)]) ]> m))) as Hn'.
    { eapply shaped_split.
      - apply lookup_insert_eq.
      - rewrite lookup_insert_ne by apply dash_qmark. done.
      - apply Forall_app. split; [done|]. by repeat constructor.
      - intros key child Hl Hkd Hkq. rewrite lookup_insert_ne in Hl by done. eauto. }
    destruct (_ <? _)%nat.
    + destruct (splitNode_shaped _ _ Hn') as (n' & -> & ? & ?). by exists n'.
    + eexists. split_and!; [done|done|]. intros _. eexists. split; [done|].
      rewrite lookup_insert_ne by apply dash_qmark. done.
Qed.

Lemma substr_S position i c ks :
  substr position i = c :: ks → substr position (S i) = ks.
Proof.
  unfold substr. intros Hdrop.
  by rewrite <- (Nat.add_1_l i), Nat.add_comm, <- drop_drop, Hdrop.
Qed.

Lemma add_walk_shaped ks : ∀ i position v n p,
  shaped all p n → clean ks = true → substr position i = ks → (p ++ ks, v) ∈ all →
  ∃ n', add_walk ((λ c, [c]) <$> ks) i position v n = Ok n' ∧ shaped all p n' ∧
        (split n → split n').
Proof.
  induction ks as [|c ks IH]; intros i position v n p Hn Hks Hdrop Hin.
  - inversion Hn as [? b Hb|? m b Hb Hq Hall Hch]; subst;
      cbn [fmap list_fmap add_walk asMap JS.bind]; rewrite Hdrop;
      by apply add_here_shaped.
  - pose proof Hks as Hks0.
    cbn [clean forallb] in Hks. apply andb_true_iff in Hks as [Hc Hks].
    pose proof (cleanChar_dash c Hc) as Hd.
    pose proof (cleanChar_qmark c Hc) as Hqm.
    pose proof (substr_S _ _ _ _ Hdrop) as Hdrop'.
    assert (((p ++ [c]) ++ ks, v) ∈ all) as Hin' by by rewrite <- (assoc_L (++)).
    inversion Hn as [p0 b Hb Hp0 Hn0|p0 m b Hb Hq Hall Hch Hp0 Hn0]; subst p0 n;
      cbn [fmap list_fmap add_walk asMap JS.bind].
    + rewrite lookup_singleton_ne by (by apply not_eq_sym).
      rewrite lookup_singleton_ne by apply dash_qmark.
      rewrite Hdrop. apply add_here_shaped; [done|done|done|].
      intros (m0 & [= <-] & Hq). by rewrite lookup_singleton_ne in Hq by apply dash_qmark.
    + assert (∀ child', shaped all (p ++ [c]) child' →
                shaped all p (VMap (<[ [c] := child' ]> m)) ∧
                split (VMap (<[ [c] := child' ]> m))) as Hset.
      { intros child' Hchild'. split.
        - eapply shaped_split with (b := b).
          + by rewrite lookup_insert_ne.
          + by rewrite lookup_insert_ne.
          + done.
          + intros key child Hl Hkd Hkq. destruct (decide (key = [c])) as [->|Hne].
            * rewrite lookup_insert_eq in Hl. injection Hl as <-. by exists c.
            * rewrite lookup_insert_ne in Hl by done. eauto.
        - eexists. split; [done|]. by rewrite lookup_insert_ne. }
      destruct (m !! [c]) as [child|] eqn:Hl.
      * destruct (Hch _ _ Hl Hd Hqm) as (c' & [= <-] & _ & Hchild).
        destruct (IH (S i) position v child (p ++ [c])) as (child' & Heq & Hchild' & _);
          [done..|].
        fold (@fmap list _ _ _ (λ c, [c]) ks). rewrite Heq. cbn [JS.bind].
        eexists. split; [done|]. destruct (Hset child' Hchild'). done.
      * rewrite Hq.
        destruct (IH (S i) position v newNode (p ++ [c])) as (child' & Heq & Hchild' & _);
          [apply shaped_newNode|done..|].
        fold (@fmap list _ _ _ (λ c, [c]) ks). rewrite Heq. cbn [JS.bind].
        eexists. split; [done|]. destruct (Hset child' Hchild'). done.
Qed.

Lemma add_shaped t k v :
  shaped all [] (root_ t) → clean k = true → (k, v) ∈ all →
  ∃ t', add t k v = Ok t' ∧ shaped all [] (root_ t') ∧ (split (root_ t) → split (root_ t')).
Proof.
  intros Hn Hk Hin. unfold add. rewrite (codePoints_clean k Hk).
  destruct (add_walk_shaped k 0 k v (root_ t) [] Hn Hk) as (n' & -> & ? & ?); [done..|].
  cbn [JS.bind]. by eexists {| root_ := n' |}.
Qed.

(** While the root is a leaf its bucket is the list of the insertions made;
    it is split by the insertion that makes them more than [maxNodeSize]. *)
Lemma add_leaf_root b k v :
  head k ≠ Some 45%N →
  add {| root_ := VMap {[ dash := VArray b ]} |} k v =
    if (maxNodeSize <? length (b ++ [(k, v)]))%nat
    then root <- splitNode (VMap {[ dash := VArray (b ++ [(k, v)]) ]}) ;;
         Ok {| root_ := root |}
    else Ok {| root_ := VMap {[ dash := VArray (b ++ [(k, v)]) ]} |}.
Proof.
  intros Hk. unfold add. cbn [root_].
  assert (add_walk (codePoints k) 0 k v (VMap {[ dash := VArray b ]}) =
          add_here {[ dash := VArray b ]} k v) as ->.
  { destruct k as [|a k']; [done|].
    assert (∃ c cs, codePoints (a :: k') = c :: cs ∧ c ≠ dash) as (c & cs & -> & Hd).
    { cbn [codePoints]. destruct k' as [|a' k''].
      - eexists _, _. split; [done|]. intros [= ->]. by apply Hk.
      - destruct (isHighSurrogate a && isLowSurrogate a') eqn:Hpair.
        + eexists _, _. split; [done|]. discriminate.
        + eexists _, _. split; [done|]. intros [= ->]. by apply Hk. }
    cbn [add_walk asMap JS.bind].
    rewrite lookup_singleton_ne by (by apply not_eq_sym).
    rewrite lookup_singleton_ne by apply dash_qmark. done. }
  unfold add_here. rewrite lookup_singleton_eq. cbn [asArray JS.bind]. cbn zeta.
  rewrite insert_singleton_eq. by destruct (_ <? _)%nat.
Qed.

Lemma get_leaf_root b s :
  head s ≠ Some 45%N →
  get {| root_ := VMap {[ dash := VArray b ]} |} s = Ok (map snd b).
Proof.
  intros Hs. unfold get. cbn [root_ asMap JS.bind]. rewrite lookup_singleton_eq.
  cbn [asArray JS.bind].
  assert (get_walk (codePoints s) (VMap {[ dash := VArray b ]}) b = Ok b) as ->; [|done].
  destruct s as [|a s']; [done|]. cbn [codePoints].
  assert ([a] ≠ dash) as Ha by (intros [= ->]; by apply Hs).
  destruct s' as [|a' s''].
  - cbn [get_walk asMap JS.bind]. by rewrite lookup_singleton_ne by (by apply not_eq_sym).
  - destruct (isHighSurrogate a && isLowSurrogate a'); cbn [get_walk asMap JS.bind].
    + by rewrite lookup_singleton_ne by discriminate.
    + by rewrite lookup_singleton_ne by (by apply not_eq_sym).
Qed.

Lemma add_all_small ops : ∀ b,
  Forall (λ e, head e.1 ≠ Some 45%N) ops →
  length (b ++ ops) ≤ maxNodeSize →
  add_all ops {| root_ := VMap {[ dash := VArray b ]} |}
    = Ok {| root_ := VMap {[ dash := VArray (b ++ ops) ]} |}.
Proof.
  induction ops as [|[k v] ops IH]; intros b Hops Hlen.
  { by rewrite app_nil_r. }
  apply Forall_cons in Hops as [Hk Hops]. cbn [fst] in Hk.
  cbn [add_all]. rewrite add_leaf_root by done.
  rewrite length_app in Hlen. cbn [length] in Hlen.
  replace (_ <? _)%nat with false.
  2:{ symmetry. apply Nat.ltb_ge. rewrite length_app. cbn. lia. }
  cbn [JS.bind]. rewrite IH; [|done|].
  - by rewrite <- (assoc_L (++)).
  - rewrite !length_app. cbn. lia.
Qed.

(** The root after a list of insertions: a leaf with the insertions, or
    split once they are more than [maxNodeSize]. *)
Lemma add_all_shaped ops : ∀ t done,
  (∀ e, e ∈ done ++ ops → e ∈ all) →
  Forall (λ e, clean e.1 = true) (done ++ ops) →
  shaped all [] (root_ t) →
  (root_ t = VMap {[ dash := VArray done ]} ∧ length done ≤ maxNodeSize ∨
   split (root_ t) ∧ maxNodeSize < length done) →
  ∃ t', add_all ops t = Ok t' ∧ shaped all [] (root_ t') ∧
        (root_ t' = VMap {[ dash := VArray (done ++ ops) ]} ∧
           length (done ++ ops) ≤ maxNodeSize ∨
         split (root_ t') ∧ maxNodeSize < length (done ++ ops)).
Proof.
  induction ops as [|[k v] ops IH]; intros t done Hall Hclean Hn Hroot.
  { exists t. rewrite app_nil_r. done. }
  assert (clean k = true) as Hk.
  { rewrite Forall_forall in Hclean. apply (Hclean (k, v)), elem_of_app. right. by left. }
  assert ((k, v) ∈ all) as Hin.
  { apply Hall, elem_of_app. right. by left. }
  destruct (add_shaped t k v Hn Hk Hin) as (t1 & Heq & Hn1 & Hsplit1).
  cbn [add_all]. rewrite Heq. cbn [JS.bind].
  replace (done ++ (k, v) :: ops) with ((done ++ [(k, v)]) ++ ops) in *
    by by rewrite <- (assoc_L (++)).
  apply IH; [done|done|done|].
  destruct Hroot as [[Hleaf Hlen]|[Hsplit Hlen]].
  - destruct t as [root]. cbn [root_] in *. subst root.
    rewrite add_leaf_root in Heq.
    2:{ destruct k as [|a k']; [done|]. cbn [clean forallb] in Hk.
        apply andb_true_iff in Hk as [Ha _]. intros [= ->]. done. }
    destruct (_ <? _)%nat eqn:Hfull.
    + right. apply Nat.ltb_lt in Hfull. split; [|done].
      destruct (splitNode_shaped [] (VMap {[ dash := VArray (done ++ [(k, v)]) ]}))
        as (n' & Hsn & _ & Hs).
      { apply shaped_leaf. rewrite Forall_forall in Hclean |- *. intros [k0 v0] He.
        cbn [fst snd app].
        split; [apply (Hclean (k0, v0))|apply Hall]; apply elem_of_app; by left. }
      rewrite Hsn in Heq. injection Heq as <-. done.
    + left. apply Nat.ltb_ge in Hfull. injection Heq as <-. done.
  - right. split; [by apply Hsplit1|]. rewrite length_app. cbn. lia.
Qed.

(** ** What the walk of [get] collects *)

(** Below a node at the path [p] the walk along [s] collects, first, the
    buckets of the split nodes on its way, whose objects were added at a
    prefix of [p ++ s], and then at most one bucket of a leaf, at a path
    [p ++ q] with [q] a prefix of [s] that is not empty. *)
Lemma get_walk_shaped s : ∀ p n acc,
  shaped all p n → clean s = true →
  ∃ exact extra q,
    get_walk ((λ c, [c]) <$> s) n acc = Ok (acc ++ exact ++ extra) ∧
    q `prefix_of` s ∧ (extra = [] ∨ q ≠ []) ∧
    Forall (λ e, ∃ s1, s1 `prefix_of` s ∧ (p ++ s1, e.2) ∈ all) exact ∧
    Forall (λ e, ((p ++ q) ++ e.1, e.2) ∈ all) extra.
Proof.
  induction s as [|c s IH]; intros p n acc Hn Hs.
  { exists [], [], []. rewrite !app_nil_r. split_and!; [done|done|by left|constructor..]. }
  cbn [clean forallb] in Hs. apply andb_true_iff in Hs as [Hc Hs].
  pose proof (cleanChar_dash c Hc) as Hd.
  pose proof (cleanChar_qmark c Hc) as Hqm.
  cbn [fmap list_fmap get_walk].
  inversion Hn as [? b Hb|? m b Hb Hq Hall Hch]; subst; cbn [asMap JS.bind].
  { rewrite lookup_singleton_ne by (by apply not_eq_sym).
    exists [], [], []. rewrite !app_nil_r.
    split_and!; [done|apply prefix_nil|by left|constructor..]. }
  destruct (m !! [c]) as [child|] eqn:Hl.
  2:{ exists [], [], []. rewrite !app_nil_r.
      split_and!; [done|apply prefix_nil|by left|constructor..]. }
  destruct (Hch _ _ Hl Hd Hqm) as (c' & [= <-] & _ & Hchild).
  inversion Hchild as [? cb Hcb|? cm cb Hcb Hcq Hcall Hcch]; subst; cbn [asMap JS.bind].
  - rewrite lookup_singleton_eq. cbn [asArray JS.bind].
    exists [], cb, [c]. split_and!.
    + destruct s as [|c2 s']; [done|]. cbn [fmap list_fmap get_walk asMap JS.bind].
      cbn [clean forallb] in Hs. apply andb_true_iff in Hs as [Hc2 _].
      by rewrite lookup_singleton_ne by (apply not_eq_sym; by apply cleanChar_dash).
    + by apply prefix_cons, prefix_nil.
    + by right.
    + constructor.
    + eapply Forall_impl; [done|]. by intros e [_ ?].
  - rewrite Hcb. cbn [asArray JS.bind].
    destruct (IH (p ++ [c]) (VMap cm) (acc ++ cb) Hchild Hs)
      as (exact & extra & q & Heq & Hq' & Hne & Hexact & Hextra).
    fold (@fmap list _ _ _ (λ c, [c]) s). rewrite Heq.
    exists (cb ++ exact), extra, (c :: q). split_and!.
    + by rewrite <- !(assoc_L (++)).
    + by apply prefix_cons.
    + destruct Hne; [by left|by right].
    + apply Forall_app. split.
      * eapply Forall_impl; [exact Hcall|]. cbn. intros e [_ He].
        exists [c]. split; [by apply prefix_cons, prefix_nil|done].
      * eapply Forall_impl; [exact Hexact|]. cbn. intros e (s1 & Hs1 & He).
        exists (c :: s1). split; [by apply prefix_cons|]. by rewrite <- (assoc_L (++)) in He.
    + eapply Forall_impl; [exact Hextra|]. cbn. intros e He.
      rewrite <- !(assoc_L (++)) in He. rewrite <- (assoc_L (++)). exact He.
Qed.

Lemma get_shaped t s :
  shaped all [] (root_ t) → clean s = true →
  ∃ exact extra q,
    get t s = Ok (exact ++ extra) ∧ q `prefix_of` s ∧
    (split (root_ t) → extra = [] ∨ q ≠ []) ∧
    (∀ v, v ∈ exact → ∃ k, (k, v) ∈ all ∧ k `prefix_of` s) ∧
    (∀ v, v ∈ extra → ∃ k, (k, v) ∈ all ∧ q `prefix_of` k).
Proof.
  intros Hn Hs. unfold get. rewrite (codePoints_clean s Hs).
  destruct t as [n]. cbn [root_] in *.
  inversion Hn as [p0 b Hb|p0 m b Hb Hq Hall Hch]; subst; cbn [asMap JS.bind].
  - rewrite lookup_singleton_eq. cbn [asArray JS.bind].
    assert (get_walk ((λ c, [c]) <$> s) (VMap {[ dash := VArray b ]}) b = Ok b) as ->.
    { destruct s as [|c s']; [done|]. cbn [fmap list_fmap get_walk asMap JS.bind].
      cbn [clean forallb] in Hs. apply andb_true_iff in Hs as [Hc _].
      by rewrite lookup_singleton_ne by (apply not_eq_sym; by apply cleanChar_dash). }
    cbn [JS.bind]. exists [], (map snd b), []. split_and!.
    + done.
    + apply prefix_nil.
    + intros (m0 & [= <-] & Hq). by rewrite lookup_singleton_ne in Hq by apply dash_qmark.
    + by intros v ?%elem_of_nil.
    + intros v (e & <- & He)%list_elem_of_In%in_map_iff. apply list_elem_of_In in He.
      rewrite Forall_forall in Hb. destruct (Hb e He) as [_ Hin].
      exists e.1. split; [done|apply prefix_nil].
  - rewrite Hb. cbn [asArray JS.bind].
    destruct (get_walk_shaped s [] _ b Hn Hs)
      as (exact & extra & q & Hw & Hq' & Hne & Hexact & Hextra).
    rewrite Hw. cbn [JS.bind].
    exists (map snd (b ++ exact)), (map snd extra), q. split_and!.
    + by rewrite <- map_app, <- (assoc_L (++)).
    + done.
    + intros _. destruct Hne as [->|?]; [by left|by right].
    + intros v (e & <- & He)%list_elem_of_In%in_map_iff. apply list_elem_of_In in He.
      apply elem_of_app in He as [He|He].
      * rewrite Forall_forall in Hall. destruct (Hall e He) as [_ Hin].
        exists []. split; [done|apply prefix_nil].
      * rewrite Forall_forall in Hexact. destruct (Hexact e He) as (s1 & Hs1 & Hin).
        by exists s1.
    + intros v (e & <- & He)%list_elem_of_In%in_map_iff. apply list_elem_of_In in He.
      rewrite Forall_forall in Hextra. specialize (Hextra e He). cbn [app] in Hextra.
      exists (q ++ e.1). split; [done|]. by apply prefix_app_r.
Qed.

(** ** A position that begins with ['-'] *)

Lemma codePoints_dash s : ∃ cs, codePoints (45%N :: s) = dash :: cs.
Proof.
  cbn [codePoints]. destruct s as [|b s]; [by eexists|].
  change (isHighSurrogate 45) with false. cbn [andb]. by eexists.
Qed.

Lemma add_walk_array cs i position v b :
  add_walk cs i position v (VArray b) = Throw TypeError.
Proof. by destruct cs. Qed.

Lemma shaped_bucket p n : shaped all p n → ∃ m b, n = VMap m ∧ m !! dash = Some (VArray b).
Proof.
  intros Hn. inversion Hn as [p0 b Hb|p0 m b Hb Hq Hall Hch]; subst.
  - eexists _, b. split; [done|]. apply lookup_singleton_eq.
  - by exists m, b.
Qed.

End Shape.

(** ** The properties *)

Definition ops8 : list (jsstring * nat) :=
  [(str "ab", 1); (str "abc", 2); (str "b", 3); (str "a", 4); (str "", 5);
   (str "abd", 6); (str "abcd", 7); (str "abce", 8)]%nat.

(** X15.  After insertions at clean positions, [get(s)] for a clean [s]
    returns first objects that were added at prefixes of [s], and then
    objects whose positions all begin with one prefix [q] of [s]: those of
    one bucket.  Once more than [maxNodeSize] objects have been added,
    there are none of these, or [q] is not empty. *)
Theorem X15_get_returns_what_was_added {V : Type} (ops : list (jsstring * V))
    (s : jsstring) :
  Forall (λ e, clean e.1 = true) ops → clean s = true →
  ∃ t exact extra q,
    add_all ops new = Ok t ∧ get t s = Ok (exact ++ extra) ∧
    q `prefix_of` s ∧
    (maxNodeSize < length ops → extra = [] ∨ q ≠ []) ∧
    (∀ v, v ∈ exact → ∃ k, (k, v) ∈ ops ∧ k `prefix_of` s) ∧
    (∀ v, v ∈ extra → ∃ k, (k, v) ∈ ops ∧ q `prefix_of` k).
Proof.
  intros Hops Hs.
  destruct (add_all_shaped ops ops new []) as (t & Hadd & Hn & Hroot);
    [done|done|apply shaped_newNode|left; split; [done|cbn; lia]|].
  destruct (get_shaped ops t s Hn Hs) as (exact & extra & q & Hget & Hq & Hne & He & Hx).
  exists t, exact, extra, q. split_and!; [done..| |done|done].
  intros Hmany. cbn [app] in Hroot. destruct Hroot as [[_ Hlen]|[Hsplit _]]; [lia|].
  by apply Hne.
Qed.

Lemma X15_get_returns_what_was_added_witness :
  ∃ t exact extra q,
    add_all ops8 new = Ok t ∧ get t (str "abx") = Ok (exact ++ extra) ∧
    q `prefix_of` str "abx" ∧
    (maxNodeSize < length ops8 → extra = [] ∨ q ≠ []) ∧
    (∀ v, v ∈ exact → ∃ k, (k, v) ∈ ops8 ∧ k `prefix_of` str "abx") ∧
    (∀ v, v ∈ extra → ∃ k, (k, v) ∈ ops8 ∧ q `prefix_of` k).
Proof.
  apply (X15_get_returns_what_was_added ops8 (str "abx")).
  - repeat constructor.
  - reflexivity.
Defined.

(** X16.  Until more than [maxNodeSize] objects have been added, at
    positions that do not begin with ['-'], [get(s)] returns all the
    objects, in the order they were added, for every [s] that does not
    begin with ['-']. *)
Theorem X16_small_tree_returns_all {V : Type} (ops : list (jsstring * V)) (s : jsstring) :
  Forall (λ e, head e.1 ≠ Some 45%N) ops → length ops ≤ maxNodeSize →
  head s ≠ Some 45%N →
  ∃ t, add_all ops new = Ok t ∧ get t s = Ok (map snd ops).
Proof.
  intros Hops Hlen Hs. eexists. split.
  - apply (add_all_small ops []); done.
  - cbn [app]. by apply get_leaf_root.
Qed.

Lemma X16_small_tree_returns_all_witness :
  ∃ t, add_all [(str "nature", 1); (str "", 2); (str "a?b", 3)] new = Ok t ∧
       get t (str "zebra") = Ok (map snd [(str "nature", 1); (str "", 2); (str "a?b", 3)]).
Proof.
  apply (X16_small_tree_returns_all [(str "nature", 1); (str "", 2); (str "a?b", 3)]
           (str "zebra")).
  - repeat constructor; discriminate.
  - cbn. unfold maxNodeSize. lia.
  - discriminate.
Defined.

(** X17.  On a tree built by insertions at clean positions, [add] and
    [get] throw a TypeError for every string that begins with ['-']. *)
Theorem X17_dash_is_refused {V : Type} (ops : list (jsstring * V)) (t : PrefixTree V)
    (s : jsstring) (v : V) :
  Forall (λ e, clean e.1 = true) ops → add_all ops new = Ok t →
  add t (45%N :: s) v = Throw TypeError ∧ get t (45%N :: s) = Throw TypeError.
Proof.
  intros Hops Hadd.
  destruct (add_all_shaped ops ops new []) as (t' & Hadd' & Hn & _);
    [done|done|apply shaped_newNode|left; split; [done|cbn; lia]|].
  rewrite Hadd in Hadd'. injection Hadd' as <-.
  destruct (shaped_bucket _ _ _ Hn) as (m & b & Hroot & Hb).
  destruct (codePoints_dash s) as [cs Hcs].
  unfold add, get. rewrite Hcs, Hroot. cbn [add_walk get_walk asMap JS.bind].
  rewrite Hb. cbn [asArray asMap JS.bind]. by rewrite add_walk_array.
Qed.

Lemma X17_dash_is_refused_witness :
  let t := match add_all ops8 new with Ok t => t | Throw _ => new end in
  add t (45%N :: str "a") 9 = Throw TypeError ∧ get t (45%N :: str "a") = Throw TypeError.
Proof.
  intros t. apply (X17_dash_is_refused ops8 t (str "a") 9).
  - repeat constructor.
  - vm_compute. reflexivity.
Defined.

End PrefixTreeMore.

(** * The patterns of the LTWA are found again *)

Module IndexMore.
Import Collation PrefixTree AbbrevIso PrefixTreeFacts RegExpFacts CollationFacts.
Import ConstructionFacts SelectionFacts QueryFacts CollationMore QueryMore PrefixTreeMore.

Lemma isLetter_spec c :
  isLetter c = ((65 <=? c) && (c <=? 90) || (97 <=? c) && (c <=? 122))%N.
Proof.
  unfold isLetter, test. cbn [search]. rewrite matchAt_Class_units. cbn [xorb].
  change (inRanges letters c)
    with ((65 <=? c) && (c <=? 90) || ((97 <=? c) && (c <=? 122) || false))%N.
  rewrite orb_false_r. destruct (_ || _).
  - apply bool_decide_eq_true. by eexists.
  - apply bool_decide_eq_false. intros [x Hx]. discriminate Hx.
Qed.

Lemma promiscuouslyNormalize_letters `{Host} s c :
  c ∈ promiscuouslyNormalize s → c ≠ 32%N → isLetter c = true.
Proof.
  intros Hc Hspace. rewrite isLetter_spec.
  assert (Forall (λ x, inRanges [range "a" "z"; one " "] x = true) (promiscuouslyNormalize s))
    as Hclass.
  { unfold promiscuouslyNormalize.
    unfold replaceAll at 1. apply replaceAll_loop_remove_Forall.
    unfold replaceAll at 1. apply replaceAll_loop_remove_Forall.
    by apply (replaceAll_class [range "a" "z"; one " "] (chr " ")). }
  rewrite Forall_forall in Hclass. specialize (Hclass c Hc).
  change (inRanges [range "a" "z"; one " "] c)
    with (((97 <=? c) && (c <=? 122) || ((32 <=? c) && (c <=? 32) || false))%N) in Hclass.
  rewrite !orb_true_iff, !andb_true_iff, !N.leb_le in Hclass.
  apply orb_true_iff. right. apply andb_true_iff. rewrite !N.leb_le. lia.
Qed.

Lemma clean_drop i s : clean s = true → clean (drop i s) = true.
Proof.
  unfold clean. rewrite !forallb_forall. intros Hs x Hx%list_elem_of_In.
  apply Hs, list_elem_of_In. eapply elem_of_sublist; [done|apply sublist_drop].
Qed.

Lemma dropRepeated_subset : ∀ l previous x, x ∈ dropRepeated previous l → x ∈ l.
Proof.
  induction l as [|a l IH]; intros previous x; cbn [dropRepeated]; [done|].
  destruct previous as [y|].
  - destruct (self a =? self y).
    + intros Hx%IH. by right.
    + intros [->|Hx%IH]%elem_of_cons; [by left|by right].
  - intros [->|Hx%IH]%elem_of_cons; [by left|by right].
Qed.

(** The position [i] of [s] begins a word for the loop of
    [getPotentialPatterns] that starts with [isNewWord]. *)
Definition wordStart (isNewWord : bool) (s : jsstring) (i : nat) : Prop :=
  match i with
  | 0 => isNewWord = true
  | S j => ∃ b, s !! j = Some b ∧ isLetter b = false
  end.

Lemma wordStart_tail isNewWord c s j :
  wordStart isNewWord (c :: s) (S j) → wordStart (negb (isLetter c)) s j.
Proof.
  destruct j as [|j]; cbn.
  - intros (b & [= <-] & ->). done.
  - done.
Qed.

(** The proofs below take the strings that the collation functions return
    as they are. *)
Opaque normalize promiscuouslyNormalize test.

Section Index.
Context `{Host}.

(** The string [addPattern] tests for a letter at its start, and the
    position at which it files the pattern in a prefix tree. *)
Definition stem (pattern : LTWAPattern) : jsstring :=
  normalize (replaceFirst false trailingDash []
               (replaceFirst false leadingDash [] (AbbrevIso.pattern pattern))).
Definition isBad (pattern : LTWAPattern) : bool :=
  negb (test true (Seq Bol (Class false letters)) (stem pattern)).
Definition keyOf (pattern : LTWAPattern) : jsstring := promiscuouslyNormalize (stem pattern).

(** The objects the constructor makes of the lines of the LTWA after the
    header, the first with the identity [size]. *)
Fixpoint patternsFrom (size : nat) (ltwa : list jsstring) : list LTWAPattern :=
  match ltwa with
  | [] => []
  | line :: ltwa' =>
    if length (trim line) =? 0 then patternsFrom size ltwa'
    else
      match LTWAPattern_new size line with
      | Ok pattern => pattern :: patternsFrom (S size) ltwa'
      | Throw _ => []
      end
  end.

Lemma LTWAPattern_new_self size line pattern :
  LTWAPattern_new size line = Ok pattern → self pattern = size.
Proof.
  unfold LTWAPattern_new. destruct (negb _); [done|]. destruct (_ <? 3); [done|].
  by intros [= <-].
Qed.

Lemma patternsFrom_self ltwa : ∀ size j pattern,
  patternsFrom size ltwa !! j = Some pattern → self pattern = size + j.
Proof.
  induction ltwa as [|line ltwa IH]; intros size j pattern; cbn [patternsFrom]; [done|].
  destruct (length (trim line) =? 0); [apply IH|].
  destruct (LTWAPattern_new size line) as [first|] eqn:Hnew; [|done].
  destruct j as [|j]; cbn [lookup list_lookup].
  - intros [= <-]. apply LTWAPattern_new_self in Hnew. lia.
  - intros Hj%IH. lia.
Qed.

Lemma patternsFrom_inj size ltwa p q :
  p ∈ patternsFrom size ltwa → q ∈ patternsFrom size ltwa → self p = self q → p = q.
Proof.
  intros [i Hi]%list_elem_of_lookup [j Hj]%list_elem_of_lookup Hself.
  pose proof (patternsFrom_self _ _ _ _ Hi). pose proof (patternsFrom_self _ _ _ _ Hj).
  assert (i = j) as -> by lia. congruence.
Qed.

(** ** What the constructor keeps *)

Context (universe : list LTWAPattern).

(** The engine after the patterns [added], all of them of [universe]. *)
Definition all : list (jsstring * LTWAPattern) := (λ pattern, (keyOf pattern, pattern)) <$> universe.

Record inv (e : AbbrevIso) (h : heap) (added : list LTWAPattern) : Prop := {
  inv_ok : engine_ok e h;
  inv_dict : shaped all [] (root_ (dictPatterns_ e));
  inv_nonprefix : shaped all [] (root_ (nonprefixPatterns_ e));
  inv_stored : ∀ pattern, pattern ∈ added →
    stored (root_ (if startDash pattern then nonprefixPatterns_ e else dictPatterns_ e))
      (keyOf pattern) pattern;
  inv_bad : ∃ bad, h !! badPatterns_ e = Some bad ∧
    (∀ pattern, pattern ∈ added → isBad pattern = true → pattern ∈ bad) ∧
    (∀ pattern, pattern ∈ bad → pattern ∈ universe);
}.

Lemma addPattern_inv e h added pattern e' h' :
  inv e h added → pattern ∈ universe →
  addPattern e pattern h = Ok (e', h') →
  inv e' h' (added ++ [pattern]) ∧ size_ e' = S (size_ e).
Proof.
  intros [(Hd & Hn & Hb) Hsd Hsn Hst (bad & Hbad & Hbad1 & Hbad2)] Hu.
  unfold addPattern.
  change (normalize (replaceFirst false trailingDash []
            (replaceFirst false leadingDash [] (AbbrevIso.pattern pattern))))
    with (stem pattern).
  change (negb (test true (Seq Bol (Class false letters)) (stem pattern)))
    with (isBad pattern).
  change (promiscuouslyNormalize (stem pattern)) with (keyOf pattern).
  intros ([] & h1 & Hfirst & Hrest)%mbind_inv.
  assert (∃ bad1, h1 !! badPatterns_ e = Some bad1 ∧ length h1 = length h ∧
                  (∀ q, q ∈ added ++ [pattern] → isBad q = true → q ∈ bad1) ∧
                  (∀ q, q ∈ bad1 → q ∈ universe)) as (bad1 & Hbad' & Hlen & Hbad1' & Hbad2').
  { destruct (isBad pattern) eqn:Hisbad.
    - apply mbind_inv in Hfirst as (old & h0 & (Hold & ->)%read_inv & [= <-]).
      rewrite Hbad in Hold. injection Hold as <-.
      exists (bad ++ [pattern]). split_and!.
      + by rewrite list_lookup_insert_eq.
      + by rewrite length_insert.
      + intros q [Hq|Hq%list_elem_of_singleton]%elem_of_app Hqb; apply elem_of_app.
        * left. by apply Hbad1.
        * right. subst q. by apply list_elem_of_singleton.
      + intros q [Hq|Hq%list_elem_of_singleton]%elem_of_app; [by apply Hbad2|by subst q].
    - injection Hfirst as <-. exists bad. split_and!; [done|done| |done].
      intros q [Hq|Hq%list_elem_of_singleton]%elem_of_app Hqb; [by apply Hbad1|].
      subst q. congruence. }
  assert (clean (keyOf pattern) = true) as Hclean by apply promiscuouslyNormalize_clean.
  assert ((keyOf pattern, pattern) ∈ all) as Hin.
  { unfold all. apply list_elem_of_fmap. by exists pattern. }
  destruct (startDash pattern) eqn:Hdash.
  - destruct (add_spec (nonprefixPatterns_ e) (keyOf pattern) pattern Hn Hclean)
      as (t & Hadd & Hwf & Hnew & Hkeep).
    destruct (add_shaped all (nonprefixPatterns_ e) (keyOf pattern) pattern Hsn Hclean Hin)
      as (t' & Hadd' & Hshaped & _).
    rewrite Hadd in Hadd'. injection Hadd' as <-.
    apply mbind_inv in Hrest as (t0 & h0 & (Ht0 & ->)%lift_inv & [= <- <-]).
    rewrite Hadd in Ht0. injection Ht0 as <-.
    split; [|done]. split; cbn [dictPatterns_ nonprefixPatterns_ badPatterns_].
    + unfold engine_ok. cbn. split_and!; [done..|lia].
    + done.
    + done.
    + intros q [Hq|Hq%list_elem_of_singleton]%elem_of_app.
      * specialize (Hst q Hq). destruct (startDash q); [by apply Hkeep|done].
      * subst q. by rewrite Hdash.
    + by exists bad1.
  - destruct (add_spec (dictPatterns_ e) (keyOf pattern) pattern Hd Hclean)
      as (t & Hadd & Hwf & Hnew & Hkeep).
    destruct (add_shaped all (dictPatterns_ e) (keyOf pattern) pattern Hsd Hclean Hin)
      as (t' & Hadd' & Hshaped & _).
    rewrite Hadd in Hadd'. injection Hadd' as <-.
    apply mbind_inv in Hrest as (t0 & h0 & (Ht0 & ->)%lift_inv & [= <- <-]).
    rewrite Hadd in Ht0. injection Ht0 as <-.
    split; [|done]. split; cbn [dictPatterns_ nonprefixPatterns_ badPatterns_].
    + unfold engine_ok. cbn. split_and!; [done..|lia].
    + done.
    + done.
    + intros q [Hq|Hq%list_elem_of_singleton]%elem_of_app.
      * specialize (Hst q Hq). destruct (startDash q); [done|by apply Hkeep].
      * subst q. by rewrite Hdash.
    + by exists bad1.
Qed.

Lemma addLines_inv ltwa : ∀ e h added e' h',
  inv e h added →
  (∀ pattern, pattern ∈ patternsFrom (size_ e) ltwa → pattern ∈ universe) →
  addLines e ltwa h = Ok (e', h') →
  inv e' h' (added ++ patternsFrom (size_ e) ltwa).
Proof.
  induction ltwa as [|line ltwa IH]; intros e h added e' h' Hinv Hu;
    cbn [addLines patternsFrom] in *.
  { intros [= <- <-]. by rewrite app_nil_r. }
  destruct (length (trim line) =? 0); [by apply IH|].
  intros (pattern & h0 & (Hnew & ->)%lift_inv & (e1 & h1 & Hadd & Hrest)%mbind_inv)%mbind_inv.
  rewrite Hnew in Hu |- *.
  apply (addPattern_inv _ _ added) in Hadd as [Hinv1 Hsize]; [|done|apply Hu; by left].
  replace (added ++ pattern :: patternsFrom (S (size_ e)) ltwa)
    with ((added ++ [pattern]) ++ patternsFrom (size_ e1) ltwa)
    by (by rewrite Hsize, <- (assoc_L (++))).
  eapply IH; [done| |done]. rewrite Hsize. intros q Hq. apply Hu. by right.
Qed.

Lemma shaped_get_universe (t : PrefixTree LTWAPattern) s found pattern :
  shaped all [] (root_ t) → clean s = true → get t s = Ok found →
  pattern ∈ found → pattern ∈ universe.
Proof.
  intros Ht Hs Hget Hin.
  destruct (get_shaped all t s Ht Hs) as (exact & extra & q & Hget' & _ & _ & He & Hx).
  rewrite Hget in Hget'. injection Hget' as ->.
  assert (∃ k, (k, pattern) ∈ all) as [k Hk].
  { apply elem_of_app in Hin as [Hin|Hin].
    - destruct (He _ Hin) as (k & ? & _). by exists k.
    - destruct (Hx _ Hin) as (k & ? & _). by exists k. }
  unfold all in Hk. apply list_elem_of_fmap in Hk as (q' & [= _ ->] & Hq'). done.
Qed.

(** What the loop of [getPotentialPatterns] adds to the Array it starts
    with: what [get] returns at the letters of the string, for the one
    tree at every letter, for the other at the letters that begin a word
    (or at every letter, with [pretendDash]). *)
Lemma getPotentialPatterns_loop_has e pretendDash s :
  ∀ isNewWord result h result' h' old,
    getPotentialPatterns_loop e pretendDash s isNewWord result h = Ok (result', h') →
    h !! result = Some old →
    ∃ extra,
      h' !! result' = Some (old ++ extra) ∧
      (∀ i c found, s !! i = Some c → isLetter c = true →
         get (nonprefixPatterns_ e) (drop i s) = Ok found →
         ∀ pattern, pattern ∈ found → pattern ∈ extra) ∧
      (∀ i c found, s !! i = Some c → isLetter c = true →
         pretendDash = true ∨ wordStart isNewWord s i →
         get (dictPatterns_ e) (drop i s) = Ok found →
         ∀ pattern, pattern ∈ found → pattern ∈ extra) ∧
      (∀ pattern, pattern ∈ extra →
         ∃ i found, (get (dictPatterns_ e) (drop i s) = Ok found ∨
                     get (nonprefixPatterns_ e) (drop i s) = Ok found) ∧
                    pattern ∈ found).
Proof.
  induction s as [|c s IH]; intros isNewWord result h result' h' old;
    cbn [getPotentialPatterns_loop].
  { intros [= <- <-] Hold. exists []. rewrite app_nil_r. split_and!; [done|done|done|].
    by intros pattern ?%elem_of_nil. }
  change (test false (Class false letters) [c]) with (isLetter c).
  destruct (isLetter c) eqn:Hc; cbn [negb].
  2:{ intros Hrun Hold. destruct (IH _ _ _ _ _ _ Hrun Hold) as (extra & Hextra & Hn & Hd & Hs).
      exists extra. split_and!; [done|..].
      - intros [|i] c' found Hi Hl; [injection Hi as <-; congruence|]. by apply (Hn i c').
      - intros [|i] c' found Hi Hl Hw; [injection Hi as <-; congruence|].
        apply (Hd i c'); [done|done|]. destruct Hw as [?|Hw]; [by left|right].
        apply wordStart_tail in Hw. by rewrite Hc in Hw.
      - intros pattern (i & found & Hget & Hin)%Hs. by exists (S i), found. }
  intros (r1 & h1 & Hfirst & Hrest)%mbind_inv Hold.
  assert (∃ first, h1 !! r1 = Some (old ++ first) ∧
            (∀ found, isNewWord || pretendDash = true →
               get (dictPatterns_ e) (c :: s) = Ok found → first = found) ∧
            (∀ pattern, pattern ∈ first →
               ∃ found, get (dictPatterns_ e) (c :: s) = Ok found ∧ pattern ∈ found))
    as (first & Hold1 & Hfirst1 & Hfirst2).
  { destruct (isNewWord || pretendDash).
    - apply mbind_inv in Hfirst as (found & h0 & (Hget & ->)%lift_inv & Hfirst).
      apply mbind_inv in Hfirst as (old' & h0 & (Hold' & ->)%read_inv & (-> & ->)%alloc_inv).
      rewrite Hold in Hold'. injection Hold' as <-.
      exists found. split_and!.
      + apply lookup_alloc.
      + intros found' _ Hget'. congruence.
      + intros pattern Hin. by exists found.
    - injection Hfirst as <- <-. exists []. rewrite app_nil_r. split_and!; [done|done|].
      by intros pattern ?%elem_of_nil. }
  apply mbind_inv in Hrest as (found & h0 & (Hget & ->)%lift_inv & Hrest).
  apply mbind_inv in Hrest as (old1 & h0 & (Hold1' & ->)%read_inv & Hrest).
  rewrite Hold1 in Hold1'. injection Hold1' as <-.
  apply mbind_inv in Hrest as (r2 & h2 & (-> & ->)%alloc_inv & Hrest).
  destruct (IH _ _ _ _ _ _ Hrest (lookup_alloc _ _)) as (extra & Hextra & Hn & Hd & Hs).
  exists (first ++ found ++ extra). split_and!.
  - rewrite Hextra. f_equal. by rewrite <- !(assoc_L (++)).
  - intros [|i] c' found' Hi Hl Hget' pattern Hin.
    + rewrite drop_0 in Hget'. rewrite Hget in Hget'. injection Hget' as <-.
      apply elem_of_app. right. apply elem_of_app. by left.
    + apply elem_of_app. right. apply elem_of_app. right. by apply (Hn i c' found').
  - intros [|i] c' found' Hi Hl Hw Hget' pattern Hin.
    + rewrite drop_0 in Hget'. apply elem_of_app. left.
      rewrite (Hfirst1 found'); [done| |done].
      destruct Hw as [->|Hw]; [apply orb_true_r|]. cbn in Hw. by rewrite Hw.
    + apply elem_of_app. right. apply elem_of_app. right.
      apply (Hd i c' found'); [done|done| |done|done].
      destruct Hw as [?|Hw]; [by left|right].
      apply wordStart_tail in Hw. by rewrite Hc in Hw.
  - intros pattern [Hin|[Hin|Hin]%elem_of_app]%elem_of_app.
    + destruct (Hfirst2 _ Hin) as (found' & Hget' & Hin'). exists 0, found'.
      rewrite drop_0. split; [by left|done].
    + exists 0, found. rewrite drop_0. split; [by right|done].
    + destruct (Hs _ Hin) as (i & found' & Hget' & Hin'). by exists (S i), found'.
Qed.

(** The patterns returned: those of the Array of bad patterns and those
    the loop has found, each once. *)
Lemma getPotentialPatterns_has e h added s pretendDash ps h' :
  inv e h added →
  (∀ p q, p ∈ universe → q ∈ universe → self p = self q → p = q) →
  getPotentialPatterns e s pretendDash h = Ok (ps, h') →
  ∀ pattern, pattern ∈ added →
    isBad pattern = true ∨
    (∃ i c, promiscuouslyNormalize s !! i = Some c ∧ isLetter c = true ∧
            keyOf pattern `prefix_of` drop i (promiscuouslyNormalize s) ∧
            (startDash pattern = true ∨ pretendDash = true ∨
             wordStart true (promiscuouslyNormalize s) i)) →
    pattern ∈ universe → pattern ∈ ps.
Proof.
  intros [(Hd & Hn & Hb) Hsd Hsn Hst (bad & Hbad & Hbad1 & Hbad2)] Hinj.
  unfold getPotentialPatterns. intros (r & h1 & Hloop & Hrest)%mbind_inv.
  apply mbind_inv in Hrest as (elements & h0 & (Helements & ->)%read_inv & Hrest).
  apply mbind_inv in Hrest as ([] & h2 & [= <-] & Hrest).
  apply mbind_inv in Hrest as (sorted & h0 & (Hsorted & ->)%read_inv & [= <- <-]).
  pose proof (getPotentialPatterns_loop_frame _ _ _ _ _ _ _ _ Hloop Hb) as (_ & Hr & _ & _).
  destruct (getPotentialPatterns_loop_has _ _ _ _ _ _ _ _ _ Hloop Hbad)
    as (extra & Hextra & Hhasn & Hhasd & Hsound).
  rewrite Helements in Hextra. injection Hextra as ->.
  rewrite list_lookup_insert_eq in Hsorted by done. injection Hsorted as <-.
  pose proof (promiscuouslyNormalize_clean s) as Hclean.
  intros pattern Hadded Hwhy Hu.
  assert (pattern ∈ bad ++ extra) as Hin.
  { apply elem_of_app. destruct Hwhy as [Hisbad|(i & c & Hi & Hc & Hpre & Hstart)].
    { left. by apply Hbad1. }
    right. specialize (Hst pattern Hadded).
    destruct (startDash pattern) eqn:Hdash.
    - destruct (get_stored _ _ _ _ Hn Hst Hpre (clean_drop i _ Hclean)) as (found & Hget & Hin).
      by apply (Hhasn i c found).
    - destruct (get_stored _ _ _ _ Hd Hst Hpre (clean_drop i _ Hclean)) as (found & Hget & Hin).
      apply (Hhasd i c found); [done|done| |done|done].
      destruct Hstart as [?|[?|?]]; [done|by left|by right]. }
  destruct (dropRepeated_keeps
              (sort (λ x y, compareStrings (toString x) (toString y)) (bad ++ extra))
              None pattern) as [(y & Hy & Hself)|(z & [=] & _)].
  { by rewrite sort_Permutation. }
  assert (y = pattern) as ->; [|done].
  apply Hinj; [|done|done].
  apply dropRepeated_subset in Hy. rewrite sort_Permutation in Hy.
  apply elem_of_app in Hy as [Hy|Hy]; [by apply Hbad2|].
  destruct (Hsound y Hy) as (i & found & [Hget|Hget] & Hfound).
  - by eapply (shaped_get_universe _ _ _ _ Hsd (clean_drop i _ Hclean)).
  - by eapply (shaped_get_universe _ _ _ _ Hsn (clean_drop i _ Hclean)).
Qed.

End Index.

Section Built.
Context `{Host}.

(** The engine the constructor returns holds the patterns of the lines. *)
Lemma new_inv ltwa shortWords h0 e h :
  new ltwa shortWords h0 = Ok (e, h) →
  inv (patternsFrom 0 (tail (toArray ltwa))) e h (patternsFrom 0 (tail (toArray ltwa))).
Proof.
  unfold new. intros (bad & h1 & [= <- <-] & (e1 & h2 & Hadd & [= <- <-])%mbind_inv)%mbind_inv.
  eapply (addLines_inv _ _ _ _ []) in Hadd; [| |done].
  - cbn [size_ app] in Hadd. destruct Hadd as [Hok Hsd Hsn Hst Hbad].
    split; cbn [dictPatterns_ nonprefixPatterns_ badPatterns_]; done.
  - split; cbn [dictPatterns_ nonprefixPatterns_ badPatterns_].
    + unfold engine_ok. split_and!; [apply wf_newNode..|]. cbn. rewrite length_app. cbn. lia.
    + apply shaped_newNode.
    + apply shaped_newNode.
    + by intros pattern ?%elem_of_nil.
    + exists []. split_and!.
      * apply lookup_alloc.
      * by intros pattern ?%elem_of_nil.
      * by intros pattern ?%elem_of_nil.
Qed.

Lemma built_has ltwa shortWords h0 e h s pretendDash pattern :
  new ltwa shortWords h0 = Ok (e, h) →
  pattern ∈ patternsFrom 0 (tail (toArray ltwa)) →
  isBad pattern = true ∨
  (∃ i c, promiscuouslyNormalize s !! i = Some c ∧ isLetter c = true ∧
          keyOf pattern `prefix_of` drop i (promiscuouslyNormalize s) ∧
          (startDash pattern = true ∨ pretendDash = true ∨
           wordStart true (promiscuouslyNormalize s) i)) →
  ∃ ps h', getPotentialPatterns e s pretendDash h = Ok (ps, h') ∧ pattern ∈ ps.
Proof.
  intros Hnew Hin Hwhy. pose proof (new_inv _ _ _ _ _ Hnew) as Hinv.
  destruct (getPotentialPatterns_ok e s pretendDash h (inv_ok _ _ _ _ Hinv))
    as (ps & h' & Hrun & _).
  exists ps, h'. split; [done|].
  eapply getPotentialPatterns_has; [done| |done|done|done|done].
  apply patternsFrom_inj.
Qed.

End Built.

Transparent normalize promiscuouslyNormalize test.

(** ** The properties *)

(** The third pattern of the LTWA of the examples. *)
Definition pattern_nature : LTWAPattern :=
  {| self := 2; pattern := str "nature"; replacement := str "nat.";
     languages := [str "eng"]; startDash := false; endDash := false;
     line := str "nature" ++ [9%N] ++ str "nat." ++ [9%N] ++ str "eng" |}.
Definition pattern_aaa : LTWAPattern :=
  {| self := 1; pattern := str "'aaa"; replacement := str "a.";
     languages := [str "und"]; startDash := false; endDash := false;
     line := str "'aaa" ++ [9%N] ++ str "a." ++ [9%N] ++ str "und" |}.

(** X18.  On an engine the constructor returns, a pattern of the LTWA is
    among the potential patterns of a title whenever the position at which
    [addPattern] filed it is a prefix of the title, promiscuously
    normalised, from an index that holds a letter, and the pattern begins
    with a dash, or [pretendDash] is set, or the index begins a word. *)
Theorem X18_patterns_are_found `{Host} (ltwa shortWords : lines) (h0 : heap)
    (e : AbbrevIso) (h : heap) (pattern : LTWAPattern) (s : jsstring)
    (pretendDash : bool) (i : nat) (c : N) :
  new ltwa shortWords h0 = Ok (e, h) →
  pattern ∈ patternsFrom 0 (tail (toArray ltwa)) →
  promiscuouslyNormalize s !! i = Some c → c ≠ 32%N →
  keyOf pattern `prefix_of` drop i (promiscuouslyNormalize s) →
  startDash pattern = true ∨ pretendDash = true ∨ i = 0 ∨
    promiscuouslyNormalize s !! (i - 1) = Some 32%N →
  ∃ ps h', getPotentialPatterns e s pretendDash h = Ok (ps, h') ∧ pattern ∈ ps.
Proof.
  intros Hnew Hin Hi Hc Hpre Hstart.
  eapply built_has; [done|done|]. right. exists i, c. split_and!; [done| |done|].
  - eapply promiscuouslyNormalize_letters; [|done]. by eapply list_elem_of_lookup_2.
  - destruct Hstart as [?|[?|[->|Hprev]]]; [by left|by right; left|by right; right|].
    right; right. destruct i as [|j]; [done|].
    rewrite Nat.sub_1_r in Hprev. cbn [Nat.pred] in Hprev.
    exists 32%N. split; [done|]. by rewrite isLetter_spec.
Qed.

Lemma X18_patterns_are_found_witness :
  ∃ ps h', getPotentialPatterns (H := BasicLatin.host) engine3.1 (str "The Nature") false
             engine3.2 = Ok (ps, h') ∧ pattern_nature ∈ ps.
Proof.
  apply (X18_patterns_are_found (H := BasicLatin.host) ltwa3 (Lines [str "of"]) []
           engine3.1 engine3.2 pattern_nature (str "The Nature") false 3 110%N).
  - vm_compute. reflexivity.
  - vm_compute. apply list_elem_of_further, list_elem_of_further, list_elem_of_here.
  - vm_compute. reflexivity.
  - discriminate.
  - exists []. vm_compute. reflexivity.
  - right; right; right. vm_compute. reflexivity.
Defined.

(** X19.  On an engine the constructor returns, a pattern of the LTWA
    that, without its dashes and normalised, does not begin with a letter
    is among the potential patterns of every title. *)
Theorem X19_bad_patterns_are_always_found `{Host} (ltwa shortWords : lines) (h0 : heap)
    (e : AbbrevIso) (h : heap) (pattern : LTWAPattern) (s : jsstring)
    (pretendDash : bool) :
  new ltwa shortWords h0 = Ok (e, h) →
  pattern ∈ patternsFrom 0 (tail (toArray ltwa)) →
  isBad pattern = true →
  ∃ ps h', getPotentialPatterns e s pretendDash h = Ok (ps, h') ∧ pattern ∈ ps.
Proof. intros Hnew Hin Hbad. eapply built_has; [done|done|by left]. Qed.

Lemma X19_bad_patterns_are_always_found_witness :
  ∃ ps h', getPotentialPatterns (H := BasicLatin.host) engine3.1 (str "xyz") false
             engine3.2 = Ok (ps, h') ∧ pattern_aaa ∈ ps.
Proof.
  apply (X19_bad_patterns_are_always_found (H := BasicLatin.host) ltwa3 (Lines [str "of"]) []
           engine3.1 engine3.2 pattern_aaa (str "xyz") false).
  - vm_compute. reflexivity.
  - vm_compute. apply list_elem_of_further, list_elem_of_here.
  - vm_compute. reflexivity.
Defined.

End IndexMore.

(** * The constructor's two forms of input *)

Module ConstructorMore.
Import JS RegExp Collation AbbrevIso RegExpFacts.

(** The code units [newlineRegex] matches on their own. *)
Definition newlines : list (N * N) :=
  [(10, 10); (11, 11); (12, 12); (13, 13); (0x85, 0x85); (0x2028, 0x2028); (0x2029, 0x2029)]%N.

Definition isNewline (c : N) : bool := inRanges newlines c.

(** A line: a string that [newlineRegex] matches nowhere. *)
Definition isLine (s : jsstring) : bool := forallb (λ c, negb (isNewline c)) s.

Lemma isLine_lookup s k c : isLine s = true → s !! k = Some c → isNewline c = false.
Proof.
  intros Hs Hc. unfold isLine in Hs. rewrite forallb_forall in Hs.
  apply negb_true_iff, Hs, list_elem_of_In. by eapply list_elem_of_lookup_2.
Qed.

(** [l.join(sep)] *)
Fixpoint join (sep : jsstring) (l : list jsstring) : jsstring :=
  match l with
  | [] => []
  | [x] => x
  | x :: l' => x ++ sep ++ join sep l'
  end.

Definition LF : jsstring := [10%N].
Definition CRLF : jsstring := [13%N; 10%N].

Lemma join_cons sep x y l : join sep (x :: y :: l) = x ++ sep ++ join sep (y :: l).
Proof. reflexivity. Qed.

Lemma matchAt_newline_none q c rest :
  isNewline c = false → matchAt false newlineRegex q (c :: rest) = None.
Proof.
  intros Hc. unfold matchAt, newlineRegex. cbn [matcher]. unfold step. cbn [RegExp.rest].
  rewrite headChar_units. fold newlines. fold (isNewline c). rewrite Hc. cbn [xorb].
  destruct (c =? 13)%N eqn:E; [|done].
  apply N.eqb_eq in E. subst c. discriminate Hc.
Qed.

Lemma matchAt_newline_sep q sep rest :
  sep = LF ∨ sep = CRLF →
  ∃ st, matchAt false newlineRegex q (sep ++ rest) = Some st ∧ pos st = q + length sep.
Proof.
  intros [-> | ->]; unfold matchAt, newlineRegex, LF, CRLF; cbn [matcher app];
    unfold step; cbn [RegExp.rest RegExp.pos RegExp.caps]; rewrite !headChar_units.
  - cbn. eexists. split; [done|]. cbn. lia.
  - cbn [N.eqb Pos.eqb drop]. rewrite headChar_units. cbn.
    eexists. split; [done|]. cbn. lia.
Qed.

(** The loop of [split] reads a text of joined lines back into the lines. *)
Lemma split_loop_join sep (Hsep : sep = LF ∨ sep = CRLF) fuel :
  ∀ ls line pre k,
    Forall (λ l, isLine l = true) (line :: ls) → k ≤ length line →
    length (join sep (line :: ls)) - k < fuel →
    split_loop false newlineRegex (pre ++ join sep (line :: ls)) fuel
      (length pre) (length pre + k) (drop k (join sep (line :: ls))) = line :: ls.
Proof.
  induction fuel as [|fuel IH]; intros ls line pre k Hall Hk Hfuel; [lia|].
  assert (drop (length pre) (pre ++ join sep (line :: ls)) = join sep (line :: ls)) as Hpre.
  { by rewrite drop_app_length. }
  destruct (decide (k < length line)) as [Hlt|Hge].
  - (* inside the line *)
    destruct (lookup_lt_is_Some_2 line k Hlt) as [c Hc].
    assert (isNewline c = false) as Hnl.
    { apply Forall_cons in Hall as [Hline _]. by eapply isLine_lookup. }
    assert (∃ rest, drop k (join sep (line :: ls)) = c :: rest ∧
                    drop (S k) (join sep (line :: ls)) = rest) as (rest & Hrest & Hrest').
    { exists (drop (S k) (join sep (line :: ls))). split; [|done].
      apply drop_S.
      destruct ls; [done|]. rewrite join_cons. by apply lookup_app_l_Some. }
    cbn [split_loop]. rewrite Hrest, advance_units, matchAt_newline_none by done.
    cbn [drop]. rewrite drop_0, <- Hrest', <- Nat.add_assoc, Nat.add_1_r.
    apply IH; [done|lia|].
    assert (k < length (join sep (line :: ls))).
    { destruct ls; [done|]. rewrite join_cons, length_app. lia. }
    lia.
  - assert (k = length line) as -> by lia.
    destruct ls as [|line' ls].
    + (* the last line *)
      cbn [join]. rewrite drop_all. cbn [split_loop]. by rewrite drop_app_length.
    + rewrite join_cons, drop_app_length.
      destruct (matchAt_newline_sep (length pre + length line) sep
                  (join sep (line' :: ls)) Hsep) as (st & Hst & Hpos).
      assert (∃ c rest, sep ++ join sep (line' :: ls) = c :: rest) as (c & rest & Hrest).
      { destruct Hsep as [-> | ->]; by eexists _, _. }
      rewrite Hrest at 2. cbn [split_loop]. rewrite <- Hrest, Hst, Hpos. clear c rest Hrest.
      assert (length sep ≠ 0) as Hsep0 by (destruct Hsep as [-> | ->]; done).
      assert (length (pre ++ line ++ sep ++ join sep (line' :: ls)) =
              length pre + length line + length sep + length (join sep (line' :: ls))) as Hlen.
      { rewrite !length_app. lia. }
      rewrite Nat.min_l by lia.
      destruct (Nat.eqb_spec (length pre + length line + length sep) (length pre)) as [|_];
        [lia|].
      f_equal.
      * rewrite drop_app_length.
        replace (length pre + length line - length pre) with (length line) by lia.
        by rewrite take_app_length.
      * replace (pre ++ line ++ sep ++ join sep (line' :: ls))
          with ((pre ++ line ++ sep) ++ join sep (line' :: ls)) by (by rewrite <- !app_assoc).
        replace (length pre + length line + length sep) with (length (pre ++ line ++ sep))
          by (rewrite !length_app; lia).
        rewrite drop_app_length.
        rewrite <- (Nat.add_0_r (length (pre ++ line ++ sep))) at 2.
        rewrite <- (drop_0 (join sep (line' :: ls))).
        apply IH; [by apply Forall_cons in Hall as [_ ?]|lia|].
        rewrite join_cons, !length_app in Hfuel. lia.
Qed.

(** [join(sep).split(newlineRegex)] gives the lines back; of no line at
    all it makes one empty line. *)
Lemma split_join sep ls :
  sep = LF ∨ sep = CRLF → Forall (λ l, isLine l = true) ls →
  split false newlineRegex (join sep ls) = match ls with [] => [[]] | _ => ls end.
Proof.
  intros Hsep Hall. destruct ls as [|line ls]; [done|].
  unfold split. destruct (join sep (line :: ls)) as [|c s] eqn:Hjoin.
  - change (matchAt false newlineRegex 0 []) with (@None state). destruct ls as [|line' ls].
    + cbn in Hjoin. by subst.
    + rewrite join_cons in Hjoin. apply app_eq_nil in Hjoin as [_ Hjoin].
      apply app_eq_nil in Hjoin as [Hjoin _]. destruct Hsep as [-> | ->]; done.
  - rewrite <- Hjoin.
    pose proof (split_loop_join sep Hsep (S (2 * length (join sep (line :: ls))))
                  ls line [] 0 Hall) as Hloop.
    cbn [app length Nat.add] in Hloop. rewrite drop_0 in Hloop. apply Hloop; lia.
Qed.

(** ** The property *)

Definition ltwa_text : jsstring :=
  str "WORD" ++ [9; 10]%N ++ str "nature" ++ [9%N] ++ str "nat." ++ [9%N] ++ str "eng" ++
  [10; 10]%N ++ str "-ology" ++ [9%N] ++ str "-ol." ++ [9%N] ++ str "eng".
Definition ltwa_lines : list jsstring :=
  [str "WORD" ++ [9%N]; str "nature" ++ [9%N] ++ str "nat." ++ [9%N] ++ str "eng"; [];
   str "-ology" ++ [9%N] ++ str "-ol." ++ [9%N] ++ str "eng"].
Definition shortWords_text : jsstring := str "of" ++ [13; 10]%N ++ str " the " ++ [13; 10]%N.
Definition shortWords_lines : list jsstring := [str "of"; str " the "; []].

(** X20.  The constructor makes the same engine of a text as of the Array
    of its lines: for lines that hold no line terminator, joined by line
    feeds or by carriage return and line feed, [new AbbrevIso] of the two
    texts returns, or throws, as it does of the two Arrays, and leaves the
    same store. *)
Theorem X20_constructor_text_or_array `{Host} (ltwa shortWords : list jsstring)
    (sep sep' : jsstring) (h : heap) :
  Forall (λ l, isLine l = true) ltwa → Forall (λ l, isLine l = true) shortWords →
  sep = LF ∨ sep = CRLF → sep' = LF ∨ sep' = CRLF →
  new (Text (join sep ltwa)) (Text (join sep' shortWords)) h =
  new (Lines ltwa) (Lines shortWords) h.
Proof.
  intros Hltwa Hshort Hsep Hsep'. unfold new. cbn [toArray].
  rewrite !split_join by done.
  assert (tail (match ltwa with [] => [[]] | _ => ltwa end) = tail ltwa) as ->
    by by destruct ltwa.
  assert (List.filter (λ s : jsstring, 0 <? length s)
            (trim <$> match shortWords with [] => [[]] | _ => shortWords end) =
          List.filter (λ s : jsstring, 0 <? length s) (trim <$> shortWords)) as ->
    by by destruct shortWords.
  done.
Qed.

Lemma X20_constructor_text_or_array_witness :
  new (H := BasicLatin.host) (Text ltwa_text) (Text shortWords_text) [] =
  new (H := BasicLatin.host) (Lines ltwa_lines) (Lines shortWords_lines) [].
Proof.
  apply (X20_constructor_text_or_array (H := BasicLatin.host) ltwa_lines shortWords_lines
           LF CRLF []).
  - repeat constructor.
  - repeat constructor.
  - by left.
  - by right.
Defined.

End ConstructorMore.

